(** * ColorExtractor: the K-means clustering engine of src/utils/colorExtractor.ts

    A shallow embedding of the private methods of [class ColorExtractor]
    ([colorDistanceSq], [minDistancesToCenters], [weightedRandomPick],
    [kMeansPlusPlusInit], [assignPixelsToCenters], [updateCenters],
    [kMeansClustering], [rgbToHex]) and of the formatting step at the end of
    [extractColors], followed by the properties of the engine.

    Numbers.  Channel values, squared distances, channel sums, indices and
    cluster sizes are integers far below 2^53, so the JavaScript doubles that
    hold them are exact: they are [Z] and [nat] here.  Quotients, random
    draws and percentages are rationals ([Q]), i.e. the arithmetic of the
    source read exactly.  For [Math.round(sum / size)] this loses nothing:
    the double quotient is the correctly rounded exact quotient, rounding is
    monotone and every half-integer in range is a double, so the double lies
    on the same side of each half-integer as the exact quotient.  The
    products [Math.random() * pixels.length] and [Math.random() * total] are
    read exactly as well, where the code has the exact product after one
    rounding to a double; a draw next to the end of a pixel's interval may
    so select its neighbour, and the statement of which pixel a draw selects
    (C6) is made up to that rounding ([roundedFrom]).

    Failure.  A JavaScript [TypeError] (reading an index of [undefined],
    spreading [undefined]) is [Throw TypeError].  Where JavaScript would go on
    with a [NaN], [Infinity] or [undefined] value that the integer model has
    no room for, the model stops with [Throw NotRepresentable]; both only
    happen outside the documented inputs (colorCount a positive integer).

    Randomness.  [Math.random()] is an oracle [random : nat -> Q]; the state
    threaded through the randomized functions is the number of draws made so
    far.

    Around the engine.  The file also embeds [processColorResults] and
    [exampleBatchProcessFiles] of src/examples/colorExtractorExample.ts and
    the loaders of src/utils/colorExtractor.ts ([loadImage], [downloadImage],
    [extractColorsFromFile], [extractColorsFromUrl]).  The browser the
    loaders run in is a record of oracles, and an asynchronous function is
    read as how its promise settles together with the events it caused, in
    their order. *)

From Stdlib Require Import ZArith QArith Qround Lqa String Ascii.
From Stdlib Require Import DecimalString HexadecimalString DecimalPos Permutation.
From stdpp Require Import base list numbers strings sorting.

Local Open Scope Z_scope.

(** ** Failure and the two monads of the embedding *)

Inductive failure : Type :=
  | TypeError
  | NotRepresentable.

Inductive result (A : Type) : Type :=
  | Ok (a : A)
  | Throw (e : failure).
Arguments Ok {A} a.
Arguments Throw {A} e.

#[export] Instance result_ret : MRet result := fun A a => Ok a.
#[export] Instance result_bind : MBind result := fun A B f m =>
  match m with
  | Ok a => f a
  | Throw e => Throw e
  end.

(** A computation that may call [Math.random()]: from the number of draws
    made so far to a value and the new number of draws. *)
Definition Rand (A : Type) : Type := nat -> result (A * nat).

#[export] Instance Rand_ret : MRet Rand := fun A a n => Ok (a, n).
#[export] Instance Rand_bind : MBind Rand := fun A B f m n =>
  match m n with
  | Ok (a, n') => f a n'
  | Throw e => Throw e
  end.

Definition lift {A : Type} (m : result A) : Rand A := fun n =>
  match m with
  | Ok a => Ok (a, n)
  | Throw e => Throw e
  end.

(** [xs[i]] followed by a use that raises on [undefined]. *)
Definition at_index {A : Type} (xs : list A) (i : Z) : result A :=
  if i <? 0 then Throw TypeError
  else match xs !! Z.to_nat i with
       | Some x => Ok x
       | None => Throw TypeError
       end.

(** ** The JavaScript built-ins the engine calls *)

Module JS.

Definition Math_floor (x : Q) : Z := Qfloor x.

(** [Math.round]: the nearest integer, a tie going towards +infinity. *)
Definition Math_round (x : Q) : Z := Qfloor (x + (1 # 2)).

(** [Math.min(...xs)]; [None] is [Infinity], the value on no arguments. *)
Definition Math_min (xs : list Z) : option Z :=
  match xs with
  | [] => None
  | x :: xs' => Some (fold_left Z.min xs' x)
  end.

(** [x.toString(16)] and [String(x)] on an integer. *)
Definition toString16 (x : Z) : string :=
  HexadecimalString.NilZero.string_of_int (Z.to_hex_int x).

Definition toString10 (x : Z) : string :=
  DecimalString.NilZero.string_of_int (Z.to_int x).

Fixpoint repeat_char (n : nat) (c : ascii) : string :=
  match n with
  | O => EmptyString
  | S n' => String c (repeat_char n' c)
  end.

(** [s.padStart(n, c)] for a one-character filler. *)
Definition padStart (n : nat) (c : ascii) (s : string) : string :=
  (repeat_char (n - String.length s) c +:+ s)%string.

(** [x.toFixed(1)] for [0 <= x < 10^21], [None] being [NaN]: with [n] the
    integer nearest to [10 * x] (the larger one on a tie), the decimal
    digits of [n], padded to two digits, with a point before the last. *)
Definition toFixed1 (x : option Q) : string :=
  match x with
  | None => "NaN"
  | Some x =>
      let n := Qfloor (x * 10 + (1 # 2)) in
      (toString10 (n / 10) +:+ "." +:+ toString10 (n mod 10))%string
  end.

End JS.

(** ** Data *)

(** A pixel or a center: the three-element [number[]] of the source. *)
Record rgb : Type := RGB { ch0 : Z; ch1 : Z; ch2 : Z }.

#[export] Instance rgb_eq_dec : EqDecision rgb.
Proof. solve_decision. Defined.

Definition channel_ok (x : Z) : Prop := 0 <= x <= 255.
Definition rgb_ok (c : rgb) : Prop :=
  channel_ok (ch0 c) /\ channel_ok (ch1 c) /\ channel_ok (ch2 c).

(** The items [kMeansClustering] returns; [None] is a [NaN] percentage. *)
Record ranked : Type := Ranked { color : rgb; percentage : option Q }.

(** [interface ColorResult]. *)
Record ColorResult : Type := MkColorResult {
  hex : string;
  rgb_text : string;
  r : Z;
  g : Z;
  b : Z;
  percentage_text : string
}.

(** ** The deterministic steps *)

Definition rgbToHex (r g b : Z) : string :=
  ("#" +:+ String.concat ""
     (map (fun x => JS.padStart 2 "0" (JS.toString16 x)) [r; g; b]))%string.

Definition colorDistanceSq (c1 c2 : rgb) : Z :=
  let dr := ch0 c1 - ch0 c2 in
  let dg := ch1 c1 - ch1 c2 in
  let db := ch2 c1 - ch2 c2 in
  dr * dr + dg * dg + db * db.

Definition minDistancesToCenters (pixels centers : list rgb) : result (list Z) :=
  mapM (fun p =>
          match JS.Math_min (map (fun center => colorDistanceSq p center) centers) with
          | Some d => Ok d
          | None => Throw NotRepresentable
          end) pixels.

(** *** assignPixelsToCenters *)

(** The inner loop [for (i = 0; i < k; i++)] over the indices [idx], with
    [minDistSq] ([None] is [Infinity]) and [closest] as its state. *)
Fixpoint nearestFrom (pixel : rgb) (centers : list rgb) (idx : list nat)
    (minDistSq : option Z) (closest : nat) : result nat :=
  match idx with
  | [] => Ok closest
  | i :: idx' =>
      match centers !! i with
      | None => Throw TypeError
      | Some center =>
          let d := colorDistanceSq pixel center in
          let less := match minDistSq with
                      | None => true
                      | Some m => d <? m
                      end in
          if less then nearestFrom pixel centers idx' (Some d) i
          else nearestFrom pixel centers idx' minDistSq closest
      end
  end.

Definition nearest (pixel : rgb) (centers : list rgb) (k : nat) : result nat :=
  nearestFrom pixel centers (seq 0 k) None 0%nat.

(** [clusterSizes[closest]++]: on a missing entry JavaScript stores [NaN]. *)
Definition increment (clusterSizes : list nat) (closest : nat) : result (list nat) :=
  match clusterSizes !! closest with
  | Some n => Ok (<[closest := S n]> clusterSizes)
  | None => Throw NotRepresentable
  end.

(** The outer loop [for (p = 0; p < pixels.length; p++)]; the assignments
    written so far are kept in order. *)
Fixpoint assignLoop (pixels centers : list rgb) (k : nat)
    (assignments clusterSizes : list nat) : result (list nat * list nat) :=
  match pixels with
  | [] => Ok (assignments, clusterSizes)
  | pixel :: pixels' =>
      closest ← nearest pixel centers k;
      clusterSizes' ← increment clusterSizes closest;
      assignLoop pixels' centers k (assignments ++ [closest]) clusterSizes'
  end.

Definition assignPixelsToCenters (pixels centers : list rgb) (k : nat)
    : result (list nat * list nat) :=
  assignLoop pixels centers k [] (replicate k 0%nat).

(** *** updateCenters *)

(** The accumulation loop: [c = assignments[p]; sums[c][j] += pixel[j]]. *)
Fixpoint accumulate (pixels : list rgb) (assignments : list nat)
    (sums : list (Z * Z * Z)) : result (list (Z * Z * Z)) :=
  match pixels with
  | [] => Ok sums
  | pixel :: pixels' =>
      match assignments with
      | [] => Throw TypeError
      | c :: assignments' =>
          match sums !! c with
          | None => Throw TypeError
          | Some (s0, s1, s2) =>
              accumulate pixels' assignments'
                (<[c := (s0 + ch0 pixel, s1 + ch1 pixel, s2 + ch2 pixel)]> sums)
          end
      end
  end.

Definition roundedQuotient (sum : Z) (size : nat) : Z :=
  JS.Math_round (inject_Z sum / inject_Z (Z.of_nat size)).

(** The callback of [sums.map((sum, i) => ...)]. *)
Definition newCenter (clusterSizes : list nat) (oldCenters : list rgb)
    (i : nat) (sum : Z * Z * Z) : result rgb :=
  let '(s0, s1, s2) := sum in
  match clusterSizes !! i with
  | Some (S n) =>
      Ok (RGB (roundedQuotient s0 (S n)) (roundedQuotient s1 (S n))
              (roundedQuotient s2 (S n)))
  | _ =>
      match oldCenters !! i with
      | Some c => Ok c
      | None => Throw NotRepresentable
      end
  end.

Fixpoint mapCenters (clusterSizes : list nat) (oldCenters : list rgb)
    (i : nat) (sums : list (Z * Z * Z)) : result (list rgb) :=
  match sums with
  | [] => Ok []
  | sum :: sums' =>
      c ← newCenter clusterSizes oldCenters i sum;
      cs ← mapCenters clusterSizes oldCenters (S i) sums';
      Ok (c :: cs)
  end.

Definition updateCenters (pixels : list rgb) (assignments clusterSizes : list nat)
    (oldCenters : list rgb) (k : nat) : result (list rgb) :=
  sums ← accumulate pixels assignments (replicate k (0, 0, 0));
  mapCenters clusterSizes oldCenters 0 sums.

(** *** The convergence loop of kMeansClustering *)

Definition CONVERGE_THRESHOLD_SQ : Z := 25.

(** [centers.every((c, i) => colorDistanceSq(c, newCenters[i]) <= 25)]. *)
Fixpoint everyClose (centers newCenters : list rgb) : result bool :=
  match centers with
  | [] => Ok true
  | c :: centers' =>
      match newCenters with
      | [] => Throw TypeError
      | c' :: newCenters' =>
          if colorDistanceSq c c' <=? CONVERGE_THRESHOLD_SQ
          then everyClose centers' newCenters'
          else Ok false
      end
  end.

(** What the loop leaves behind; [iterations] counts the Assignment/Update
    pairs performed (it is not a variable of the source). *)
Record loopState : Type := LoopState {
  centers_of : list rgb;
  clusterSizes_of : list nat;
  iterations : nat
}.

(** One pass of the loop body: the new state and the [converged] flag. *)
Definition iteration (pixels : list rgb) (k : nat) (st : loopState)
    : result (loopState * bool) :=
  '(assignments, clusterSizes) ← assignPixelsToCenters pixels (centers_of st) k;
  newCenters ← updateCenters pixels assignments clusterSizes (centers_of st) k;
  converged ← everyClose (centers_of st) newCenters;
  Ok (LoopState newCenters clusterSizes (S (iterations st)), converged).

(** [for (iteration = 0; iteration < maxIterations; iteration++)], by
    recursion on the iterations that remain. *)
Fixpoint kMeansLoop (pixels : list rgb) (k : nat) (remaining : nat)
    (st : loopState) : result loopState :=
  match remaining with
  | O => Ok st
  | S remaining' =>
      '(st', converged) ← iteration pixels k st;
      if converged : bool then Ok st' else kMeansLoop pixels k remaining' st'
  end.

(** *** Ranking: the [map] and [sort] that end kMeansClustering *)

Definition percentageOf (clusterSizes : list nat) (pixelCount : nat) (i : nat)
    : option Q :=
  match clusterSizes !! i with
  | Some size =>
      Some ((inject_Z (Z.of_nat size) / inject_Z (Z.of_nat pixelCount)) * 100)%Q
  | None => None
  end.

(** The comparator [(a, b) => b.percentage - a.percentage]. *)
Definition comparefn (a b : ranked) : option Q :=
  match percentage a, percentage b with
  | Some pa, Some pb => Some (pb - pa)%Q
  | _, _ => None
  end.

(** [a] has to come after [b]: the comparator is positive (a [NaN] from
    the comparator counts as 0). *)
Definition sortsAfter (a b : ranked) : bool :=
  match comparefn a b with
  | Some v => negb (Qle_bool v 0)
  | None => false
  end.

(** [Array.prototype.sort] is stable; for a consistent comparator its
    result is the one of this insertion sort. *)
Fixpoint insertRanked (x : ranked) (l : list ranked) : list ranked :=
  match l with
  | [] => [x]
  | y :: l' => if sortsAfter x y then y :: insertRanked x l' else x :: l
  end.

Definition Array_sort (l : list ranked) : list ranked :=
  foldr insertRanked [] l.

Definition rank (centers : list rgb) (clusterSizes : list nat) (pixelCount : nat)
    : list ranked :=
  Array_sort
    (imap (fun i color => Ranked color (percentageOf clusterSizes pixelCount i))
          centers).

(** *** Formatting: the [map] that ends extractColors *)

Definition rgbText (c : rgb) : string :=
  ("rgb(" +:+ JS.toString10 (ch0 c) +:+ ", " +:+ JS.toString10 (ch1 c)
     +:+ ", " +:+ JS.toString10 (ch2 c) +:+ ")")%string.

Definition formatItem (item : ranked) : ColorResult :=
  let c := color item in
  {| hex := rgbToHex (ch0 c) (ch1 c) (ch2 c);
     rgb_text := rgbText c;
     r := ch0 c;
     g := ch1 c;
     b := ch2 c;
     percentage_text := JS.toFixed1 (percentage item) |}.

Definition formatResults (items : list ranked) : list ColorResult :=
  map formatItem items.

(** *** Sampling: the loop of extractColors over the RGBA bytes *)

(** [for (i = 0; i < data.length; i += 4) if (data[i + 3] > 0) pixels.push(...)];
    a last group without an alpha byte has [data[i + 3]] undefined and is
    skipped. *)
Fixpoint samplePixels (data : list Z) : list rgb :=
  match data with
  | r :: g :: b :: a :: data' =>
      if 0 <? a then RGB r g b :: samplePixels data' else samplePixels data'
  | _ => []
  end.

(** ** The randomized steps *)

Section Randomized.

Variable random : nat -> Q.

Definition Math_random : Rand Q := fun n => Ok (random n, S n).

(** [[...pixels[Math.floor(Math.random() * pixels.length)]]]. *)
Definition uniformPick (pixels : list rgb) : Rand rgb :=
  u ← Math_random;
  lift (at_index pixels
          (JS.Math_floor (u * inject_Z (Z.of_nat (length pixels))))).

(** The loop of weightedRandomPick; [r] is [None] once it is [NaN]
    (a missing [distances[i]] is [undefined]).  [None] as a result: the
    loop ran to its end without returning. *)
Fixpoint pickLoop (pixels : list rgb) (distances : list Q) (r : option Q)
    : option rgb :=
  match pixels with
  | [] => None
  | pixel :: pixels' =>
      let r' := match r, distances with
                | Some r, d :: _ => Some (r - d)%Q
                | _, _ => None
                end in
      let nonPositive := match r' with
                         | Some v => Qle_bool v 0
                         | None => false
                         end in
      if nonPositive then Some pixel
      else pickLoop pixels' (tail distances) r'
  end.

Definition weightedRandomPick (pixels : list rgb) (distances : list Q)
    : Rand rgb :=
  let total := fold_left Qplus distances 0%Q in
  if Qeq_bool total 0 then uniformPick pixels
  else
    u ← Math_random;
    match pickLoop pixels distances (Some (u * total)%Q) with
    | Some pixel => mret pixel
    | None =>
        (* pixels.at(-1) ?? pixels[0] *)
        match last pixels with
        | Some pixel => mret pixel
        | None => lift (Throw TypeError)
        end
    end.

(** The loop [for (c = 1; c < k; c++)] by recursion on its remaining
    passes. *)
Fixpoint initLoop (pixels : list rgb) (passes : nat) (centers : list rgb)
    : Rand (list rgb) :=
  match passes with
  | O => mret centers
  | S passes' =>
      distances ← lift (minDistancesToCenters pixels centers);
      center ← weightedRandomPick pixels (map inject_Z distances);
      initLoop pixels passes' (centers ++ [center])
  end.

Definition kMeansPlusPlusInit (pixels : list rgb) (k : nat) : Rand (list rgb) :=
  first ← uniformPick pixels;
  initLoop pixels (k - 1) [first].

(** kMeansClustering up to the end of its loop. *)
Definition kMeansRun (pixels : list rgb) (k maxIterations : nat)
    : Rand loopState :=
  let k := Nat.min k (length pixels) in
  centers ← kMeansPlusPlusInit pixels k;
  lift (kMeansLoop pixels k maxIterations (LoopState centers [] 0)).

Definition kMeansClustering (pixels : list rgb) (k maxIterations : nat)
    : Rand (list ranked) :=
  match pixels with
  | [] => mret []
  | _ :: _ =>
      st ← kMeansRun pixels k maxIterations;
      mret (rank (centers_of st) (clusterSizes_of st) (length pixels))
  end.

(** extractColors from the pixel data on: sampling, clustering, formatting. *)
Definition extractColors (data : list Z) (colorCount maxIterations : nat)
    : Rand (list ColorResult) :=
  colorResults ← kMeansClustering (samplePixels data) colorCount maxIterations;
  mret (formatResults colorResults).

End Randomized.

(** ** The result helper of src/examples/colorExtractorExample.ts *)

(** *** Number.parseFloat *)

Definition isDecimalDigit (c : ascii) : bool :=
  (48 <=? nat_of_ascii c)%nat && (nat_of_ascii c <=? 57)%nat.

(** The longest prefix of decimal digits, and what follows it. *)
Fixpoint decimalDigits (s : string) : string * string :=
  match s with
  | String c s' =>
      if isDecimalDigit c
      then let (digits, rest) := decimalDigits s' in (String c digits, rest)
      else (EmptyString, s)
  | EmptyString => (EmptyString, EmptyString)
  end.

(** The number a string of decimal digits stands for, after [acc]. *)
Fixpoint digitsValueFrom (acc : Z) (digits : string) : Z :=
  match digits with
  | String c digits' =>
      digitsValueFrom (10 * acc + (Z.of_nat (nat_of_ascii c) - 48)) digits'
  | EmptyString => acc
  end.

Definition digitsValue (digits : string) : Z := digitsValueFrom 0 digits.

(** Whether [s] starts with an ExponentPart: [e] or [E], an optional sign
    and a digit. *)
Definition startsExponentPart (s : string) : bool :=
  match s with
  | String e s' =>
      if (Ascii.eqb e "e" || Ascii.eqb e "E")%bool then
        match s' with
        | String c s'' =>
            if isDecimalDigit c then true
            else if (Ascii.eqb c "+" || Ascii.eqb c "-")%bool then
              match s'' with
              | String d _ => isDecimalDigit d
              | EmptyString => false
              end
            else false
        | EmptyString => false
        end
      else false
  | EmptyString => false
  end.

(** A first character that [parseFloat] would trim: an ASCII white space or
    line terminator, or a byte of a character outside ASCII (which may be
    one of the Unicode spaces). *)
Definition mayBeWhiteSpace (c : ascii) : bool :=
  let n := nat_of_ascii c in
  ((9 <=? n)%nat && (n <=? 13)%nat) || (n =? 32)%nat || (128 <=? n)%nat.

(** The longest prefix of [s] that is a StrUnsignedDecimalLiteral
    (DecimalDigits . DecimalDigits? | . DecimalDigits | DecimalDigits) and
    its value; [None] is [NaN] (no such prefix).  Three forms are left to
    [NotRepresentable]: [Infinity], a literal with an ExponentPart, and a
    literal whose digits, read as one integer, reach 10^15.  Below that the
    decimal value read here and the double JavaScript makes of it lie on
    the same side of every integer, so [x > 10] is the same for both. *)
Definition unsignedDecimalLiteral (s : string) : result (option Q) :=
  let (int, afterInt) := decimalDigits s in
  let (frac, rest) := match afterInt with
                      | String "." t => decimalDigits t
                      | _ => (EmptyString, afterInt)
                      end in
  if (String.length int + String.length frac =? 0)%nat then
    if String.prefix "Infinity" s then Throw NotRepresentable else Ok None
  else if startsExponentPart rest then Throw NotRepresentable
  else
    let scale := 10 ^ Z.of_nat (String.length frac) in
    let mantissa := digitsValue int * scale + digitsValue frac in
    if mantissa <? 10 ^ 15
    then Ok (Some (inject_Z mantissa / inject_Z scale)%Q)
    else Throw NotRepresentable.

(** [Number.parseFloat(s)]; a string that starts with white space is left
    to [NotRepresentable]. *)
Definition parseFloat (s : string) : result (option Q) :=
  match s with
  | EmptyString => Ok None
  | String c s' =>
      if mayBeWhiteSpace c then Throw NotRepresentable
      else if Ascii.eqb c "-" then
        match unsignedDecimalLiteral s' with
        | Ok v => Ok (option_map Qopp v)
        | Throw e => Throw e
        end
      else if Ascii.eqb c "+" then unsignedDecimalLiteral s'
      else unsignedDecimalLiteral s
  end.

(** *** processColorResults *)

(** [x > 10] on a number that may be [NaN]. *)
Definition above10 (x : option Q) : bool :=
  match x with
  | Some q => negb (Qle_bool q 10)
  | None => false
  end.

(** [colors.filter(color => Number.parseFloat(color.percentage) > 10)]. *)
Fixpoint filterSignificant (colors : list ColorResult) : result (list ColorResult) :=
  match colors with
  | [] => Ok []
  | c :: colors' =>
      v ← parseFloat (percentage_text c);
      rest ← filterSignificant colors';
      Ok (if above10 v then c :: rest else rest)
  end.

(** [Math.round(sum / colors.length)]; [None] is the [NaN] of [0 / 0]. *)
Definition roundedAverage (sum : Z) (count : nat) : option Z :=
  match count with
  | O => None
  | S _ => Some (roundedQuotient sum count)
  end.

(** What [processColorResults] returns; [primaryColor] is [None] where the
    source has [undefined].  What the function writes to the console is
    left out. *)
Record processedColors : Type := ProcessedColors {
  primaryColor : option ColorResult;
  hexColors : list string;
  significantColors : list ColorResult;
  averageRgb : option Z * option Z * option Z
}.

Definition processColorResults (colors : list ColorResult) : result processedColors :=
  significant ← filterSignificant colors;
  let sumR := fold_left (fun acc c => acc + r c) colors 0 in
  let sumG := fold_left (fun acc c => acc + g c) colors 0 in
  let sumB := fold_left (fun acc c => acc + b c) colors 0 in
  let count := length colors in
  Ok {| primaryColor := colors !! 0%nat;
        hexColors := map hex colors;
        significantColors := significant;
        averageRgb := (roundedAverage sumR count, roundedAverage sumG count,
                       roundedAverage sumB count) |}.

(** ** The loaders: loadImage, downloadImage, extractColorsFromFile, extractColorsFromUrl *)

(** [interface ExtractOptions]; [None] is a field left out. *)
Record ExtractOptions : Type := MkExtractOptions {
  colorCount : option nat;
  maxSize : option nat;
  maxIterations : option nat
}.

(** [interface ExtractResult]. *)
Record ExtractResult : Type := MkExtractResult {
  colors : list ColorResult;
  analysisTimeMs : Z
}.

(** What the loaders read of a [File], a [Blob] and a [Response]. *)
Record File : Type := MkFile { file_type : string }.
Record Blob : Type := MkBlob { blob_type : string }.

(** A value that was thrown: an instance of [Error] with its message, or
    any other value with the text [String(...)] gives for it. *)
Inductive thrown : Type :=
  | ErrorObject (message : string)
  | OtherValue (text : string).

(** [error instanceof Error ? error.message : String(error)]. *)
Definition messageOf (error : thrown) : string :=
  match error with
  | ErrorObject message => message
  | OtherValue text => text
  end.

(** How a promise settles. *)
Inductive settled (A : Type) : Type :=
  | Fulfilled (value : A)
  | Rejected (error : thrown).
Arguments Fulfilled {A} value.
Arguments Rejected {A} error.

Record Response : Type := MkResponse {
  response_ok : bool;
  response_status : Z;
  response_blob : settled Blob      (* how [response.blob()] settles *)
}.

(** What the loaders do to the browser, in the order they do it. *)
Inductive event : Type :=
  | ImageRequested (src : string)       (* [img.src = src] in loadImage *)
  | Fetched (url : string)              (* [fetch(url, ...)] *)
  | ObjectURLCreated (url : string)     (* [URL.createObjectURL(...)] *)
  | ObjectURLRevoked (url : string)     (* [URL.revokeObjectURL(url)] *)
  | ClockRead                           (* [performance.now()] *)
  | ExtractCalled                       (* [colorExtractor.extractColors(img, options)] *)
  | Warned (message : string).          (* [console.warn(..., message)] *)

(** The browser as the loaders meet it.  Every answer may depend on the
    events so far.  An image request ends in [onload] with the image or in
    [onerror] ([None]); [extractColors] stands for the call
    [colorExtractor.extractColors(img, options)], canvas included. *)
Record Browser (image : Type) : Type := MkBrowser {
  imageAt : list event -> string -> option image;
  extractColorsOf : list event -> image -> ExtractOptions -> settled (list ColorResult);
  performance_now : list event -> Q;
  createObjectURL : list event -> string;
  fetch : list event -> string -> settled Response;
  isURL : string -> bool              (* whether [new URL(url)] returns *)
}.
Arguments imageAt {image} _ _ _.
Arguments extractColorsOf {image} _ _ _ _.
Arguments performance_now {image} _ _.
Arguments createObjectURL {image} _ _.
Arguments fetch {image} _ _ _.
Arguments isURL {image} _ _.

(** An asynchronous computation by what it leaves: how its promise settles
    and the events so far. *)
Definition Async (A : Type) : Type := list event -> settled A * list event.

(** [try { body } catch (error) { throw new Error(label + message) }] with
    the message read as [messageOf] does. *)
Definition rethrowAs {A : Type} (label : string) (body : Async A) : Async A := fun h =>
  match body h with
  | (Fulfilled a, h') => (Fulfilled a, h')
  | (Rejected error, h') => (Rejected (ErrorObject (label +:+ messageOf error)), h')
  end.

(** [try { body } finally { URL.revokeObjectURL(url) }]. *)
Definition finallyRevoke {A : Type} (url : string) (body : Async A) : Async A := fun h =>
  let (outcome, h') := body h in (outcome, h' ++ [ObjectURLRevoked url]).

Section Loaders.

Context {image : Type}.
Variable browser : Browser image.

Definition loadImage (src : string) : Async image := fun h =>
  match imageAt browser h src with
  | Some img => (Fulfilled img, h ++ [ImageRequested src])
  | None => (Rejected (ErrorObject "图片加载失败"), h ++ [ImageRequested src])
  end.

Definition downloadImage (url : string) : Async Blob :=
  rethrowAs "下载图片失败: " (fun h =>
    match fetch browser h url with
    | Rejected error => (Rejected error, h ++ [Fetched url])
    | Fulfilled response =>
        if negb (response_ok response) then
          (Rejected (ErrorObject ("HTTP error! status: "
                                    +:+ JS.toString10 (response_status response))),
           h ++ [Fetched url])
        else
          match response_blob response with
          | Rejected error => (Rejected error, h ++ [Fetched url])
          | Fulfilled blob =>
              if negb (String.prefix "image/" (blob_type blob)) then
                (Rejected (ErrorObject "下载的文件不是图片格式"), h ++ [Fetched url])
              else (Fulfilled blob, h ++ [Fetched url])
          end
    end).

(** The synchronous start of the timed analysis: [performance.now()] and
    the call of [extractColors], whose body has no [await] and so runs to
    its end within the call. *)
Definition startExtract (img : image) (options : ExtractOptions)
    : list event -> (Q * settled (list ColorResult)) * list event := fun h =>
  let startTime := performance_now browser h in
  let h1 := h ++ [ClockRead] in
  ((startTime, extractColorsOf browser h1 img options), h1 ++ [ExtractCalled]).

(** What follows the [await] of the promise of [extractColors]. *)
Definition finishExtract (pending : Q * settled (list ColorResult)) : Async ExtractResult :=
  fun h =>
    match snd pending with
    | Rejected error => (Rejected error, h)
    | Fulfilled colors =>
        (Fulfilled {| colors := colors;
                      analysisTimeMs :=
                        JS.Math_round (performance_now browser h - fst pending) |},
         h ++ [ClockRead])
    end.

(** [runExtract] of extractColorsFromUrl, and lines 291-295 of
    extractColorsFromFile, awaited to their end. *)
Definition runExtract (img : image) (options : ExtractOptions) : Async ExtractResult :=
  fun h => let (pending, h') := startExtract img options h in finishExtract pending h'.

Definition extractColorsFromFile (file : File) (options : ExtractOptions)
    : Async ExtractResult :=
  rethrowAs "文件处理失败: " (fun h =>
    if negb (String.prefix "image/" (file_type file)) then
      (Rejected (ErrorObject "请选择有效的图片文件"), h)
    else
      let imageUrl := createObjectURL browser h in
      finallyRevoke imageUrl (fun h1 =>
        match loadImage imageUrl h1 with
        | (Rejected error, h2) => (Rejected error, h2)
        | (Fulfilled img, h2) => runExtract img options h2
        end) (h ++ [ObjectURLCreated imageUrl])).

(** In extractColorsFromUrl both [return runExtract(img)] hand the promise
    of [runExtract] over without an [await]: the function is left at once
    (the [finally] of the second one runs then, before [runExtract] goes
    on), and a rejection of that promise reaches the caller as it is, past
    the [catch] blocks. *)
Definition extractColorsFromUrl (url : string) (options : ExtractOptions)
    : Async ExtractResult := fun h =>
  if negb (isURL browser url) then
    (Rejected (ErrorObject ("URL处理失败: " +:+ "请提供有效的URL地址")), h)
  else
    match loadImage url h with
    | (Fulfilled img, h1) => runExtract img options h1
    | (Rejected corsError, h1) =>
        let h2 := h1 ++ [Warned (messageOf corsError)] in
        match downloadImage url h2 with
        | (Rejected error, h3) =>
            (Rejected (ErrorObject ("URL处理失败: " +:+ messageOf error)), h3)
        | (Fulfilled blob, h3) =>
            let localUrl := createObjectURL browser h3 in
            match loadImage localUrl (h3 ++ [ObjectURLCreated localUrl]) with
            | (Rejected error, h4) =>
                (Rejected (ErrorObject ("URL处理失败: " +:+ messageOf error)),
                 h4 ++ [ObjectURLRevoked localUrl])
            | (Fulfilled img, h4) =>
                let (pending, h5) := startExtract img options h4 in
                finishExtract pending (h5 ++ [ObjectURLRevoked localUrl])
            end
        end
    end.

(** exampleBatchProcessFiles of src/examples/colorExtractorExample.ts: the
    loop over the files with the results pushed so far; what it writes to
    the console is left out. *)
Fixpoint batchProcessFiles (files : list File) (results : list (list ColorResult))
    : Async (list (list ColorResult)) := fun h =>
  match files with
  | [] => (Fulfilled results, h)
  | file :: files' =>
      match extractColorsFromFile file
              {| colorCount := Some 3%nat; maxSize := Some 100%nat;
                 maxIterations := None |} h with
      | (Fulfilled result, h') => batchProcessFiles files' (results ++ [colors result]) h'
      | (Rejected _, h') => batchProcessFiles files' (results ++ [[]]) h'
      end
  end.

Definition exampleBatchProcessFiles (files : list File)
    : Async (list (list ColorResult)) :=
  batchProcessFiles files [].

End Loaders.

(** * Specification vocabulary *)

(** [c] is the index the Assignment step has to choose for [pixel] among the
    first [k] centers: a center at minimal squared distance, and the first
    such one. *)
Definition isNearest (centers : list rgb) (k : nat) (pixel : rgb) (c : nat) : Prop :=
  (c < k)%nat /\
  exists center, centers !! c = Some center /\
    forall j cj, (j < k)%nat -> centers !! j = Some cj ->
      colorDistanceSq pixel center <= colorDistanceSq pixel cj /\
      ((j < c)%nat -> colorDistanceSq pixel center < colorDistanceSq pixel cj).

(** The state of the inner loop once the indices below [a] are done. *)
Definition bestBelow (centers : list rgb) (pixel : rgb) (a : nat)
    (minDistSq : option Z) (closest : nat) : Prop :=
  match minDistSq with
  | None => a = 0%nat
  | Some m =>
      (closest < a)%nat /\
      exists center, centers !! closest = Some center /\
        m = colorDistanceSq pixel center /\
        forall j cj, (j < a)%nat -> centers !! j = Some cj ->
          m <= colorDistanceSq pixel cj /\
          ((j < closest)%nat -> m < colorDistanceSq pixel cj)
  end.

(** The number of pixels an assignment sends to cluster [j]. *)
Definition clusterCount (assignments : list nat) (j : nat) : nat :=
  length (filter (fun a => a = j) assignments).

(** The pixels an assignment sends to cluster [j], in pixel order. *)
Fixpoint members (pixels : list rgb) (assignments : list nat) (j : nat) : list rgb :=
  match pixels, assignments with
  | pixel :: pixels', a :: assignments' =>
      if decide (a = j) then pixel :: members pixels' assignments' j
      else members pixels' assignments' j
  | _, _ => []
  end.

Definition channelTotal (ch : rgb -> Z) (l : list rgb) : Z :=
  foldr (fun p acc => ch p + acc) 0 l.

(** [m] is [total / n] rounded to the nearest integer, a tie going up:
    m - 1/2 <= total / n < m + 1/2, cleared of fractions. *)
Definition roundsTo (total : Z) (n : nat) (m : Z) : Prop :=
  2 * Z.of_nat n * m <= 2 * total + Z.of_nat n < 2 * Z.of_nat n * (m + 1).

(** [c] is the per-channel rounded mean of the pixels [l]. *)
Definition isRoundedMean (l : list rgb) (c : rgb) : Prop :=
  roundsTo (channelTotal ch0 l) (length l) (ch0 c) /\
  roundsTo (channelTotal ch1 l) (length l) (ch1 c) /\
  roundsTo (channelTotal ch2 l) (length l) (ch2 c).

(** Every old/new center pair is within the convergence threshold. *)
Definition withinThreshold (centers newCenters : list rgb) : Prop :=
  Forall2 (fun c c' => colorDistanceSq c c' <= CONVERGE_THRESHOLD_SQ)
          centers newCenters.

(** The state [j] Assignment/Update pairs after [st], whatever the
    convergence test says in between. *)
Fixpoint stateAfter (pixels : list rgb) (k : nat) (j : nat) (st : loopState)
    : result loopState :=
  match j with
  | O => Ok st
  | S j' =>
      '(st', _) ← iteration pixels k st;
      stateAfter pixels k j' st'
  end.

(** The Update of pass [j] (passes counted from 1, starting at [st]) left
    every center within the threshold of the center it replaces. *)
Definition convergedAt (pixels : list rgb) (k : nat) (st : loopState) (j : nat) : Prop :=
  exists before after,
    stateAfter pixels k (j - 1) st = Ok before /\
    stateAfter pixels k j st = Ok after /\
    withinThreshold (centers_of before) (centers_of after).

(** The weights of the pixels 0..i added up. *)
Fixpoint weightUpTo (distances : list Q) (i : nat) : Q :=
  match distances with
  | [] => 0%Q
  | d :: ds =>
      match i with
      | O => d
      | S i' => (d + weightUpTo ds i')%Q
      end
  end.

(** The draw [r] falls to pixel [i]: [i] is the first index at which the
    weights added up reach [r], so that [r] lies in an interval whose width
    is the weight of pixel [i]. *)
Definition selects (distances : list Q) (r : Q) (i : nat) : Prop :=
  (i < length distances)%nat /\
  (r <= weightUpTo distances i)%Q /\
  forall j, (j < i)%nat -> (weightUpTo distances j < r)%Q.

(** [d] is the squared distance from [pixel] to the nearest of [centers]. *)
Definition isMinDistance (centers : list rgb) (pixel : rgb) (d : Z) : Prop :=
  (exists c, c ∈ centers /\ d = colorDistanceSq pixel c) /\
  forall c, c ∈ centers -> d <= colorDistanceSq pixel c.

(** The draw [u] of [Math.random()] picks [center] uniformly: it is the
    pixel at the index [i] with i / n <= u < (i + 1) / n, every index owning
    an interval of the same width 1 / n. *)
Definition drawsUniformly (pixels : list rgb) (u : Q) (center : rgb) : Prop :=
  exists i : nat,
    pixels !! i = Some center /\
    (inject_Z (Z.of_nat i) <= u * inject_Z (Z.of_nat (length pixels))
     < inject_Z (Z.of_nat i + 1))%Q.

(** The rule for a center after the first, given the centers [chosen] so far
    and the draw [u]: every pixel weighs its squared distance to the nearest
    chosen center; when the weights add up to 0 the pick is uniform,
    otherwise the value [u * totalWeight] of [0, totalWeight) selects the
    first pixel at which the weights added up reach it. *)
Definition seedRule (pixels chosen : list rgb) (u : Q) (center : rgb) : Prop :=
  exists weights : list Z,
    Forall2 (isMinDistance chosen) pixels weights /\
    let distances := map inject_Z weights in
    let totalWeight := fold_left Qplus distances 0%Q in
    ((totalWeight == 0)%Q -> drawsUniformly pixels u center) /\
    (~ (totalWeight == 0)%Q ->
       (0 <= u * totalWeight < totalWeight)%Q /\
       exists i, pixels !! i = Some center /\
                 selects distances (u * totalWeight) i).

(** [a] may stand before [b] in a list that descends by percentage. *)
Definition notBelow (a b : ranked) : Prop :=
  exists pa pb, percentage a = Some pa /\ percentage b = Some pb /\ (pb <= pa)%Q.

(** The items of [l] whose percentage is [q], in the order they have in [l]. *)
Definition tiesOf (q : Q) (l : list ranked) : list ranked :=
  List.filter (fun it => match percentage it with
                         | Some p => Qeq_bool p q
                         | None => false
                         end) l.

(** The items before sorting: center [i] with the percentage of cluster [i]. *)
Definition unsorted (centers : list rgb) (clusterSizes : list nat) (pixelCount : nat)
    : list ranked :=
  imap (fun i color => Ranked color (percentageOf clusterSizes pixelCount i)) centers.

(** The digits [x.toString(16)] writes, in order of value. *)
Definition hexDigits : string := "0123456789abcdef".

Fixpoint positionIn (c : ascii) (s : string) : option Z :=
  match s with
  | EmptyString => None
  | String c' s' =>
      if Ascii.eqb c c' then Some 0 else Z.succ <$> positionIn c s'
  end.

(** The value of a lowercase hexadecimal digit. *)
Definition hexDigitValue (c : ascii) : option Z := positionIn c hexDigits.

(** The value of a decimal digit. *)
Definition decimalDigitValue (c : ascii) : option Z :=
  match hexDigitValue c with
  | Some v => if v <? 10 then Some v else None
  | None => None
  end.

(** [s] is [x] written as exactly two lowercase hexadecimal digits. *)
Definition isByteHex (s : string) (x : Z) : Prop :=
  exists hi lo vh vl,
    s = String hi (String lo EmptyString) /\
    hexDigitValue hi = Some vh /\ hexDigitValue lo = Some vl /\
    x = 16 * vh + vl.

Definition isByteHexb (s : string) (x : Z) : bool :=
  match s with
  | String hi (String lo EmptyString) =>
      match hexDigitValue hi, hexDigitValue lo with
      | Some vh, Some vl => x =? 16 * vh + vl
      | _, _ => false
      end
  | _ => false
  end.

(** [text] is [q] to one decimal place: the decimal numeral of an integer
    part, a point and one digit, which together are [n / 10] for an
    integer [n] nearest to [10 * q]. *)
Definition oneDecimalPlace (text : string) (q : Q) : Prop :=
  exists (n : Z) (digit : ascii),
    (inject_Z n - (1 # 2) <= q * 10 <= inject_Z n + (1 # 2))%Q /\
    text = (JS.toString10 (n / 10) +:+ "." +:+ String digit EmptyString)%string /\
    decimalDigitValue digit = Some (n mod 10).

(** The RGBA bytes of an image all of whose texels have alpha 0. *)
Definition transparentData (texels : list rgb) : list Z :=
  concat (map (fun c => [ch0 c; ch1 c; ch2 c; 0]) texels).

(** The four-pixel scenario: two black and two white pixels. *)
Definition black : rgb := RGB 0 0 0.
Definition white : rgb := RGB 255 255 255.
Definition scenarioPixels : list rgb := [black; black; white; white].

(** What a ColorResult shows of a cluster: its channels and its share. *)
Definition shown (cr : ColorResult) : Z * Z * Z * string :=
  (r cr, g cr, b cr, percentage_text cr).

(** A random source for examples: every draw is 1/2. *)
Definition halves : nat -> Q := fun _ => (1 # 2)%Q.

(** A pixel list with exactly 3 distinct values among its 4 pixels. *)
Definition threeValues : list rgb :=
  [RGB 10 20 30; RGB 10 20 30; RGB 200 100 0; RGB 0 0 255].

(** ** Vocabulary of the further properties *)

(** The RGBA bytes of a list of texels, each a colour and an alpha byte. *)
Definition encodeTexels (texels : list (rgb * Z)) : list Z :=
  concat (map (fun t => [ch0 (fst t); ch1 (fst t); ch2 (fst t); snd t]) texels).

(** The colours of the texels whose alpha is above 0, in order. *)
Definition opaqueTexels (texels : list (rgb * Z)) : list rgb :=
  map fst (List.filter (fun t => 0 <? snd t) texels).

(** The squared distances from every pixel to the center it is assigned to,
    added up; an index without a center counts 0. *)
Definition assignmentCost (centers pixels : list rgb) (assignments : list nat) : Z :=
  foldr Z.add 0
    (zip_with (fun p a => from_option (colorDistanceSq p) 0 (centers !! a))
              pixels assignments).

(** Every channel of [c] lies between the same channel of [lo] and of [hi]. *)
Definition withinBox (lo hi c : rgb) : Prop :=
  ch0 lo <= ch0 c <= ch0 hi /\ ch1 lo <= ch1 c <= ch1 hi /\
  ch2 lo <= ch2 c <= ch2 hi.

(** A grey: the three channels are equal. *)
Definition isGrey (c : rgb) : Prop := ch0 c = ch1 c /\ ch1 c = ch2 c.

(** The percentages of the items added up, a [NaN] counting 0. *)
Definition percentageSum (items : list ranked) : Q :=
  foldr (fun it acc => (default 0 (percentage it) + acc)%Q) 0%Q items.

(** The byte two hexadecimal digits stand for. *)
Definition hexByte (hi lo : ascii) : option Z :=
  vh ← hexDigitValue hi; vl ← hexDigitValue lo; Some (16 * vh + vl).

(** Reading a string "#rrggbb" back: the inverse rgbToHex is checked against. *)
Definition hexToRgb (s : string) : option rgb :=
  match s with
  | String "#" (String a1 (String a2 (String b1 (String b2
      (String c1 (String c2 EmptyString)))))) =>
      r ← hexByte a1 a2; g ← hexByte b1 b2; b ← hexByte c1 c2; Some (RGB r g b)
  | _ => None
  end.

(** The object URLs that are alive after the events [h], given those that
    were alive before: a revocation takes the URL out once. *)
Fixpoint withoutFirst (url : string) (live : list string) : list string :=
  match live with
  | [] => []
  | u :: live' => if String.eqb url u then live' else u :: withoutFirst url live'
  end.

Fixpoint liveObjectURLs (live : list string) (h : list event) : list string :=
  match h with
  | [] => live
  | ObjectURLCreated url :: h' => liveObjectURLs (url :: live) h'
  | ObjectURLRevoked url :: h' => liveObjectURLs (withoutFirst url live) h'
  | _ :: h' => liveObjectURLs live h'
  end.

(** The clock never goes back. *)
Definition monotoneClock {image : Type} (browser : Browser image) : Prop :=
  forall h h', (performance_now browser h <= performance_now browser (h ++ h'))%Q.

(** A browser in which the addresses "blob:1" and
    "https://example.com/a.png" load as image 1 and nothing else loads, every download is a PNG, the analysis of an image fails
    with a DOMException, and the clock shows the number of events so far. *)
Definition sampleBrowser : Browser nat :=
  {| imageAt := fun _ src =>
       if (String.eqb src "blob:1" || String.eqb src "https://example.com/a.png")%bool
       then Some 1%nat else None;
     extractColorsOf := fun _ _ _ => Rejected (ErrorObject "IndexSizeError");
     performance_now := fun h => inject_Z (Z.of_nat (length h));
     createObjectURL := fun _ => "blob:1"%string;
     fetch := fun _ _ => Fulfilled {| response_ok := true; response_status := 200;
                                      response_blob := Fulfilled (MkBlob "image/png") |};
     isURL := fun url => String.prefix "http" url |}.

(** The same browser with an analysis that succeeds with no colours. *)
Definition calmBrowser : Browser nat :=
  {| imageAt := imageAt sampleBrowser;
     extractColorsOf := fun _ _ _ => Fulfilled [];
     performance_now := performance_now sampleBrowser;
     createObjectURL := createObjectURL sampleBrowser;
     fetch := fetch sampleBrowser;
     isURL := isURL sampleBrowser |}.

(** A browser in which no image loads and every download is answered with
    status 404. *)
Definition notFoundBrowser : Browser nat :=
  {| imageAt := fun _ _ => None;
     extractColorsOf := extractColorsOf sampleBrowser;
     performance_now := performance_now sampleBrowser;
     createObjectURL := createObjectURL sampleBrowser;
     fetch := fun _ _ => Fulfilled {| response_ok := false; response_status := 404;
                                      response_blob := Rejected (OtherValue "") |};
     isURL := isURL sampleBrowser |}.

(** ** One rounding of a product *)

(** The code multiplies a draw by a count or by a total weight in doubles:
    what it goes on with is the exact product after one rounding to the
    nearest double.  Such a rounding moves a non-negative number by at most
    the fraction 2^-53 of it, or by 2^-1075 below the normal range. *)
Definition unitRoundoff : Q := 1 # 2 ^ 53.
Definition leastStep : Q := 1 # 2 ^ 1075.

(** [r] may be what one rounding makes of the non-negative product [p];
    [p] itself is such a value. *)
Definition roundedFrom (p r : Q) : Prop :=
  (p - (p * unitRoundoff + leastStep) <= r <= p + (p * unitRoundoff + leastStep))%Q.

(** The draw [u] picks [center] uniformly: with [x] the product of [u] and
    the number of pixels as the code has it, [center] is the pixel at the
    index [i] with i <= x < i + 1, so that every index owns an interval of
    draws of width 1 / n, up to the rounding of the product at its ends. *)
Definition picksUniformly (pixels : list rgb) (u : Q) (center : rgb) : Prop :=
  exists (x : Q) (i : nat),
    roundedFrom (u * inject_Z (Z.of_nat (length pixels))) x /\
    pixels !! i = Some center /\
    (inject_Z (Z.of_nat i) <= x < inject_Z (Z.of_nat i + 1))%Q.


(** * Properties *)

(** ** Running the two monads *)

Lemma Rand_bind_Ok {A B : Type} (m : Rand A) (f : A -> Rand B) (n n' : nat) (a : A) :
  m n = Ok (a, n') -> (m ≫= f) n = f a n'.
Proof. intros H. unfold mbind, Rand_bind. rewrite H. reflexivity. Qed.

Lemma lift_Ok {A : Type} (m : result A) (a : A) (n : nat) :
  m = Ok a -> lift m n = Ok (a, n).
Proof. intros ->. reflexivity. Qed.

(** Run the first computation of a bind in [Rand], given its result [H]. *)
Ltac rand_step H := rewrite (Rand_bind_Ok _ _ _ _ _ H).

(** ** Assignment step *)

Lemma nearestFrom_seq (pixel : rgb) (centers : list rgb) (n : nat) :
  forall (a : nat) (minDistSq : option Z) (closest : nat),
    (a + n <= length centers)%nat ->
    bestBelow centers pixel a minDistSq closest ->
    exists c m,
      nearestFrom pixel centers (seq a n) minDistSq closest = Ok c /\
      (n = 0%nat -> m = minDistSq /\ c = closest) /\
      bestBelow centers pixel (a + n) m c.
Proof.
  induction n as [|n IH]; intros a minDistSq closest Hlen Hbest; simpl.
  - exists closest, minDistSq. rewrite Nat.add_0_r. auto.
  - destruct (lookup_lt_is_Some_2 centers a) as [ca Hca]; [lia|].
    rewrite Hca.
    set (d := colorDistanceSq pixel ca).
    assert (Hstep : exists m' c',
      (if match minDistSq with None => true | Some m => d <? m end
       then nearestFrom pixel centers (seq (S a) n) (Some d) a
       else nearestFrom pixel centers (seq (S a) n) minDistSq closest)
      = nearestFrom pixel centers (seq (S a) n) m' c' /\
      bestBelow centers pixel (S a) m' c').
    { destruct minDistSq as [m|].
      - destruct Hbest as (Hc & center & Hcenter & -> & Hmin).
        destruct (Z.ltb_spec d (colorDistanceSq pixel center)) as [Hlt|Hge].
        + exists (Some d), a. split; [reflexivity|]. split; [lia|].
          exists ca. repeat split; auto.
          * destruct (decide (j = a)) as [->|Hne].
            -- rewrite Hca in H0. injection H0 as <-. fold d. lia.
            -- destruct (Hmin j cj ltac:(lia) H0). lia.
          * intros Hja. destruct (Hmin j cj ltac:(lia) H0). lia.
        + exists (Some (colorDistanceSq pixel center)), closest.
          split; [reflexivity|]. split; [lia|].
          exists center. repeat split; auto.
          * destruct (decide (j = a)) as [->|Hne].
            -- rewrite Hca in H0. injection H0 as <-. fold d. lia.
            -- destruct (Hmin j cj ltac:(lia) H0). lia.
          * intros Hjc. destruct (Hmin j cj ltac:(lia) H0). auto.
      - simpl in Hbest. subst a.
        exists (Some d), 0%nat. split; [reflexivity|]. split; [lia|].
        exists ca. repeat split; auto.
        + assert (j = 0%nat) as -> by lia.
          rewrite Hca in H0. injection H0 as <-. fold d. lia.
        + lia. }
    destruct Hstep as (m' & c' & -> & Hbest').
    destruct (IH (S a) m' c' ltac:(lia) Hbest') as (c & m & Hrun & _ & Hfin).
    exists c, m. split; [exact Hrun|]. split; [discriminate|].
    replace (a + S n)%nat with (S a + n)%nat by lia. exact Hfin.
Qed.

Lemma nearest_spec (pixel : rgb) (centers : list rgb) (k : nat) :
  (1 <= k <= length centers)%nat ->
  exists c, nearest pixel centers k = Ok c /\ isNearest centers k pixel c.
Proof.
  intros Hk. unfold nearest.
  destruct (nearestFrom_seq pixel centers k 0 None 0) as (c & m & Hrun & _ & Hbest);
    [lia | reflexivity |].
  exists c. split; [exact Hrun|].
  simpl in Hbest. destruct m as [m|]; simpl in Hbest; [|lia].
  destruct Hbest as (Hc & center & Hcenter & -> & Hmin).
  split; [exact Hc|]. exists center. split; [exact Hcenter|]. exact Hmin.
Qed.

Lemma clusterCount_app (xs ys : list nat) (j : nat) :
  clusterCount (xs ++ ys) j = (clusterCount xs j + clusterCount ys j)%nat.
Proof. unfold clusterCount. rewrite filter_app, length_app. reflexivity. Qed.

Lemma sum_list_increment (sizes : list nat) (i n : nat) :
  sizes !! i = Some n -> sum_list (<[i := S n]> sizes) = S (sum_list sizes).
Proof.
  revert i. induction sizes as [|x sizes IH]; intros [|i] H; simpl in *; try discriminate.
  - injection H as ->. reflexivity.
  - rewrite (IH i H). lia.
Qed.

Lemma assignLoop_spec (centers : list rgb) (k : nat) (pixels : list rgb) :
  (1 <= k <= length centers)%nat ->
  forall assignments clusterSizes,
    length clusterSizes = k ->
    exists new sizes,
      assignLoop pixels centers k assignments clusterSizes
        = Ok (assignments ++ new, sizes) /\
      Forall2 (isNearest centers k) pixels new /\
      length sizes = k /\
      (forall j, (j < k)%nat ->
         sizes !! j = (fun n => n + clusterCount new j)%nat <$> clusterSizes !! j) /\
      sum_list sizes = (sum_list clusterSizes + length pixels)%nat.
Proof.
  intros Hk. induction pixels as [|pixel pixels IH]; intros assignments clusterSizes Hlen.
  - exists [], clusterSizes. simpl. rewrite app_nil_r.
    split; [reflexivity|]. split; [constructor|]. split; [exact Hlen|]. split.
    + intros j Hj. destruct (clusterSizes !! j); simpl; [|reflexivity].
      f_equal. unfold clusterCount. simpl. lia.
    + lia.
  - simpl. destruct (nearest_spec pixel centers k Hk) as (c & Hc & Hnear).
    rewrite Hc. simpl.
    assert (Hck : (c < k)%nat) by (destruct Hnear; assumption).
    destruct (lookup_lt_is_Some_2 clusterSizes c) as [n Hn]; [lia|].
    unfold increment. rewrite Hn. simpl.
    destruct (IH (assignments ++ [c]) (<[c := S n]> clusterSizes)) as
      (new & sizes & Hrun & Hall & Hlen' & Hcount & Hsum).
    { rewrite length_insert. exact Hlen. }
    exists (c :: new), sizes. rewrite Hrun, <- app_assoc. simpl.
    repeat split; auto.
    + intros j Hj. rewrite (Hcount j Hj).
      change (c :: new) with ([c] ++ new). rewrite clusterCount_app.
      destruct (decide (c = j)) as [->|Hne].
      * rewrite list_lookup_insert_eq by lia. rewrite Hn. simpl. f_equal.
        unfold clusterCount at 2.
        rewrite filter_cons_True by reflexivity. simpl. lia.
      * rewrite list_lookup_insert_ne by exact Hne.
        destruct (clusterSizes !! j); simpl; [|reflexivity]. f_equal.
        unfold clusterCount at 2.
        rewrite filter_cons_False by exact Hne. simpl. lia.
    + rewrite Hsum, (sum_list_increment _ _ _ Hn). simpl. lia.
Qed.

Lemma assignPixelsToCenters_spec (pixels centers : list rgb) :
  centers <> [] ->
  exists assignments clusterSizes,
    assignPixelsToCenters pixels centers (length centers)
      = Ok (assignments, clusterSizes) /\
    Forall2 (isNearest centers (length centers)) pixels assignments /\
    length clusterSizes = length centers /\
    (forall j, (j < length centers)%nat ->
       clusterSizes !! j = Some (clusterCount assignments j)) /\
    sum_list clusterSizes = length pixels.
Proof.
  intros Hne.
  assert (Hk : (1 <= length centers <= length centers)%nat).
  { destruct centers; [congruence | simpl; lia]. }
  destruct (assignLoop_spec centers (length centers) pixels Hk []
              (replicate (length centers) 0%nat)) as
    (new & sizes & Hrun & Hall & Hlen & Hcount & Hsum).
  { apply length_replicate. }
  exists new, sizes. unfold assignPixelsToCenters. rewrite Hrun. simpl.
  repeat split; auto.
  - intros j Hj. rewrite (Hcount j Hj).
    rewrite lookup_replicate_2 by exact Hj. reflexivity.
  - rewrite Hsum, sum_list_replicate. lia.
Qed.

(** C3. For every pixel list and every non-empty center list (k is its
    length), the Assignment step succeeds; it gives every pixel the index of
    a center at minimal squared Euclidean distance, the lowest such index on
    a tie; every cluster's size is the number of pixels assigned to it, so
    each pixel is counted in exactly one cluster, and the sizes add up to the
    number of pixels. *)
Theorem assignPixelsToCenters_nearest_and_counted (pixels centers : list rgb) :
  centers <> [] ->
  exists assignments clusterSizes,
    assignPixelsToCenters pixels centers (length centers)
      = Ok (assignments, clusterSizes) /\
    Forall2 (isNearest centers (length centers)) pixels assignments /\
    length clusterSizes = length centers /\
    (forall j, (j < length centers)%nat ->
       clusterSizes !! j = Some (clusterCount assignments j)) /\
    sum_list clusterSizes = length pixels.
Proof. exact (assignPixelsToCenters_spec pixels centers). Qed.

Lemma assignPixelsToCenters_nearest_and_counted_witness :
  exists assignments clusterSizes,
    assignPixelsToCenters [RGB 0 0 0; RGB 9 9 9; RGB 5 5 5]
      [RGB 0 0 0; RGB 10 10 10; RGB 0 0 0] 3 = Ok (assignments, clusterSizes) /\
    assignments = [0; 1; 0]%nat /\ clusterSizes = [2; 1; 0]%nat.
Proof.
  destruct (assignPixelsToCenters_nearest_and_counted
              [RGB 0 0 0; RGB 9 9 9; RGB 5 5 5]
              [RGB 0 0 0; RGB 10 10 10; RGB 0 0 0]) as (a & s & H & _);
    [discriminate|].
  exists a, s. split; [exact H|].
  vm_compute in H. injection H as <- <-. split; reflexivity.
Defined.

(** ** Update step *)

Lemma roundedQuotient_Z (sum : Z) (n : nat) :
  roundedQuotient sum (S n) = (2 * sum + Z.of_nat (S n)) / (2 * Z.of_nat (S n)).
Proof.
  unfold roundedQuotient, JS.Math_round.
  rewrite Nat2Z.inj_succ, <- Zpos_P_of_succ_nat.
  unfold Qdiv, Qinv, Qmult, Qplus, Qfloor, inject_Z. simpl Qnum. simpl Qden.
  f_equal; lia.
Qed.

Lemma roundedQuotient_roundsTo (sum : Z) (n : nat) :
  roundsTo sum (S n) (roundedQuotient sum (S n)).
Proof.
  rewrite roundedQuotient_Z. unfold roundsTo.
  set (d := Z.of_nat (S n)). assert (Hd : 0 < 2 * d) by (subst d; lia).
  pose proof (Z.mul_div_le (2 * sum + d) (2 * d) Hd).
  pose proof (Z.mul_succ_div_gt (2 * sum + d) (2 * d) Hd).
  unfold Z.succ in *. lia.
Qed.

Lemma roundsTo_channel_ok (total : Z) (n : nat) (m : Z) :
  (0 < n)%nat -> 0 <= total <= 255 * Z.of_nat n -> roundsTo total n m ->
  channel_ok m.
Proof. unfold roundsTo, channel_ok. intros Hn Ht [H1 H2]. nia. Qed.

Lemma members_length (pixels : list rgb) (assignments : list nat) (j : nat) :
  length assignments = length pixels ->
  length (members pixels assignments j) = clusterCount assignments j.
Proof.
  revert assignments.
  induction pixels as [|p pixels IH]; intros [|a assignments] Hlen;
    simpl in *; try discriminate; try reflexivity.
  unfold clusterCount in *. destruct (decide (a = j)) as [Ha|Ha].
  - rewrite filter_cons_True by exact Ha. simpl. f_equal. apply IH. lia.
  - rewrite filter_cons_False by exact Ha. apply IH. lia.
Qed.

Lemma members_subset (pixels : list rgb) (assignments : list nat) (j : nat) (P : rgb -> Prop) :
  Forall P pixels -> Forall P (members pixels assignments j).
Proof.
  intros H. revert assignments.
  induction H as [|p pixels Hp _ IH]; intros [|a assignments]; simpl; try constructor.
  destruct (decide (a = j)); [constructor; auto | auto].
Qed.

Lemma channelTotal_bounds (l : list rgb) :
  Forall rgb_ok l ->
  0 <= channelTotal ch0 l <= 255 * Z.of_nat (length l) /\
  0 <= channelTotal ch1 l <= 255 * Z.of_nat (length l) /\
  0 <= channelTotal ch2 l <= 255 * Z.of_nat (length l).
Proof.
  induction 1 as [|p l (H0 & H1 & H2) _ IH]; simpl length; simpl channelTotal.
  - lia.
  - unfold channel_ok in *. lia.
Qed.

Lemma isRoundedMean_ok (l : list rgb) (c : rgb) :
  l <> [] -> Forall rgb_ok l -> isRoundedMean l c -> rgb_ok c.
Proof.
  intros Hne Hall (H0 & H1 & H2).
  assert (Hlen : (0 < length l)%nat) by (destruct l; [congruence | simpl; lia]).
  destruct (channelTotal_bounds l Hall) as (B0 & B1 & B2).
  split; [|split].
  - exact (roundsTo_channel_ok _ _ _ Hlen B0 H0).
  - exact (roundsTo_channel_ok _ _ _ Hlen B1 H1).
  - exact (roundsTo_channel_ok _ _ _ Hlen B2 H2).
Qed.

Lemma accumulate_spec (pixels : list rgb) :
  forall (assignments : list nat) (sums : list (Z * Z * Z)),
    length assignments = length pixels ->
    Forall (fun a => (a < length sums)%nat) assignments ->
    exists sums',
      accumulate pixels assignments sums = Ok sums' /\
      length sums' = length sums /\
      forall j s0 s1 s2, sums !! j = Some (s0, s1, s2) ->
        sums' !! j = Some (s0 + channelTotal ch0 (members pixels assignments j),
                           s1 + channelTotal ch1 (members pixels assignments j),
                           s2 + channelTotal ch2 (members pixels assignments j)).
Proof.
  induction pixels as [|p pixels IH]; intros [|a assignments] sums Hlen Hall;
    simpl in Hlen; try discriminate.
  - exists sums. simpl. split; [reflexivity|]. split; [reflexivity|].
    intros j s0 s1 s2 ->. do 2 f_equal; [f_equal|..]; lia.
  - inversion Hall as [|? ? Ha Hall']; subst.
    destruct (lookup_lt_is_Some_2 sums a Ha) as [[[t0 t1] t2] Ht].
    simpl. rewrite Ht.
    destruct (IH assignments
                (<[a := (t0 + ch0 p, t1 + ch1 p, t2 + ch2 p)]> sums)) as
      (sums' & Hrun & Hlen' & Hsum).
    { lia. }
    { rewrite length_insert. exact Hall'. }
    exists sums'. split; [exact Hrun|]. split.
    { rewrite Hlen', length_insert. reflexivity. }
    intros j s0 s1 s2 Hj. destruct (decide (a = j)) as [->|Hne].
    + rewrite Ht in Hj. injection Hj as -> -> ->.
      rewrite (Hsum j (s0 + ch0 p) (s1 + ch1 p) (s2 + ch2 p)).
      * simpl. do 2 f_equal; [f_equal|..]; lia.
      * apply list_lookup_insert_eq. exact Ha.
    + rewrite (Hsum j s0 s1 s2).
      * reflexivity.
      * rewrite list_lookup_insert_ne by exact Hne. exact Hj.
Qed.

Lemma mapCenters_spec (clusterSizes : list nat) (oldCenters : list rgb) (sums : list (Z * Z * Z)) :
  forall i, (i + length sums <= length oldCenters)%nat ->
    exists cs, mapCenters clusterSizes oldCenters i sums = Ok cs /\
      length cs = length sums /\
      forall j sum, sums !! j = Some sum ->
        exists c, newCenter clusterSizes oldCenters (i + j) sum = Ok c /\
                  cs !! j = Some c.
Proof.
  induction sums as [|sum sums IH]; intros i Hlen; simpl in *.
  - exists []. repeat split; auto. intros j sum Hj. rewrite lookup_nil in Hj. discriminate.
  - assert (Hc : exists c, newCenter clusterSizes oldCenters i sum = Ok c).
    { unfold newCenter. destruct sum as [[s0 s1] s2].
      destruct (lookup_lt_is_Some_2 oldCenters i) as [c Hc]; [lia|]. rewrite Hc.
      destruct (clusterSizes !! i) as [[|n]|]; eauto. }
    destruct Hc as [c Hc]. rewrite Hc. simpl.
    destruct (IH (S i) ltac:(lia)) as (cs & Hrun & Hlen' & Hnth).
    rewrite Hrun. simpl. exists (c :: cs). split; [reflexivity|].
    split; [simpl; lia|].
    intros [|j] sum' Hj; simpl in Hj.
    + injection Hj as <-. exists c. rewrite Nat.add_0_r. auto.
    + destruct (Hnth j sum' Hj) as (c' & Hc' & Hl). exists c'.
      replace (i + S j)%nat with (S i + j)%nat by lia. auto.
Qed.

Lemma updateCenters_spec (pixels : list rgb) (assignments clusterSizes : list nat)
    (oldCenters : list rgb) (k : nat) :
  length assignments = length pixels ->
  Forall (fun a => (a < k)%nat) assignments ->
  length oldCenters = k ->
  exists newCenters,
    updateCenters pixels assignments clusterSizes oldCenters k = Ok newCenters /\
    length newCenters = k /\
    forall i, (i < k)%nat ->
      newCenter clusterSizes oldCenters i
        (channelTotal ch0 (members pixels assignments i),
         channelTotal ch1 (members pixels assignments i),
         channelTotal ch2 (members pixels assignments i))
      = from_option Ok (Throw TypeError) (newCenters !! i).
Proof.
  intros Hlen Hall Hold. unfold updateCenters.
  destruct (accumulate_spec pixels assignments (replicate k (0, 0, 0))) as
    (sums & Hacc & Hlen' & Hsum).
  { exact Hlen. }
  { rewrite length_replicate. exact Hall. }
  rewrite Hacc. simpl. rewrite length_replicate in Hlen'.
  destruct (mapCenters_spec clusterSizes oldCenters sums 0) as (cs & Hmap & Hlen'' & Hnth).
  { simpl. lia. }
  exists cs. split; [exact Hmap|]. split; [lia|].
  intros i Hi.
  pose proof (Hsum i 0 0 0 (lookup_replicate_2 _ _ _ Hi)) as Hi'.
  simpl in Hi'. destruct (Hnth i _ Hi') as (c & Hc & Hl).
  simpl in Hc. rewrite Hl. simpl. exact Hc.
Qed.

Lemma updateCenters_cases (pixels : list rgb)
    (assignments clusterSizes : list nat) (oldCenters : list rgb) (k : nat) :
  length assignments = length pixels ->
  Forall (fun a => (a < k)%nat) assignments ->
  length clusterSizes = k ->
  length oldCenters = k ->
  exists newCenters,
    updateCenters pixels assignments clusterSizes oldCenters k = Ok newCenters /\
    length newCenters = k /\
    forall i size, clusterSizes !! i = Some size ->
      (size = 0%nat -> newCenters !! i = oldCenters !! i) /\
      ((0 < size)%nat ->
         exists c, newCenters !! i = Some c /\
           roundsTo (channelTotal ch0 (members pixels assignments i)) size (ch0 c) /\
           roundsTo (channelTotal ch1 (members pixels assignments i)) size (ch1 c) /\
           roundsTo (channelTotal ch2 (members pixels assignments i)) size (ch2 c) /\
           (size = clusterCount assignments i ->
              isRoundedMean (members pixels assignments i) c)).
Proof.
  intros Hlen Hall Hsizes Hold.
  destruct (updateCenters_spec pixels assignments clusterSizes oldCenters k
              Hlen Hall Hold) as (newCenters & Hrun & Hlen' & Hnth).
  exists newCenters. split; [exact Hrun|]. split; [exact Hlen'|].
  intros i size Hsize.
  assert (Hi : (i < k)%nat) by (rewrite <- Hsizes; eapply lookup_lt_Some; eauto).
  specialize (Hnth i Hi). unfold newCenter in Hnth. rewrite Hsize in Hnth.
  destruct (lookup_lt_is_Some_2 newCenters i) as [c Hc]; [lia|].
  destruct (lookup_lt_is_Some_2 oldCenters i) as [o Ho]; [lia|].
  rewrite Hc in Hnth. rewrite Hc. simpl in Hnth. split.
  - intros ->. rewrite Ho in Hnth. congruence.
  - intros Hpos. destruct size as [|n]; [lia|].
    exists c. split; [reflexivity|].
    injection Hnth as <-. simpl.
    pose proof (roundedQuotient_roundsTo (channelTotal ch0 (members pixels assignments i)) n) as R0.
    pose proof (roundedQuotient_roundsTo (channelTotal ch1 (members pixels assignments i)) n) as R1.
    pose proof (roundedQuotient_roundsTo (channelTotal ch2 (members pixels assignments i)) n) as R2.
    repeat (split; [assumption|]).
    intros Hcount. unfold isRoundedMean. simpl.
    rewrite (members_length pixels assignments i Hlen), <- Hcount. auto.
Qed.

(** C4. For every pixel list, assignment mapping (one cluster index below k
    per pixel), cluster sizes and previous centers of cardinality k, the
    Update step succeeds and returns exactly k centers; a cluster of size 0
    keeps its previous center unchanged; a cluster of size > 0 receives, per
    channel, the sum of its assigned pixels divided by its size and rounded
    to the nearest integer, which is the rounded mean of its assigned pixels
    when the size is the number of pixels assigned to it. *)
Theorem updateCenters_mean_or_carried (pixels : list rgb)
    (assignments clusterSizes : list nat) (oldCenters : list rgb) (k : nat) :
  length assignments = length pixels ->
  Forall (fun a => (a < k)%nat) assignments ->
  length clusterSizes = k ->
  length oldCenters = k ->
  exists newCenters,
    updateCenters pixels assignments clusterSizes oldCenters k = Ok newCenters /\
    length newCenters = k /\
    forall i size, clusterSizes !! i = Some size ->
      (size = 0%nat -> newCenters !! i = oldCenters !! i) /\
      ((0 < size)%nat ->
         exists c, newCenters !! i = Some c /\
           roundsTo (channelTotal ch0 (members pixels assignments i)) size (ch0 c) /\
           roundsTo (channelTotal ch1 (members pixels assignments i)) size (ch1 c) /\
           roundsTo (channelTotal ch2 (members pixels assignments i)) size (ch2 c) /\
           (size = clusterCount assignments i ->
              isRoundedMean (members pixels assignments i) c)).
Proof. exact (updateCenters_cases pixels assignments clusterSizes oldCenters k). Qed.

Lemma updateCenters_mean_or_carried_witness :
  exists newCenters,
    updateCenters [RGB 0 0 0; RGB 9 9 9; RGB 6 5 4] [0; 1; 1]%nat [1; 2; 0]%nat
      [RGB 1 1 1; RGB 2 2 2; RGB 3 3 3] 3 = Ok newCenters /\
    newCenters = [RGB 0 0 0; RGB 8 7 7; RGB 3 3 3].
Proof.
  destruct (updateCenters_mean_or_carried
              [RGB 0 0 0; RGB 9 9 9; RGB 6 5 4] [0; 1; 1]%nat [1; 2; 0]%nat
              [RGB 1 1 1; RGB 2 2 2; RGB 3 3 3] 3) as (cs & H & _).
  - reflexivity.
  - repeat constructor.
  - reflexivity.
  - reflexivity.
  - exists cs. split; [exact H|].
    vm_compute in H. injection H as <-. reflexivity.
Defined.

(** ** Convergence loop *)

Lemma everyClose_spec (centers : list rgb) :
  forall newCenters, length newCenters = length centers ->
    exists b, everyClose centers newCenters = Ok b /\
              (b = true <-> withinThreshold centers newCenters).
Proof.
  unfold withinThreshold.
  induction centers as [|c centers IH]; intros [|c' newCenters] Hlen;
    simpl in Hlen; try discriminate.
  - exists true. split; [reflexivity|]. split; [constructor | reflexivity].
  - simpl. destruct (Z.leb_spec (colorDistanceSq c c') CONVERGE_THRESHOLD_SQ) as [Hle|Hgt].
    + destruct (IH newCenters ltac:(lia)) as (b & Hrun & Hb).
      exists b. split; [exact Hrun|]. rewrite Hb. split.
      * intros H. constructor; assumption.
      * intros H. inversion H; subst. assumption.
    + exists false. split; [reflexivity|]. split; [discriminate|].
      intros H. inversion H; subst. lia.
Qed.

Lemma Forall2_isNearest_bound (centers : list rgb) (k : nat) (pixels : list rgb)
    (assignments : list nat) :
  Forall2 (isNearest centers k) pixels assignments ->
  length assignments = length pixels /\ Forall (fun a => (a < k)%nat) assignments.
Proof.
  induction 1 as [|p a pixels assignments [Ha _] _ [IH1 IH2]]; simpl.
  - split; [reflexivity | constructor].
  - split; [lia | constructor; assumption].
Qed.

(** What one pass of the loop body does to a state with [k] centers. *)
Lemma iteration_spec (pixels : list rgb) (k : nat) (st : loopState) :
  (1 <= k)%nat -> length (centers_of st) = k ->
  exists newCenters clusterSizes b,
    iteration pixels k st
      = Ok (LoopState newCenters clusterSizes (S (iterations st)), b) /\
    (b = true <-> withinThreshold (centers_of st) newCenters) /\
    length newCenters = k /\
    length clusterSizes = k /\
    sum_list clusterSizes = length pixels /\
    (Forall rgb_ok pixels -> Forall rgb_ok (centers_of st) ->
     Forall rgb_ok newCenters).
Proof.
  intros Hk Hlen. unfold iteration.
  assert (Hne : centers_of st <> []) by (destruct (centers_of st); simpl in *; [lia | congruence]).
  destruct (assignPixelsToCenters_spec pixels (centers_of st) Hne) as
    (assignments & sizes & Hassign & Hnear & Hsizes & Hcount & Hsum).
  rewrite Hlen in *. rewrite Hassign. simpl.
  destruct (Forall2_isNearest_bound _ _ _ _ Hnear) as [Hlen_a Hbound].
  destruct (updateCenters_cases pixels assignments sizes (centers_of st) k
              Hlen_a Hbound Hsizes Hlen) as (newCenters & Hupd & Hlen' & Hcases).
  rewrite Hupd. simpl.
  destruct (everyClose_spec (centers_of st) newCenters ltac:(lia)) as (b & Hev & Hb).
  rewrite Hev. simpl.
  exists newCenters, sizes, b. split; [reflexivity|].
  repeat (split; [assumption|]).
  intros Hpix Hold. apply Forall_lookup_2. intros i c Hc.
  assert (Hi : (i < k)%nat) by (rewrite <- Hlen'; eapply lookup_lt_Some; eauto).
  destruct (Hcases i _ (Hcount i Hi)) as [Hzero Hpos].
  destruct (clusterCount assignments i) as [|n] eqn:Hn.
  - rewrite (Hzero eq_refl) in Hc. eapply Forall_lookup_1; eauto.
  - destruct (Hpos ltac:(lia)) as (c' & Hc' & _ & _ & _ & Hmean).
    rewrite Hc in Hc'. injection Hc' as <-.
    apply (isRoundedMean_ok (members pixels assignments i)).
    + intros Hnil. pose proof (members_length pixels assignments i Hlen_a) as Hl.
      rewrite Hnil, Hn in Hl. discriminate.
    + apply members_subset. exact Hpix.
    + apply Hmean. reflexivity.
Qed.

Lemma convergedAt_shift (pixels : list rgb) (k : nat) (st st' : loopState) (b : bool) (j : nat) :
  iteration pixels k st = Ok (st', b) -> (1 <= j)%nat ->
  (convergedAt pixels k st (S j) <-> convergedAt pixels k st' j).
Proof.
  intros Hit Hj. unfold convergedAt.
  replace (S j - 1)%nat with (S (j - 1)) by lia. simpl. rewrite Hit. simpl.
  reflexivity.
Qed.

(** The loop from a state with [k] centers: it ends after [n] passes
    without an error, with the state those [n] passes produce; [n] is the
    first pass that converged, or [remaining] when none of them did. *)
Lemma kMeansLoop_spec (pixels : list rgb) (k : nat) (remaining : nat) :
  (1 <= k)%nat ->
  forall st, length (centers_of st) = k ->
    exists st' n,
      kMeansLoop pixels k remaining st = Ok st' /\
      iterations st' = (iterations st + n)%nat /\
      (n <= remaining)%nat /\
      ((1 <= remaining)%nat -> (1 <= n)%nat) /\
      stateAfter pixels k n st = Ok st' /\
      (forall j, (1 <= j < n)%nat -> ~ convergedAt pixels k st j) /\
      ((n < remaining)%nat -> convergedAt pixels k st n) /\
      ((n = remaining)%nat \/ convergedAt pixels k st n) /\
      length (centers_of st') = k /\
      ((1 <= remaining)%nat ->
       length (clusterSizes_of st') = k /\
       sum_list (clusterSizes_of st') = length pixels) /\
      (Forall rgb_ok pixels -> Forall rgb_ok (centers_of st) ->
       Forall rgb_ok (centers_of st')).
Proof.
  intros Hk. induction remaining as [|remaining IH]; intros st Hlen.
  - exists st, 0%nat. simpl. rewrite Nat.add_0_r.
    repeat split; auto; try lia.
  - destruct (iteration_spec pixels k st Hk Hlen) as
      (newCenters & sizes & b & Hit & Hb & Hlen' & Hsizes & Hsum & Hok).
    simpl. rewrite Hit. simpl.
    assert (Hone : b = true -> convergedAt pixels k st 1).
    { intros Hbt. exists st, (LoopState newCenters sizes (S (iterations st))).
      simpl. rewrite Hit. simpl. repeat split; auto. apply Hb. exact Hbt. }
    assert (Hnone : b = false -> ~ convergedAt pixels k st 1).
    { intros Hbf (before & after & H0 & H1 & Hw). simpl in H0, H1.
      rewrite Hit in H1. simpl in H1. injection H0 as <-. injection H1 as <-.
      simpl in Hw. apply Hb in Hw. congruence. }
    destruct b.
    + exists (LoopState newCenters sizes (S (iterations st))), 1%nat. simpl.
      rewrite Hit. simpl.
      repeat split; auto; try lia.
    + destruct (IH (LoopState newCenters sizes (S (iterations st))) Hlen') as
        (st' & n & Hrun & Hiter & Hn & Hn1 & Hafter & Hbefore & Hconv & Hstop
           & Hlen'' & Hsz & Hok').
      exists st', (S n). simpl. rewrite Hit. simpl. simpl in Hiter.
      split; [exact Hrun|]. split; [lia|]. split; [lia|]. split; [lia|].
      split; [exact Hafter|]. split.
      { intros j Hj. destruct (decide (j = 1%nat)) as [->|Hne]; [auto|].
        destruct j as [|j]; [lia|].
        rewrite (convergedAt_shift _ _ _ _ _ _ Hit) by lia.
        apply Hbefore. lia. }
      split.
      { intros Hlt. destruct n as [|n]; [lia|].
        rewrite (convergedAt_shift _ _ _ _ _ _ Hit) by lia.
        apply Hconv. lia. }
      split.
      { destruct Hstop as [->|Hc]; [left; reflexivity|].
        destruct n as [|n].
        - left. destruct remaining; [reflexivity|]. specialize (Hn1 ltac:(lia)). lia.
        - right. rewrite (convergedAt_shift _ _ _ _ _ _ Hit) by lia. exact Hc. }
      split; [exact Hlen''|]. split.
      { intros _. destruct remaining as [|remaining].
        - simpl in Hrun. injection Hrun as <-. simpl. auto.
        - apply Hsz. lia. }
      intros Hpix Hold. apply Hok'; auto.
Qed.

(** ** Random draws: floors and weighted picks *)

Lemma floor_index (u : Q) (n : nat) :
  (0 <= u < 1)%Q -> (0 < n)%nat ->
  0 <= Qfloor (u * inject_Z (Z.of_nat n)) < Z.of_nat n.
Proof.
  intros [Hu0 Hu1] Hn.
  set (x := (u * inject_Z (Z.of_nat n))%Q).
  assert (Hn' : (0 < inject_Z (Z.of_nat n))%Q) by (unfold Qlt; simpl; lia).
  assert (Hx0 : (0 <= x)%Q) by (subst x; nra).
  assert (Hx1 : (x < inject_Z (Z.of_nat n))%Q) by (subst x; nra).
  pose proof (Qfloor_le x) as Hfl. pose proof (Qlt_floor x) as Hfu.
  split.
  - assert (H : (inject_Z 0 < inject_Z (Qfloor x + 1))%Q)
      by (change (inject_Z 0) with 0%Q; lra).
    rewrite <- Zlt_Qlt in H. lia.
  - rewrite Zlt_Qlt. lra.
Qed.

Lemma weightUpTo_step (distances : list Q) (i : nat) (d : Q) :
  distances !! S i = Some d ->
  (weightUpTo distances (S i) == weightUpTo distances i + d)%Q.
Proof.
  revert i. induction distances as [|d0 ds IH]; intros i H; [discriminate|].
  simpl in H. destruct ds as [|d1 ds']; [discriminate|].
  destruct i as [|i].
  - simpl in H. injection H as ->. simpl. destruct ds'; lra.
  - change (weightUpTo (d0 :: d1 :: ds') (S (S i)))
      with (d0 + weightUpTo (d1 :: ds') (S i))%Q.
    change (weightUpTo (d0 :: d1 :: ds') (S i))
      with (d0 + weightUpTo (d1 :: ds') i)%Q.
    rewrite (IH i H). lra.
Qed.

Lemma total_weightUpTo (distances : list Q) (a : Q) :
  (fold_left Qplus distances a
   == a + weightUpTo distances (length distances - 1))%Q.
Proof.
  revert a. induction distances as [|d ds IH]; intros a; simpl.
  - lra.
  - rewrite IH. rewrite Nat.sub_0_r. destruct ds as [|d' ds']; simpl.
    + lra.
    + rewrite Nat.sub_0_r. lra.
Qed.

Lemma pickLoop_NaN (pixels : list rgb) :
  forall distances, pickLoop pixels distances None = None.
Proof.
  induction pixels as [|p pixels IH]; intros distances; simpl; [reflexivity | apply IH].
Qed.

Lemma pickLoop_selects (pixels : list rgb) :
  forall distances r p,
    pickLoop pixels distances (Some r) = Some p ->
    exists i, pixels !! i = Some p /\ selects distances r i.
Proof.
  induction pixels as [|p0 pixels IH]; intros distances r p H; simpl in H;
    [discriminate|].
  destruct distances as [|d ds].
  - simpl in H. rewrite pickLoop_NaN in H. discriminate.
  - destruct (Qle_bool (r - d) 0) eqn:Hle.
    + injection H as <-. apply Qle_bool_iff in Hle.
      exists 0%nat. split; [reflexivity|]. split; [simpl; lia|].
      split; [simpl; lra | intros j Hj; lia].
    + assert (Hgt : (0 < r - d)%Q).
      { apply Qnot_le_lt. intros Hc. apply Qle_bool_iff in Hc. congruence. }
      simpl in H. destruct (IH ds (r - d)%Q p H) as (i & Hi & Hlen & Hup & Hlow).
      exists (S i). split; [exact Hi|]. split; [simpl; lia|]. split.
      * simpl. lra.
      * intros [|j] Hj; simpl; [lra|]. specialize (Hlow j ltac:(lia)). lra.
Qed.

Lemma pickLoop_returns (pixels : list rgb) :
  forall distances r i,
    (i < length pixels)%nat -> (i < length distances)%nat ->
    (r <= weightUpTo distances i)%Q ->
    exists p, pickLoop pixels distances (Some r) = Some p.
Proof.
  induction pixels as [|p0 pixels IH]; intros distances r i Hp Hd Hr;
    simpl in Hp; [lia|].
  destruct distances as [|d ds]; simpl in Hd; [lia|].
  simpl. destruct (Qle_bool (r - d) 0) eqn:Hle; [eauto|].
  assert (Hgt : (0 < r - d)%Q).
  { apply Qnot_le_lt. intros Hc. apply Qle_bool_iff in Hc. congruence. }
  destruct i as [|i]; simpl in Hr; [lra|].
  apply (IH ds (r - d)%Q i); [lia | lia | lra].
Qed.

(** The draws that select pixel [i] form an interval as wide as its weight
    [d]: [0, d] for the first pixel, and for a later one the values above
    the weights added up before it, up to that sum plus [d]. *)
Lemma selects_interval (distances : list Q) (r : Q) (i : nat) :
  selects distances r i ->
  exists d, distances !! i = Some d /\
    (r <= weightUpTo distances i)%Q /\
    match i with
    | O => (weightUpTo distances 0 == d)%Q
    | S j => (weightUpTo distances j < r)%Q /\
             (weightUpTo distances (S j) == weightUpTo distances j + d)%Q
    end.
Proof.
  intros (Hlen & Hup & Hlow).
  destruct (lookup_lt_is_Some_2 distances i Hlen) as [d Hd].
  exists d. split; [exact Hd|]. split; [exact Hup|].
  destruct i as [|j].
  - destruct distances as [|d0 ds]; [discriminate|].
    simpl in Hd. injection Hd as ->. simpl. reflexivity.
  - split; [apply Hlow; lia | apply weightUpTo_step; exact Hd].
Qed.

Lemma fold_left_min_spec (xs : list Z) :
  forall a, let m := fold_left Z.min xs a in
    (m = a \/ m ∈ xs) /\ m <= a /\ forall y, y ∈ xs -> m <= y.
Proof.
  induction xs as [|x xs IH]; intros a; simpl.
  - split; [left; reflexivity|]. split; [lia|]. intros y Hy. inversion Hy.
  - destruct (IH (Z.min a x)) as (Hin & Hle & Hall).
    split; [|split].
    + destruct Hin as [Heq|Hin].
      * rewrite Heq. destruct (Z.min_spec a x) as [[_ ->]|[_ ->]].
        -- left. reflexivity.
        -- right. left.
      * right. right. exact Hin.
    + lia.
    + intros y Hy. inversion Hy; subst; [lia | auto].
Qed.

Lemma mapM_result_Forall2 {A B : Type} (f : A -> result B) (R : A -> B -> Prop)
    (l : list A) :
  (forall x, exists y, f x = Ok y /\ R x y) ->
  exists ys, mapM f l = Ok ys /\ Forall2 R l ys.
Proof.
  intros Hf. induction l as [|x l (ys & Hrun & Hall)].
  - exists []. split; [reflexivity | constructor].
  - destruct (Hf x) as (y & Hy & Hxy).
    change (mapM f (x :: l)) with (f x ≫= fun y => mapM f l ≫= fun k => mret (y :: k)).
    rewrite Hy. simpl. rewrite Hrun. simpl.
    exists (y :: ys). split; [reflexivity | constructor; assumption].
Qed.

Lemma minDistancesToCenters_spec (pixels centers : list rgb) :
  centers <> [] ->
  exists weights,
    minDistancesToCenters pixels centers = Ok weights /\
    Forall2 (isMinDistance centers) pixels weights.
Proof.
  intros Hne. unfold minDistancesToCenters.
  apply mapM_result_Forall2. intros p.
  destruct centers as [|c0 cs]; [congruence|]. simpl JS.Math_min.
  set (m := fold_left Z.min (map (fun center => colorDistanceSq p center) cs)
              (colorDistanceSq p c0)).
  exists m. split; [reflexivity|].
  destruct (fold_left_min_spec (map (fun center => colorDistanceSq p center) cs)
              (colorDistanceSq p c0)) as (Hin & Hle & Hmin).
  fold m in Hin, Hle, Hmin. split.
  - destruct Hin as [Heq|Hin].
    + exists c0. split; [left | exact Heq].
    + apply list_elem_of_fmap in Hin. destruct Hin as (c & -> & Hc).
      exists c. split; [right; exact Hc | reflexivity].
  - intros c Hc. inversion Hc; subst; [exact Hle|].
    apply Hmin. apply list_elem_of_fmap. eauto.
Qed.

Lemma colorDistanceSq_nonneg (c1 c2 : rgb) : 0 <= colorDistanceSq c1 c2.
Proof.
  unfold colorDistanceSq. cbv zeta.
  pose proof (Z.square_nonneg (ch0 c1 - ch0 c2)).
  pose proof (Z.square_nonneg (ch1 c1 - ch1 c2)).
  pose proof (Z.square_nonneg (ch2 c1 - ch2 c2)).
  lia.
Qed.

Lemma fold_left_Qplus_nonneg (distances : list Q) :
  Forall (fun d => (0 <= d)%Q) distances ->
  forall a, (a <= fold_left Qplus distances a)%Q.
Proof.
  induction 1 as [|d ds Hd _ IH]; intros a; simpl; [lra|].
  specialize (IH (a + d)%Q). lra.
Qed.

Lemma isMinDistance_weights_nonneg (chosen pixels : list rgb) (weights : list Z) :
  Forall2 (isMinDistance chosen) pixels weights ->
  Forall (fun d => (0 <= d)%Q) (map inject_Z weights).
Proof.
  induction 1 as [|p w pixels weights [(c & _ & ->) _] _ IH]; simpl; constructor; auto.
  change 0%Q with (inject_Z 0). rewrite <- Zle_Qle. apply colorDistanceSq_nonneg.
Qed.

Section RandomizedProperties.

Variable random : nat -> Q.
Hypothesis random_range : forall n, (0 <= random n < 1)%Q.

Lemma uniformPick_spec (pixels : list rgb) (n : nat) :
  pixels <> [] ->
  exists p, uniformPick random pixels n = Ok (p, S n) /\
            drawsUniformly pixels (random n) p.
Proof.
  intros Hne. unfold uniformPick, Math_random.
  assert (Hlen : (0 < length pixels)%nat) by (destruct pixels; [congruence | simpl; lia]).
  pose proof (floor_index (random n) (length pixels) (random_range n) Hlen) as Hidx.
  set (x := (random n * inject_Z (Z.of_nat (length pixels)))%Q) in *.
  destruct (lookup_lt_is_Some_2 pixels (Z.to_nat (Qfloor x))) as [p Hp]; [lia|].
  exists p. split.
  - rewrite (Rand_bind_Ok _ _ n (S n) (random n)) by reflexivity.
    apply lift_Ok. unfold JS.Math_floor, at_index. fold x.
    destruct (Z.ltb_spec (Qfloor x) 0) as [|_]; [lia|]. rewrite Hp. reflexivity.
  - exists (Z.to_nat (Qfloor x)). split; [exact Hp|]. fold x.
    rewrite Z2Nat.id by lia. split; [apply Qfloor_le | apply Qlt_floor].
Qed.

Lemma drawsUniformly_elem (pixels : list rgb) (u : Q) (p : rgb) :
  drawsUniformly pixels u p -> p ∈ pixels.
Proof. intros (i & Hi & _). eapply list_elem_of_lookup_2; eauto. Qed.

(** weightedRandomPick on a non-empty pixel list: one draw, no error, a
    pixel of the list; a uniform pick when the weights add up to 0. *)
Lemma weightedRandomPick_spec (pixels : list rgb) (distances : list Q) (n : nat) :
  pixels <> [] ->
  exists p, weightedRandomPick random pixels distances n = Ok (p, S n) /\
    p ∈ pixels /\
    ((fold_left Qplus distances 0 == 0)%Q -> drawsUniformly pixels (random n) p) /\
    (forall q, pickLoop pixels distances
                 (Some (random n * fold_left Qplus distances 0)%Q) = Some q ->
               ~ (fold_left Qplus distances 0 == 0)%Q -> p = q).
Proof.
  intros Hne. unfold weightedRandomPick.
  destruct (Qeq_bool (fold_left Qplus distances 0%Q) 0) eqn:Hz.
  - apply Qeq_bool_iff in Hz.
    destruct (uniformPick_spec pixels n Hne) as (p & Hrun & Hu).
    exists p. split; [exact Hrun|]. split; [eapply drawsUniformly_elem; eauto|].
    split; [auto | intros q _ Hnz; contradiction].
  - assert (Hnz : ~ (fold_left Qplus distances 0 == 0)%Q).
    { intros Hc. apply Qeq_bool_iff in Hc. congruence. }
    rewrite (Rand_bind_Ok _ _ n (S n) (random n)) by reflexivity.
    destruct (pickLoop pixels distances
                (Some (random n * fold_left Qplus distances 0)%Q)) as [q|] eqn:Hpick.
    + exists q. split; [reflexivity|]. split.
      * destruct (pickLoop_selects _ _ _ _ Hpick) as (i & Hi & _).
        eapply list_elem_of_lookup_2; eauto.
      * split; [intros Hc; contradiction | intros q' [= <-] _; reflexivity].
    + destruct (last pixels) as [q|] eqn:Hlast.
      * exists q. split; [reflexivity|]. split.
        -- apply last_Some_elem_of. exact Hlast.
        -- split; [intros Hc; contradiction | intros q' Hq'; discriminate].
      * apply last_None in Hlast. contradiction.
Qed.

Lemma pickLoop_in_range (pixels : list rgb) (distances : list Q) (r : Q) :
  pixels <> [] -> length distances = length pixels ->
  (r <= fold_left Qplus distances 0)%Q ->
  exists p i, pickLoop pixels distances (Some r) = Some p /\
              pixels !! i = Some p /\ selects distances r i.
Proof.
  intros Hne Hlen Hr.
  assert (Hpos : (0 < length pixels)%nat) by (destruct pixels; [congruence | simpl; lia]).
  destruct (pickLoop_returns pixels distances r (length distances - 1)) as [p Hp].
  - lia.
  - lia.
  - rewrite (total_weightUpTo distances 0) in Hr. lra.
  - destruct (pickLoop_selects _ _ _ _ Hp) as (i & Hi & Hsel). eauto.
Qed.

Lemma seedRule_pick (pixels chosen : list rgb) (weights : list Z) (n : nat) :
  pixels <> [] ->
  Forall2 (isMinDistance chosen) pixels weights ->
  exists p, weightedRandomPick random pixels (map inject_Z weights) n = Ok (p, S n) /\
            p ∈ pixels /\ seedRule pixels chosen (random n) p.
Proof.
  intros Hne Hw.
  destruct (weightedRandomPick_spec pixels (map inject_Z weights) n Hne) as
    (p & Hrun & Hin & Hzero & Hloop).
  exists p. split; [exact Hrun|]. split; [exact Hin|].
  exists weights. split; [exact Hw|]. cbv zeta. split; [exact Hzero|].
  intros Hnz.
  pose proof (fold_left_Qplus_nonneg _ (isMinDistance_weights_nonneg _ _ _ Hw) 0%Q) as Hge.
  pose proof (random_range n) as [Hu0 Hu1].
  set (total := fold_left Qplus (map inject_Z weights) 0%Q) in *.
  assert (Hpos : (0 < total)%Q).
  { destruct (Qlt_le_dec 0 total) as [|Hle]; [assumption|].
    exfalso. apply Hnz. lra. }
  split; [nra|].
  destruct (pickLoop_in_range pixels (map inject_Z weights) (random n * total)%Q)
    as (q & i & Hq & Hi & Hsel).
  - exact Hne.
  - rewrite length_map. symmetry. eapply Forall2_length; eauto.
  - fold total. nra.
  - rewrite (Hloop q Hq Hnz). eauto.
Qed.

Lemma initLoop_spec (pixels : list rgb) (passes : nat) :
  pixels <> [] ->
  forall centers n, centers <> [] ->
    exists new,
      initLoop random pixels passes centers n
        = Ok (centers ++ new, (n + passes)%nat) /\
      length new = passes /\
      Forall (fun c => c ∈ pixels) new /\
      forall j center, new !! j = Some center ->
        seedRule pixels (centers ++ take j new) (random (n + j)) center.
Proof.
  intros Hne. induction passes as [|passes IH]; intros centers n Hc.
  - exists []. simpl. rewrite app_nil_r, Nat.add_0_r.
    split; [reflexivity|]. split; [reflexivity|]. split; [constructor|].
    intros j center Hj. rewrite lookup_nil in Hj. discriminate.
  - destruct (minDistancesToCenters_spec pixels centers Hc) as (weights & Hmin & Hw).
    destruct (seedRule_pick pixels centers weights n Hne Hw) as (p & Hpick & Hin & Hrule).
    destruct (IH (centers ++ [p]) (S n)) as (new & Hrun & Hlen & Hall & Hnth).
    { destruct centers; discriminate. }
    exists (p :: new). split.
    + cbn [initLoop].
      rewrite (Rand_bind_Ok _ _ n n weights) by (apply lift_Ok; exact Hmin).
      rand_step Hpick.
      rewrite Hrun, <- app_assoc. simpl. do 2 f_equal. lia.
    + split; [simpl; lia|]. split; [constructor; assumption|].
      intros [|j] center Hj; simpl in Hj.
      * injection Hj as <-. simpl. rewrite app_nil_r, Nat.add_0_r. exact Hrule.
      * specialize (Hnth j center Hj). rewrite <- app_assoc in Hnth. simpl in Hnth.
        replace (n + S j)%nat with (S n + j)%nat by lia. exact Hnth.
Qed.

(** The Seed Initializer on a non-empty pixel list, for k >= 1. *)
Lemma kMeansPlusPlusInit_spec (pixels : list rgb) (k n : nat) :
  pixels <> [] -> (1 <= k)%nat ->
  exists centers,
    kMeansPlusPlusInit random pixels k n = Ok (centers, (n + k)%nat) /\
    length centers = k /\
    Forall (fun c => c ∈ pixels) centers /\
    (exists first, centers !! 0%nat = Some first /\
                   drawsUniformly pixels (random n) first) /\
    (forall c, (1 <= c < k)%nat ->
       exists center, centers !! c = Some center /\
         seedRule pixels (take c centers) (random (n + c)) center).
Proof.
  intros Hne Hk. unfold kMeansPlusPlusInit.
  destruct (uniformPick_spec pixels n Hne) as (first & Hfirst & Hu).
  destruct (initLoop_spec pixels (k - 1) Hne [first] (S n)) as
    (new & Hrun & Hlen & Hall & Hnth); [discriminate|].
  exists (first :: new).
  rand_step Hfirst.
  split; [rewrite Hrun; simpl; do 2 f_equal; lia|].
  split; [simpl; lia|]. split.
  { constructor; [eapply drawsUniformly_elem; eauto | exact Hall]. }
  split; [exists first; split; [reflexivity | exact Hu]|].
  intros c Hc. destruct c as [|c]; [lia|]. simpl.
  destruct (lookup_lt_is_Some_2 new c) as [center Hcenter]; [lia|].
  exists center. split; [exact Hcenter|].
  specialize (Hnth c center Hcenter). simpl in Hnth.
  replace (n + S c)%nat with (S (n + c)) by lia. exact Hnth.
Qed.




(** The rounding matters next to the end of an interval.  With the double
    nearest to 0.7 as the draw and 10 pixels, the exact product lies just
    below 7 and stands for index 6, while its double is 7 and stands for
    index 7: [picksUniformly] holds of the pixel at either index. *)
Lemma picksUniformly_at_interval_end (pixels : list rgb) (p6 p7 : rgb) :
  length pixels = 10%nat -> pixels !! 6%nat = Some p6 -> pixels !! 7%nat = Some p7 ->
  let u := (6305039478318694 # 2 ^ 53)%Q in
  JS.Math_floor (u * 10) = 6 /\
  picksUniformly pixels u p6 /\ picksUniformly pixels u p7.
Proof.
  intros Hlen H6 H7 u. split; [reflexivity|]. split.
  - exists (u * 10)%Q, 6%nat. rewrite Hlen. split; [|split; [exact H6|]].
    + unfold roundedFrom, unitRoundoff, leastStep, Qle. vm_compute. split; discriminate.
    + unfold Qle, Qlt. vm_compute. split; [discriminate | reflexivity].
  - exists 7%Q, 7%nat. rewrite Hlen. split; [|split; [exact H7|]].
    + unfold roundedFrom, unitRoundoff, leastStep, Qle. vm_compute. split; discriminate.
    + unfold Qle, Qlt. vm_compute. split; [discriminate | reflexivity].
Qed.


(** C10. For every non-empty pixel list and every list of weights (so for
    every list of non-negative ones), weightedRandomPick makes one draw,
    raises no error and returns one of the pixels.  With one weight per
    pixel, in exact arithmetic, every value r <= totalWeight makes the
    subtraction loop return a pixel, so the code after the loop is not
    reached; and when totalWeight > 0 the value drawn, u * totalWeight, is
    strictly less than totalWeight. *)
Theorem weightedRandomPick_total_no_fallback (pixels : list rgb)
    (distances : list Q) (n : nat) :
  pixels <> [] ->
  (exists p, weightedRandomPick random pixels distances n = Ok (p, S n) /\
             p ∈ pixels) /\
  (length distances = length pixels ->
   let totalWeight := fold_left Qplus distances 0%Q in
   (forall r, (r <= totalWeight)%Q ->
      exists p, pickLoop pixels distances (Some r) = Some p /\ p ∈ pixels) /\
   ((0 < totalWeight)%Q ->
      (random n * totalWeight < totalWeight)%Q /\
      exists p, pickLoop pixels distances (Some (random n * totalWeight)%Q) = Some p /\
                weightedRandomPick random pixels distances n = Ok (p, S n))).
Proof.
  intros Hne. split.
  - destruct (weightedRandomPick_spec pixels distances n Hne) as (p & Hrun & Hin & _).
    eauto.
  - intros Hlen totalWeight.
    assert (Hloop : forall r, (r <= totalWeight)%Q ->
              exists p, pickLoop pixels distances (Some r) = Some p /\ p ∈ pixels).
    { intros r Hr.
      destruct (pickLoop_in_range pixels distances r Hne Hlen Hr) as (p & i & Hp & Hi & _).
      exists p. split; [exact Hp | eapply list_elem_of_lookup_2; eauto]. }
    split; [exact Hloop|].
    intros Hpos. pose proof (random_range n) as [Hu0 Hu1].
    split; [nra|].
    destruct (Hloop (random n * totalWeight)%Q ltac:(nra)) as (p & Hp & _).
    exists p. split; [exact Hp|].
    destruct (weightedRandomPick_spec pixels distances n Hne) as (q & Hrun & _ & _ & Hq).
    rewrite Hrun. rewrite (Hq p Hp); [reflexivity|].
    fold totalWeight. intros Hz. lra.
Qed.

End RandomizedProperties.

(** ** Ranking *)

Lemma insertRanked_Permutation (x : ranked) (l : list ranked) :
  insertRanked x l ≡ₚ x :: l.
Proof.
  induction l as [|y l IH]; simpl; [reflexivity|].
  destruct (sortsAfter x y); [|reflexivity].
  rewrite IH. apply Permutation_swap.
Qed.

Lemma Array_sort_Permutation (l : list ranked) : Array_sort l ≡ₚ l.
Proof.
  induction l as [|x l IH]; simpl; [reflexivity|].
  rewrite insertRanked_Permutation, IH. reflexivity.
Qed.

Lemma sortsAfter_true (x y : ranked) :
  sortsAfter x y = true ->
  exists px py, percentage x = Some px /\ percentage y = Some py /\ (px < py)%Q.
Proof.
  unfold sortsAfter, comparefn.
  destruct (percentage x) as [px|], (percentage y) as [py|]; try discriminate.
  intros H. exists px, py. split; [reflexivity|]. split; [reflexivity|].
  apply negb_true_iff in H.
  destruct (Qlt_le_dec px py) as [|Hle]; [assumption|].
  assert (Hc : Qle_bool (py - px) 0 = true) by (apply Qle_bool_iff; lra).
  congruence.
Qed.

Lemma sortsAfter_false (x y : ranked) (px py : Q) :
  percentage x = Some px -> percentage y = Some py ->
  sortsAfter x y = false -> (py <= px)%Q.
Proof.
  unfold sortsAfter, comparefn. intros -> -> H.
  apply negb_false_iff, Qle_bool_iff in H. lra.
Qed.

Lemma insertRanked_sorted (x : ranked) (l : list ranked) :
  is_Some (percentage x) -> Forall (fun it => is_Some (percentage it)) l ->
  StronglySorted notBelow l -> StronglySorted notBelow (insertRanked x l).
Proof.
  intros [px Hx] Hnum Hsorted.
  induction Hsorted as [|y l Hl IH Hy]; simpl.
  - repeat constructor.
  - inversion Hnum as [|? ? [py Hpy] Hnum']; subst.
    destruct (sortsAfter x y) eqn:Hcmp.
    + constructor; [apply IH; exact Hnum'|].
      rewrite insertRanked_Permutation. constructor; [|exact Hy].
      destruct (sortsAfter_true x y Hcmp) as (px' & py' & Hx' & Hy' & Hlt).
      exists py', px'. repeat split; auto. lra.
    + pose proof (sortsAfter_false x y px py Hx Hpy Hcmp) as Hle.
      constructor; [constructor; assumption|].
      constructor; [exists px, py; auto|].
      eapply Forall_impl; [exact Hy|].
      intros z (py' & pz & Hy' & Hz & Hle'). rewrite Hpy in Hy'. injection Hy' as <-.
      exists px, pz. repeat split; auto. lra.
Qed.

Lemma Array_sort_sorted (l : list ranked) :
  Forall (fun it => is_Some (percentage it)) l ->
  StronglySorted notBelow (Array_sort l).
Proof.
  induction 1 as [|x l Hx Hl IH]; simpl; [constructor|].
  apply insertRanked_sorted; [exact Hx | | exact IH].
  rewrite Array_sort_Permutation. exact Hl.
Qed.

Lemma insertRanked_ties (q : Q) (x : ranked) (l : list ranked) :
  tiesOf q (insertRanked x l) = tiesOf q (x :: l).
Proof.
  induction l as [|y l IH]; [reflexivity|].
  simpl insertRanked. destruct (sortsAfter x y) eqn:Hcmp; [|reflexivity].
  destruct (sortsAfter_true x y Hcmp) as (px & py & Hx & Hy & Hlt).
  unfold tiesOf in *. simpl in *. rewrite IH, Hx, Hy.
  destruct (Qeq_bool px q) eqn:Hxq, (Qeq_bool py q) eqn:Hyq; try reflexivity.
  apply Qeq_bool_iff in Hxq, Hyq. lra.
Qed.

Lemma Array_sort_stable (q : Q) (l : list ranked) :
  tiesOf q (Array_sort l) = tiesOf q l.
Proof.
  induction l as [|x l IH]; [reflexivity|].
  simpl Array_sort. rewrite insertRanked_ties.
  unfold tiesOf in *. simpl. rewrite IH. reflexivity.
Qed.

Lemma unsorted_lookup (centers : list rgb) (clusterSizes : list nat) (pixelCount i : nat) :
  unsorted centers clusterSizes pixelCount !! i
  = (fun c => Ranked c (percentageOf clusterSizes pixelCount i)) <$> centers !! i.
Proof. unfold unsorted. apply list_lookup_imap. Qed.

Lemma unsorted_numeric (centers : list rgb) (clusterSizes : list nat) (pixelCount : nat) :
  (length centers <= length clusterSizes)%nat ->
  Forall (fun it => is_Some (percentage it)) (unsorted centers clusterSizes pixelCount).
Proof.
  intros Hlen. apply Forall_lookup_2. intros i it Hit.
  rewrite unsorted_lookup in Hit.
  destruct (centers !! i) as [c|] eqn:Hc; [|discriminate].
  injection Hit as <-. simpl. unfold percentageOf.
  apply lookup_lt_Some in Hc.
  destruct (lookup_lt_is_Some_2 clusterSizes i) as [sz ->]; [lia|]. eauto.
Qed.

Lemma rank_colors (centers : list rgb) (clusterSizes : list nat) (pixelCount : nat) :
  map color (rank centers clusterSizes pixelCount) ≡ₚ centers.
Proof.
  unfold rank. rewrite Array_sort_Permutation.
  replace (map color (imap _ centers)) with centers; [reflexivity|].
  apply list_eq. intros i. rewrite list_lookup_fmap, list_lookup_imap.
  destruct (centers !! i); reflexivity.
Qed.

Lemma rank_length (centers : list rgb) (clusterSizes : list nat) (pixelCount : nat) :
  length (rank centers clusterSizes pixelCount) = length centers.
Proof.
  rewrite <- (length_map color). apply Permutation_length, rank_colors.
Qed.

(** ** Formatting *)

Lemma isByteHexb_spec (s : string) (x : Z) : isByteHexb s x = true -> isByteHex s x.
Proof.
  unfold isByteHexb, isByteHex.
  destruct s as [|hi [|lo [|? ?]]]; try discriminate.
  destruct (hexDigitValue hi) as [vh|] eqn:Hh; [|discriminate].
  destruct (hexDigitValue lo) as [vl|] eqn:Hl; [|discriminate].
  intros H. apply Z.eqb_eq in H. exists hi, lo, vh, vl. auto.
Qed.

Lemma byte_hex_all :
  forallb (fun i => let x := Z.of_nat i in
                    isByteHexb (JS.padStart 2 "0" (JS.toString16 x)) x)
          (seq 0 256) = true.
Proof. vm_compute. reflexivity. Qed.

Lemma byte_hex (x : Z) :
  channel_ok x -> isByteHex (JS.padStart 2 "0" (JS.toString16 x)) x.
Proof.
  intros [H0 H255]. apply isByteHexb_spec.
  pose proof byte_hex_all as Hall. rewrite forallb_forall in Hall.
  specialize (Hall (Z.to_nat x)). cbv zeta in Hall.
  rewrite Z2Nat.id in Hall by lia. apply Hall.
  apply in_seq. lia.
Qed.

Lemma rgbToHex_spec (c : rgb) :
  rgb_ok c ->
  exists hr hg hb,
    rgbToHex (ch0 c) (ch1 c) (ch2 c) = ("#" +:+ hr +:+ hg +:+ hb)%string /\
    isByteHex hr (ch0 c) /\ isByteHex hg (ch1 c) /\ isByteHex hb (ch2 c).
Proof.
  intros (H0 & H1 & H2).
  exists (JS.padStart 2 "0" (JS.toString16 (ch0 c))),
         (JS.padStart 2 "0" (JS.toString16 (ch1 c))),
         (JS.padStart 2 "0" (JS.toString16 (ch2 c))).
  split; [reflexivity|]. auto using byte_hex.
Qed.

Lemma toString10_digit (d : Z) :
  0 <= d < 10 ->
  exists c, JS.toString10 d = String c EmptyString /\ decimalDigitValue c = Some d.
Proof.
  intros Hd.
  assert (H : d = 0 \/ d = 1 \/ d = 2 \/ d = 3 \/ d = 4 \/ d = 5 \/ d = 6
              \/ d = 7 \/ d = 8 \/ d = 9) by lia.
  repeat (destruct H as [->|H]; [eexists; split; reflexivity|]).
  subst d. eexists; split; reflexivity.
Qed.

Lemma toFixed1_spec (q : Q) : oneDecimalPlace (JS.toFixed1 (Some q)) q.
Proof.
  unfold oneDecimalPlace, JS.toFixed1.
  set (n := Qfloor (q * 10 + (1 # 2))).
  assert (Hd : 0 <= n mod 10 < 10) by (apply Z.mod_pos_bound; lia).
  destruct (toString10_digit (n mod 10) Hd) as (c & Hc & Hv).
  exists n, c. split.
  { pose proof (Qfloor_le (q * 10 + (1 # 2))) as Hlo.
    pose proof (Qlt_floor (q * 10 + (1 # 2))) as Hhi.
    fold n in Hlo, Hhi. rewrite inject_Z_plus in Hhi.
    change (inject_Z 1) with 1%Q in Hhi. lra. }
  rewrite Hc. split; [reflexivity | exact Hv].
Qed.

Lemma percentageOf_value (clusterSizes : list nat) (pixelCount i size : nat) :
  (0 < pixelCount)%nat -> clusterSizes !! i = Some size ->
  exists q, percentageOf clusterSizes pixelCount i = Some q /\
    (q == inject_Z (100 * Z.of_nat size) / inject_Z (Z.of_nat pixelCount))%Q /\
    (0 <= q)%Q.
Proof.
  intros Hn Hsize. unfold percentageOf. rewrite Hsize.
  eexists. split; [reflexivity|].
  assert (Hn' : (0 < inject_Z (Z.of_nat pixelCount))%Q) by (unfold Qlt; simpl; lia).
  assert (Hs : (0 <= inject_Z (Z.of_nat size))%Q) by (unfold Qle; simpl; lia).
  split.
  - rewrite inject_Z_mult. field. lra.
  - apply Qmult_le_0_compat; [|lra].
    apply Qle_shift_div_l; [exact Hn' | lra].
Qed.

(** The Ranker and the Formatter on final centers and sizes. *)
Lemma rank_format_spec (centers : list rgb) (clusterSizes : list nat) (pixelCount : nat) :
  length clusterSizes = length centers -> (0 < pixelCount)%nat ->
  let items := rank centers clusterSizes pixelCount in
  (forall i c size, centers !! i = Some c -> clusterSizes !! i = Some size ->
     exists q, unsorted centers clusterSizes pixelCount !! i = Some (Ranked c (Some q)) /\
       (q == inject_Z (100 * Z.of_nat size) / inject_Z (Z.of_nat pixelCount))%Q) /\
  items ≡ₚ unsorted centers clusterSizes pixelCount /\
  StronglySorted notBelow items /\
  (forall q, tiesOf q items = tiesOf q (unsorted centers clusterSizes pixelCount)) /\
  length (formatResults items) = length centers /\
  (forall i it, items !! i = Some it ->
     formatResults items !! i = Some (formatItem it) /\
     r (formatItem it) = ch0 (color it) /\
     g (formatItem it) = ch1 (color it) /\
     b (formatItem it) = ch2 (color it) /\
     rgb_text (formatItem it)
       = ("rgb(" +:+ JS.toString10 (ch0 (color it)) +:+ ", "
            +:+ JS.toString10 (ch1 (color it)) +:+ ", "
            +:+ JS.toString10 (ch2 (color it)) +:+ ")")%string /\
     (rgb_ok (color it) ->
        exists hr hg hb,
          hex (formatItem it) = ("#" +:+ hr +:+ hg +:+ hb)%string /\
          isByteHex hr (ch0 (color it)) /\ isByteHex hg (ch1 (color it)) /\
          isByteHex hb (ch2 (color it))) /\
     exists q, percentage it = Some q /\ (0 <= q)%Q /\
               oneDecimalPlace (percentage_text (formatItem it)) q) /\
  hex (formatItem (Ranked (RGB 42 59 76) (Some 50%Q))) = "#2a3b4c"%string /\
  rgb_text (formatItem (Ranked (RGB 42 59 76) (Some 50%Q))) = "rgb(42, 59, 76)"%string.
Proof.
  intros Hlen Hn items.
  assert (Hperm : items ≡ₚ unsorted centers clusterSizes pixelCount)
    by apply Array_sort_Permutation.
  split.
  { intros i c size Hc Hsize.
    destruct (percentageOf_value clusterSizes pixelCount i size Hn Hsize) as (q & Hq & Hv & _).
    exists q. rewrite unsorted_lookup, Hc. simpl. rewrite Hq. auto. }
  split; [exact Hperm|]. split.
  { apply Array_sort_sorted, unsorted_numeric. lia. }
  split; [intros q; apply Array_sort_stable|]. split.
  { unfold formatResults. rewrite length_map. apply rank_length. }
  split; [|split; reflexivity].
  intros i it Hit. split.
  { unfold formatResults. rewrite list_lookup_fmap, Hit. reflexivity. }
  do 4 (split; [reflexivity|]). split; [apply rgbToHex_spec|].
  assert (Hin : it ∈ unsorted centers clusterSizes pixelCount).
  { rewrite <- Hperm. eapply list_elem_of_lookup_2; eauto. }
  apply list_elem_of_lookup_1 in Hin. destruct Hin as [j Hj].
  rewrite unsorted_lookup in Hj.
  destruct (centers !! j) as [c|] eqn:Hc; [|discriminate]. injection Hj as <-.
  apply lookup_lt_Some in Hc.
  destruct (lookup_lt_is_Some_2 clusterSizes j) as [size Hsize]; [lia|].
  destruct (percentageOf_value clusterSizes pixelCount j size Hn Hsize) as (q & Hq & _ & Hq0).
  exists q. simpl. rewrite Hq. split; [reflexivity|]. split; [exact Hq0|].
  apply toFixed1_spec.
Qed.

(** C7. For every final center list and cluster sizes (one per center) with
    pixelCount > 0, the Ranker/Formatter gives cluster i the percentage
    100 * size / pixelCount, sorts the items descending by percentage with a
    stable sort (items of equal percentage keep their relative order), and
    emits one ColorResult per cluster: the channels; for channels in [0,255]
    a hex string of '#' and two lowercase hexadecimal digits per channel;
    an rgb string "rgb(r, g, b)"; and the percentage with exactly one
    decimal place.  Center (42,59,76) yields "#2a3b4c" and
    "rgb(42, 59, 76)". *)
Theorem rank_sorted_and_formatted (centers : list rgb) (clusterSizes : list nat) (pixelCount : nat) :
  length clusterSizes = length centers -> (0 < pixelCount)%nat ->
  let items := rank centers clusterSizes pixelCount in
  (forall i c size, centers !! i = Some c -> clusterSizes !! i = Some size ->
     exists q, unsorted centers clusterSizes pixelCount !! i = Some (Ranked c (Some q)) /\
       (q == inject_Z (100 * Z.of_nat size) / inject_Z (Z.of_nat pixelCount))%Q) /\
  items ≡ₚ unsorted centers clusterSizes pixelCount /\
  StronglySorted notBelow items /\
  (forall q, tiesOf q items = tiesOf q (unsorted centers clusterSizes pixelCount)) /\
  length (formatResults items) = length centers /\
  (forall i it, items !! i = Some it ->
     formatResults items !! i = Some (formatItem it) /\
     r (formatItem it) = ch0 (color it) /\
     g (formatItem it) = ch1 (color it) /\
     b (formatItem it) = ch2 (color it) /\
     rgb_text (formatItem it)
       = ("rgb(" +:+ JS.toString10 (ch0 (color it)) +:+ ", "
            +:+ JS.toString10 (ch1 (color it)) +:+ ", "
            +:+ JS.toString10 (ch2 (color it)) +:+ ")")%string /\
     (rgb_ok (color it) ->
        exists hr hg hb,
          hex (formatItem it) = ("#" +:+ hr +:+ hg +:+ hb)%string /\
          isByteHex hr (ch0 (color it)) /\ isByteHex hg (ch1 (color it)) /\
          isByteHex hb (ch2 (color it))) /\
     exists q, percentage it = Some q /\ (0 <= q)%Q /\
               oneDecimalPlace (percentage_text (formatItem it)) q) /\
  hex (formatItem (Ranked (RGB 42 59 76) (Some 50%Q))) = "#2a3b4c"%string /\
  rgb_text (formatItem (Ranked (RGB 42 59 76) (Some 50%Q))) = "rgb(42, 59, 76)"%string.
Proof. exact (rank_format_spec centers clusterSizes pixelCount). Qed.

(** ** Whole runs *)

Lemma samplePixels_transparent (texels : list rgb) :
  samplePixels (transparentData texels) = [].
Proof.
  induction texels as [|c texels IH]; [reflexivity|].
  unfold transparentData in *. simpl. exact IH.
Qed.

Section Runs.

Variable random : nat -> Q.
Hypothesis random_range : forall n, (0 <= random n < 1)%Q.

(** A run on a non-empty pixel list with colorCount >= 1: the seeds, then
    the loop from them, with no error anywhere. *)
Lemma kMeansRun_spec (pixels : list rgb) (k maxIterations n : nat) :
  pixels <> [] -> (1 <= k)%nat ->
  let k' := Nat.min k (length pixels) in
  exists centers st passes,
    kMeansPlusPlusInit random pixels k' n = Ok (centers, (n + k')%nat) /\
    Forall (fun c => c ∈ pixels) centers /\
    kMeansRun random pixels k maxIterations n = Ok (st, (n + k')%nat) /\
    kMeansClustering random pixels k maxIterations n
      = Ok (rank (centers_of st) (clusterSizes_of st) (length pixels), (n + k')%nat) /\
    iterations st = passes /\
    (passes <= maxIterations)%nat /\
    ((1 <= maxIterations)%nat -> (1 <= passes)%nat) /\
    stateAfter pixels k' passes (LoopState centers [] 0) = Ok st /\
    (forall j, (1 <= j < passes)%nat ->
       ~ convergedAt pixels k' (LoopState centers [] 0) j) /\
    ((passes < maxIterations)%nat ->
       convergedAt pixels k' (LoopState centers [] 0) passes) /\
    length (centers_of st) = k' /\
    ((1 <= maxIterations)%nat ->
       length (clusterSizes_of st) = k' /\
       sum_list (clusterSizes_of st) = length pixels) /\
    (Forall rgb_ok pixels -> Forall rgb_ok (centers_of st)).
Proof.
  intros Hne Hk k'.
  assert (Hlen : (0 < length pixels)%nat) by (destruct pixels; [congruence | simpl; lia]).
  assert (Hk' : (1 <= k')%nat) by (subst k'; lia).
  destruct (kMeansPlusPlusInit_spec random random_range pixels k' n Hne Hk') as
    (centers & Hinit & Hclen & Hin & _).
  destruct (kMeansLoop_spec pixels k' maxIterations Hk' (LoopState centers [] 0) Hclen) as
    (st & passes & Hloop & Hiter & Hle & Hge & Hafter & Hbefore & Hconv & _
       & Hlen' & Hsizes & Hok).
  assert (Hrun : kMeansRun random pixels k maxIterations n = Ok (st, (n + k')%nat)).
  { unfold kMeansRun. fold k'.
    rand_step Hinit.
    apply lift_Ok. exact Hloop. }
  exists centers, st, passes.
  split; [exact Hinit|]. split; [exact Hin|]. split; [exact Hrun|]. split.
  { destruct pixels as [|p pixels]; [congruence|]. unfold kMeansClustering.
    rand_step Hrun. reflexivity. }
  simpl in Hiter. repeat (split; [assumption|]).
  intros Hpix. apply Hok; [exact Hpix|]. simpl.
  eapply Forall_impl; [exact Hin|]. intros c Hc. simpl in Hc.
  rewrite Forall_forall in Hpix. auto.
Qed.

(** C1. For every run of the clustering engine on a non-empty pixel list
    (channels in [0,255]) with requested colorCount >= 1 and any
    maxIterations, the run succeeds, the returned list has length exactly
    min(colorCount, pixelCount), and every returned center's r, g, b values
    are integers in [0,255], in the items of kMeansClustering and in the
    ColorResult records made from them. *)
Theorem kMeansClustering_length_and_range (pixels : list rgb)
    (colorCount maxIterations n : nat) :
  pixels <> [] -> Forall rgb_ok pixels -> (1 <= colorCount)%nat ->
  exists items,
    kMeansClustering random pixels colorCount maxIterations n
      = Ok (items, (n + Nat.min colorCount (length pixels))%nat) /\
    length items = Nat.min colorCount (length pixels) /\
    Forall (fun it => rgb_ok (color it)) items /\
    length (formatResults items) = Nat.min colorCount (length pixels) /\
    Forall (fun cr => channel_ok (r cr) /\ channel_ok (g cr) /\ channel_ok (b cr))
           (formatResults items).
Proof.
  intros Hne Hpix Hk.
  destruct (kMeansRun_spec pixels colorCount maxIterations n Hne Hk) as
    (centers & st & passes & _ & _ & _ & Hres & _ & _ & _ & _ & _ & _ & Hlen & _ & Hok).
  eexists. split; [exact Hres|].
  assert (Hitems : Forall (fun it => rgb_ok (color it))
                     (rank (centers_of st) (clusterSizes_of st) (length pixels))).
  { apply (proj1 (Forall_fmap color rgb_ok _)).
    rewrite (rank_colors (centers_of st) (clusterSizes_of st) (length pixels)). auto. }
  split; [rewrite rank_length; exact Hlen|]. split; [exact Hitems|].
  unfold formatResults. split; [rewrite length_map, rank_length; exact Hlen|].
  apply Forall_fmap. eapply Forall_impl; [exact Hitems|].
  intros it Hit. exact Hit.
Qed.

(** C2. With pixelCount = 0 the clustering engine returns the empty list at
    once: no draw is made, the loop is not entered and nothing is raised,
    whatever colorCount, maxIterations and the random source are; this is
    what extractColors gets for an image all of whose texels have alpha 0.
    For well-formed input (colorCount >= 1) the engine returns a result for
    every pixel list, empty or not. *)
Theorem kMeansClustering_empty_and_total :
  (forall colorCount maxIterations n,
     kMeansClustering random [] colorCount maxIterations n = Ok ([], n)) /\
  (forall texels colorCount maxIterations n,
     samplePixels (transparentData texels) = [] /\
     extractColors random (transparentData texels) colorCount maxIterations n
       = Ok ([], n)) /\
  (forall pixels colorCount maxIterations n, (1 <= colorCount)%nat ->
     exists items n',
       kMeansClustering random pixels colorCount maxIterations n = Ok (items, n')).
Proof.
  split; [reflexivity|]. split.
  - intros texels colorCount maxIterations n.
    split; [apply samplePixels_transparent|].
    unfold extractColors. rewrite samplePixels_transparent. reflexivity.
  - intros pixels colorCount maxIterations n Hk.
    destruct pixels as [|p pixels]; [exists [], n; reflexivity|].
    destruct (kMeansRun_spec (p :: pixels) colorCount maxIterations n
                ltac:(discriminate) Hk) as
      (centers & st & passes & _ & _ & _ & Hres & _).
    eauto.
Qed.

(** C5 (amended). For every run with pixelCount > 0 (and colorCount >= 1),
    the loop never performs more than maxIterations Assignment/Update pairs,
    and at least one when maxIterations >= 1; no pass before the last left
    every old/new center pair within squared distance 25, and when the loop
    stops before maxIterations passes its last pass did; in both cases the
    state returned holds the centers and sizes computed by the last pass,
    and no error is signalled. *)
Theorem kMeansRun_iterations (pixels : list rgb) (colorCount maxIterations n : nat) :
  pixels <> [] -> (1 <= colorCount)%nat ->
  let k := Nat.min colorCount (length pixels) in
  exists centers st,
    kMeansPlusPlusInit random pixels k n = Ok (centers, (n + k)%nat) /\
    kMeansRun random pixels colorCount maxIterations n = Ok (st, (n + k)%nat) /\
    (iterations st <= maxIterations)%nat /\
    ((1 <= maxIterations)%nat -> (1 <= iterations st)%nat) /\
    stateAfter pixels k (iterations st) (LoopState centers [] 0) = Ok st /\
    (forall j, (1 <= j < iterations st)%nat ->
       ~ convergedAt pixels k (LoopState centers [] 0) j) /\
    ((iterations st < maxIterations)%nat ->
       convergedAt pixels k (LoopState centers [] 0) (iterations st)) /\
    (iterations st = maxIterations \/
     convergedAt pixels k (LoopState centers [] 0) (iterations st)).
Proof.
  intros Hne Hk k.
  destruct (kMeansRun_spec pixels colorCount maxIterations n Hne Hk) as
    (centers & st & passes & Hinit & _ & Hrun & _ & Hiter & Hle & Hge & Hafter
       & Hbefore & Hconv & _).
  fold k in Hinit, Hrun, Hafter, Hbefore, Hconv.
  exists centers, st. rewrite Hiter.
  split; [exact Hinit|]. split; [exact Hrun|]. split; [exact Hle|].
  split; [exact Hge|].
  split; [exact Hafter|]. split; [exact Hbefore|]. split; [exact Hconv|].
  destruct (decide (passes = maxIterations)) as [->|Hne']; [left; reflexivity|].
  right. apply Hconv. lia.
Qed.

(** C8 (amended). For every pixel list of exactly 3 pixels, whether or not
    their values are distinct, a run requesting colorCount = 10 returns a
    color list of length 3, not 10: the count is clamped to the number of
    pixels, not to the number of distinct values. *)
Theorem kMeansClustering_three_pixels (pixels : list rgb) (maxIterations n : nat) :
  length pixels = 3%nat ->
  exists items,
    kMeansClustering random pixels 10 maxIterations n = Ok (items, (n + 3)%nat) /\
    length items = 3%nat /\ length items <> 10%nat.
Proof.
  intros Hlen.
  assert (Hne : pixels <> []) by (destruct pixels; [discriminate | congruence]).
  destruct (kMeansRun_spec pixels 10 maxIterations n Hne ltac:(lia)) as
    (centers & st & passes & _ & _ & _ & Hres & _ & _ & _ & _ & _ & _ & Hclen & _).
  rewrite Hlen in Hres, Hclen. simpl in Hres, Hclen.
  eexists. split; [exact Hres|]. rewrite rank_length, Hclen. split; [reflexivity | lia].
Qed.

(** *** The four-pixel scenario *)

Lemma isMinDistance_single (c0 : rgb) (pixels : list rgb) (weights : list Z) :
  Forall2 (isMinDistance [c0]) pixels weights ->
  weights = map (fun p => colorDistanceSq p c0) pixels.
Proof.
  induction 1 as [|p w pixels weights [(c & Hc & ->) _] _ IH]; simpl; [reflexivity|].
  apply list_elem_of_singleton in Hc. subst c. f_equal. exact IH.
Qed.

(** The seeds of the scenario: after a black first seed any pixel may
    follow; after a white one only a black pixel can. *)
Lemma scenario_seeds (n : nat) :
  exists centers,
    kMeansPlusPlusInit random scenarioPixels 2 n = Ok (centers, (n + 2)%nat) /\
    (centers = [black; black] \/ centers = [black; white] \/
     centers = [white; black]).
Proof.
  destruct (kMeansPlusPlusInit_spec random random_range scenarioPixels 2 n
              ltac:(discriminate) ltac:(lia)) as
    (centers & Hinit & Hlen & Hin & _ & Hrule).
  exists centers. split; [exact Hinit|].
  destruct centers as [|c0 [|c1 [|? ?]]]; try discriminate.
  destruct (Hrule 1%nat ltac:(lia)) as (c1' & Hc1 & weights & Hw & Hzero & Hpos).
  simpl in Hc1. injection Hc1 as <-. simpl take in Hw.
  apply isMinDistance_single in Hw. subst weights.
  inversion Hin as [|? ? Hc0 Hin']; subst.
  inversion Hin' as [|? ? Hc1 _]; subst.
  assert (H0 : c0 = black \/ c0 = white).
  { unfold scenarioPixels in Hc0. rewrite !elem_of_cons, elem_of_nil in Hc0. tauto. }
  assert (H1 : c1 = black \/ c1 = white).
  { unfold scenarioPixels in Hc1. rewrite !elem_of_cons, elem_of_nil in Hc1. tauto. }
  destruct H0 as [->| ->], H1 as [->| ->]; auto.
  exfalso. cbv zeta in Hpos.
  set (total := fold_left Qplus
                  (map inject_Z (map (fun p => colorDistanceSq p white) scenarioPixels))
                  0%Q) in *.
  assert (Htotal : (total == 390150)%Q) by (vm_compute; reflexivity).
  destruct Hpos as ((_ & Hlt) & i & Hi & _ & _ & Hbelow); [lra|].
  assert (Hi2 : (2 <= i)%nat).
  { destruct i as [|[|i]]; [discriminate Hi | discriminate Hi | lia]. }
  specialize (Hbelow 1%nat ltac:(lia)).
  assert (Hw1 : (weightUpTo
                   (map inject_Z (map (fun p => colorDistanceSq p white) scenarioPixels))
                   1 == 390150)%Q) by (vm_compute; reflexivity).
  lra.
Qed.

Lemma scenario_loop_black_black :
  kMeansLoop scenarioPixels 2 20 (LoopState [black; black] [] 0)
  = Ok (LoopState [white; black] [2; 2]%nat 3).
Proof. vm_compute. reflexivity. Qed.

Lemma scenario_loop_black_white :
  kMeansLoop scenarioPixels 2 20 (LoopState [black; white] [] 0)
  = Ok (LoopState [black; white] [2; 2]%nat 1).
Proof. vm_compute. reflexivity. Qed.

Lemma scenario_loop_white_black :
  kMeansLoop scenarioPixels 2 20 (LoopState [white; black] [] 0)
  = Ok (LoopState [white; black] [2; 2]%nat 1).
Proof. vm_compute. reflexivity. Qed.

Lemma scenario_run (n : nat) :
  exists st,
    kMeansRun random scenarioPixels 2 20 n = Ok (st, (n + 2)%nat) /\
    kMeansClustering random scenarioPixels 2 20 n
      = Ok (rank (centers_of st) (clusterSizes_of st) 4, (n + 2)%nat) /\
    (st = LoopState [white; black] [2; 2]%nat 3 \/
     st = LoopState [black; white] [2; 2]%nat 1 \/
     st = LoopState [white; black] [2; 2]%nat 1).
Proof.
  destruct (scenario_seeds n) as (centers & Hinit & Hcases).
  assert (Hloop : exists st,
            kMeansLoop scenarioPixels 2 20 (LoopState centers [] 0) = Ok st /\
            (st = LoopState [white; black] [2; 2]%nat 3 \/
             st = LoopState [black; white] [2; 2]%nat 1 \/
             st = LoopState [white; black] [2; 2]%nat 1)).
  { destruct Hcases as [->|[->| ->]]; eexists; split;
      [apply scenario_loop_black_black | auto
      |apply scenario_loop_black_white | auto
      |apply scenario_loop_white_black | auto]. }
  destruct Hloop as (st & Hloop & Hst).
  assert (Hrun : kMeansRun random scenarioPixels 2 20 n = Ok (st, (n + 2)%nat)).
  { unfold kMeansRun. change (Nat.min 2 (length scenarioPixels)) with 2%nat.
    rand_step Hinit.
    apply lift_Ok. exact Hloop. }
  exists st. split; [exact Hrun|]. split; [|exact Hst].
  unfold kMeansClustering, scenarioPixels. fold scenarioPixels.
  rand_step Hrun. reflexivity.
Qed.

(** C9. For the pixel list [(0,0,0), (0,0,0), (255,255,255), (255,255,255)]
    with colorCount = 2 and maxIterations = 20, for every sequence of
    random draws (each in [0,1)), the run stops by convergence after at
    most 3 of the 20 passes with the two centers (0,0,0) and (255,255,255),
    two pixels in each cluster, and reports each of them at "50.0". *)
Theorem scenario_black_and_white (n : nat) :
  exists st items,
    kMeansRun random scenarioPixels 2 20 n = Ok (st, (n + 2)%nat) /\
    (1 <= iterations st <= 3)%nat /\
    centers_of st ≡ₚ [black; white] /\
    clusterSizes_of st = [2; 2]%nat /\
    kMeansClustering random scenarioPixels 2 20 n = Ok (items, (n + 2)%nat) /\
    map color items ≡ₚ [black; white] /\
    Forall (fun it => exists q, percentage it = Some q /\ (q == 50)%Q) items /\
    map shown (formatResults items)
      ≡ₚ [(0, 0, 0, "50.0"%string); (255, 255, 255, "50.0"%string)].
Proof.
  destruct (scenario_run n) as (st & Hrun & Hres & Hst).
  exists st, (rank (centers_of st) (clusterSizes_of st) 4).
  split; [exact Hrun|].
  assert (Hswap : [white; black] ≡ₚ [black; white]) by apply Permutation_swap.
  assert (Hswap' : [(255, 255, 255, "50.0"%string); (0, 0, 0, "50.0"%string)]
                   ≡ₚ [(0, 0, 0, "50.0"%string); (255, 255, 255, "50.0"%string)])
    by apply Permutation_swap.
  assert (Hhalf : exists q : Q, Some (200 # 4)%Q = Some q /\ (q == 50)%Q).
  { exists (200 # 4)%Q. split; reflexivity. }
  destruct Hst as [->|[->| ->]]; simpl centers_of; simpl clusterSizes_of;
    simpl iterations;
    (split; [lia|]); (split; [auto|]); (split; [reflexivity|]);
    (split; [exact Hres|]); vm_compute rank; simpl map;
    (split; [auto|]); (split; [repeat constructor; exact Hhalf|]);
    vm_compute; auto.
Qed.

End Runs.

(** ** The theorems at concrete inputs *)

Lemma kMeansClustering_length_and_range_witness :
  exists items,
    kMeansClustering halves threeValues 2 20 0%nat = Ok (items, 2%nat) /\
    length items = 2%nat /\
    Forall (fun it => rgb_ok (color it)) items.
Proof.
  destruct (kMeansClustering_length_and_range halves
              ltac:(intros n; unfold halves, Qle, Qlt; simpl; lia) threeValues 2 20 0) as
    (items & Hrun & Hlen & Hok & _).
  - discriminate.
  - unfold threeValues, rgb_ok, channel_ok. repeat constructor; simpl; lia.
  - lia.
  - exists items. auto.
Defined.

Lemma kMeansClustering_empty_and_total_witness :
  kMeansClustering halves [] 6 20 0%nat = Ok ([], 0%nat) /\
  exists items n', kMeansClustering halves threeValues 6 20 0%nat = Ok (items, n').
Proof.
  destruct (kMeansClustering_empty_and_total halves
              ltac:(intros n; unfold halves, Qle, Qlt; simpl; lia)) as (Hempty & _ & Htotal).
  split; [apply Hempty|]. apply Htotal. lia.
Defined.

Lemma kMeansRun_iterations_witness :
  exists centers st,
    kMeansPlusPlusInit halves threeValues 2 0%nat = Ok (centers, 2%nat) /\
    kMeansRun halves threeValues 2 20 0%nat = Ok (st, 2%nat) /\
    (1 <= iterations st <= 20)%nat.
Proof.
  destruct (kMeansRun_iterations halves ltac:(intros n; unfold halves, Qle, Qlt; simpl; lia)
              threeValues 2 20 0) as (centers & st & Hinit & Hrun & Hle & Hge & _).
  - discriminate.
  - lia.
  - exists centers, st. split; [exact Hinit|]. split; [exact Hrun|].
    split; [apply Hge; lia | exact Hle].
Defined.


Lemma rank_sorted_and_formatted_witness :
  StronglySorted notBelow (rank [black; white; RGB 42 59 76] [1; 2; 1]%nat 4) /\
  length (formatResults (rank [black; white; RGB 42 59 76] [1; 2; 1]%nat 4)) = 3%nat.
Proof.
  destruct (rank_sorted_and_formatted [black; white; RGB 42 59 76] [1; 2; 1]%nat 4)
    as (_ & _ & Hsorted & _ & Hlen & _).
  - reflexivity.
  - lia.
  - split; [exact Hsorted | exact Hlen].
Defined.

Lemma kMeansClustering_three_pixels_witness :
  exists items,
    kMeansClustering halves [black; white; black] 10 20 0%nat = Ok (items, 3%nat) /\
    length items = 3%nat /\ length items <> 10%nat.
Proof.
  apply (kMeansClustering_three_pixels halves ltac:(intros n; unfold halves, Qle, Qlt; simpl; lia)
           [black; white; black] 20 0).
  reflexivity.
Defined.

Lemma scenario_black_and_white_witness :
  exists st items,
    kMeansRun halves scenarioPixels 2 20 0%nat = Ok (st, 2%nat) /\
    centers_of st ≡ₚ [black; white] /\
    kMeansClustering halves scenarioPixels 2 20 0%nat = Ok (items, 2%nat) /\
    map shown (formatResults items)
      ≡ₚ [(0, 0, 0, "50.0"%string); (255, 255, 255, "50.0"%string)].
Proof.
  destruct (scenario_black_and_white halves ltac:(intros n; unfold halves, Qle, Qlt; simpl; lia) 0)
    as (st & items & Hrun & _ & Hcenters & _ & Hres & _ & _ & Hshown).
  exists st, items. auto.
Defined.

Lemma weightedRandomPick_total_no_fallback_witness :
  exists p,
    weightedRandomPick halves threeValues [0; 0; 5; 3]%Q 0%nat = Ok (p, 1%nat) /\
    p ∈ threeValues.
Proof.
  destruct (weightedRandomPick_total_no_fallback halves
              ltac:(intros n; unfold halves, Qle, Qlt; simpl; lia) threeValues [0; 0; 5; 3]%Q 0)
    as [Hpick _].
  - discriminate.
  - exact Hpick.
Defined.

(** C5 as stated fails for maxIterations = 0, a value the engine takes as
    given: on the four pixels of [threeValues] the run ends without an
    error and without a single Assignment/Update pair, returning the seeds
    and no cluster sizes. *)
Lemma zero_maxIterations_counterexample :
  threeValues <> [] /\
  exists st,
    kMeansRun halves threeValues 2 0 0%nat = Ok (st, 2%nat) /\
    iterations st = 0%nat /\ ~ (1 <= iterations st)%nat /\
    clusterSizes_of st = [].
Proof.
  split; [discriminate|].
  eexists. split; [vm_compute; reflexivity|]. simpl.
  split; [reflexivity|]. split; [lia | reflexivity].
Qed.

(** C8 as stated fails: [threeValues] has exactly 3 distinct pixel values,
    yet a run requesting colorCount = 10 returns 4 colors, one per pixel. *)
Lemma three_distinct_values_counterexample :
  length (remove_dups threeValues) = 3%nat /\
  exists items n',
    kMeansClustering halves threeValues 10 20 0%nat = Ok (items, n') /\
    length items = 4%nat /\ length items <> 3%nat.
Proof.
  split; [vm_compute; reflexivity|].
  eexists _, _. split; [vm_compute; reflexivity|].
  split; [reflexivity | discriminate].
Qed.

(** * Further properties of the engine *)

(** ** colorDistanceSq *)

Lemma square_sum_zero (x y z : Z) : x * x + y * y + z * z = 0 -> x = 0 /\ y = 0 /\ z = 0.
Proof.
  intros H.
  pose proof (Z.square_nonneg x). pose proof (Z.square_nonneg y).
  pose proof (Z.square_nonneg z).
  assert (Hx : x * x = 0) by lia. assert (Hy : y * y = 0) by lia.
  assert (Hz : z * z = 0) by lia.
  apply Z.mul_eq_0 in Hx, Hy, Hz. lia.
Qed.

Lemma square_le_25 (x y z : Z) : x * x + y * y + z * z <= 25 -> -5 <= x <= 5.
Proof.
  intros H.
  pose proof (Z.square_nonneg y). pose proof (Z.square_nonneg z). nia.
Qed.

(** X1. The squared distance is symmetric and never negative, it is 0
    exactly between equal colours, it is at most 3 * 255^2 = 195075 on
    channels in [0,255], and two colours within the convergence threshold
    of 25 differ by at most 5 in every channel. *)
Theorem colorDistanceSq_facts (c1 c2 : rgb) :
  colorDistanceSq c1 c2 = colorDistanceSq c2 c1 /\
  0 <= colorDistanceSq c1 c2 /\
  (colorDistanceSq c1 c2 = 0 <-> c1 = c2) /\
  (rgb_ok c1 -> rgb_ok c2 -> colorDistanceSq c1 c2 <= 195075) /\
  (colorDistanceSq c1 c2 <= CONVERGE_THRESHOLD_SQ ->
     -5 <= ch0 c1 - ch0 c2 <= 5 /\ -5 <= ch1 c1 - ch1 c2 <= 5 /\
     -5 <= ch2 c1 - ch2 c2 <= 5).
Proof.
  split; [unfold colorDistanceSq; cbv zeta; lia|].
  split; [apply colorDistanceSq_nonneg|].
  split; [|split].
  - split.
    + unfold colorDistanceSq. cbv zeta. intros H.
      apply square_sum_zero in H. destruct c1, c2; simpl in *. f_equal; lia.
    + intros ->. unfold colorDistanceSq. cbv zeta. lia.
  - unfold rgb_ok, channel_ok, colorDistanceSq. cbv zeta.
    intros (A0 & A1 & A2) (B0 & B1 & B2). nia.
  - unfold colorDistanceSq, CONVERGE_THRESHOLD_SQ. cbv zeta. intros H.
    split; [|split].
    + eapply square_le_25. exact H.
    + apply (square_le_25 _ (ch0 c1 - ch0 c2) (ch2 c1 - ch2 c2)). lia.
    + apply (square_le_25 _ (ch0 c1 - ch0 c2) (ch1 c1 - ch1 c2)). lia.
Qed.

(** ** The sampling loop *)

Lemma samplePixels_short (rest : list Z) :
  (length rest < 4)%nat -> samplePixels rest = [].
Proof.
  destruct rest as [|? [|? [|? [|? ?]]]]; simpl; intros; try reflexivity; lia.
Qed.

Lemma samplePixels_encode (texels : list (rgb * Z)) (rest : list Z) :
  (length rest < 4)%nat ->
  samplePixels (encodeTexels texels ++ rest) = opaqueTexels texels.
Proof.
  intros Hrest. induction texels as [|[c a] texels IH].
  - simpl. apply samplePixels_short. exact Hrest.
  - unfold encodeTexels, opaqueTexels in *. simpl.
    destruct (0 <? a); simpl; rewrite IH; destruct c; reflexivity.
Qed.

Lemma samplePixels_bounded (n : nat) :
  forall data, (length data <= n)%nat ->
    (4 * length (samplePixels data) <= length data)%nat /\
    (Forall channel_ok data -> Forall rgb_ok (samplePixels data)).
Proof.
  induction n as [n IH] using lt_wf_ind. intros data Hlen.
  destruct data as [|r [|g [|b [|a data]]]]; simpl;
    try (split; [lia | intros; constructor]).
  destruct (IH (length data) ltac:(simpl in Hlen; lia) data ltac:(lia)) as [Hl Hok].
  destruct (0 <? a); simpl; split; try lia.
  - intros Hall. inversion Hall as [|? ? Hr Hall1]; subst.
    inversion Hall1 as [|? ? Hg Hall2]; subst.
    inversion Hall2 as [|? ? Hb Hall3]; subst.
    inversion Hall3 as [|? ? _ Hall4]; subst.
    constructor; [exact (conj Hr (conj Hg Hb)) | auto].
  - intros Hall. do 4 (inversion Hall as [|? ? _ Hall']; subst; clear Hall;
                       rename Hall' into Hall). auto.
Qed.

(** X2. The sampling loop of extractColors keeps exactly the texels whose
    alpha byte is above 0, in order, with their three colour bytes; up to
    three trailing bytes that do not make a whole texel are ignored.  It
    yields at most one pixel per four bytes, and on bytes in [0,255] every
    pixel has its channels in [0,255]. *)
Theorem samplePixels_opaque_texels (texels : list (rgb * Z)) (rest data : list Z) :
  ((length rest < 4)%nat ->
   samplePixels (encodeTexels texels ++ rest) = opaqueTexels texels) /\
  (4 * length (samplePixels data) <= length data)%nat /\
  (Forall channel_ok data -> Forall rgb_ok (samplePixels data)).
Proof.
  split; [apply samplePixels_encode|].
  apply (samplePixels_bounded (length data)). lia.
Qed.

(** ** Assignment step: optimality and errors *)

Lemma isNearest_cost (centers : list rgb) (k : nat) (pixels : list rgb)
    (assignments : list nat) :
  (k <= length centers)%nat ->
  Forall2 (isNearest centers k) pixels assignments ->
  forall other, length other = length pixels ->
    Forall (fun a => (a < k)%nat) other ->
    assignmentCost centers pixels assignments <= assignmentCost centers pixels other.
Proof.
  intros Hk Hall. unfold assignmentCost.
  induction Hall as [|p a pixels assignments Hnear _ IH]; intros other Hlen Hother.
  { destruct other; [simpl; lia | discriminate]. }
  destruct other as [|a' other]; [discriminate|]. simpl in Hlen. simpl.
  inversion Hother as [|? ? Ha' Hother']; subst.
  specialize (IH other ltac:(lia) Hother').
  destruct Hnear as (Ha & center & Hcenter & Hmin).
  destruct (lookup_lt_is_Some_2 centers a') as [c' Hc']; [lia|].
  rewrite Hcenter, Hc'. simpl.
  destruct (Hmin a' c' Ha' Hc') as [Hle _]. lia.
Qed.

Lemma nearestFrom_missing (pixel : rgb) (centers : list rgb) (n : nat) :
  forall a minDistSq closest,
    (a <= length centers < a + n)%nat ->
    nearestFrom pixel centers (seq a n) minDistSq closest = Throw TypeError.
Proof.
  induction n as [|n IH]; intros a minDistSq closest Ha; [lia|].
  simpl. destruct (centers !! a) as [c|] eqn:Hc; [|reflexivity].
  apply lookup_lt_Some in Hc.
  destruct (match minDistSq with
            | Some m => colorDistanceSq pixel c <? m
            | None => true
            end); apply IH; lia.
Qed.

Lemma nearestFrom_take (pixel : rgb) (centers : list rgb) (k : nat) (idx : list nat) :
  Forall (fun i => (i < k)%nat) idx ->
  forall minDistSq closest,
    nearestFrom pixel (take k centers) idx minDistSq closest
    = nearestFrom pixel centers idx minDistSq closest.
Proof.
  induction 1 as [|i idx Hi _ IH]; intros minDistSq closest; simpl; [reflexivity|].
  rewrite lookup_take_lt by exact Hi.
  destruct (centers !! i) as [c|]; [|reflexivity].
  destruct (match minDistSq with
            | Some m => colorDistanceSq pixel c <? m
            | None => true
            end); apply IH.
Qed.

Lemma assignLoop_take (centers : list rgb) (k : nat) (pixels : list rgb) :
  forall assignments clusterSizes,
    assignLoop pixels (take k centers) k assignments clusterSizes
    = assignLoop pixels centers k assignments clusterSizes.
Proof.
  induction pixels as [|p pixels IH]; intros assignments clusterSizes; [reflexivity|].
  simpl. unfold nearest. rewrite nearestFrom_take.
  - destruct (nearestFrom p centers (seq 0 k) None 0) as [c|e]; simpl; [|reflexivity].
    destruct (increment clusterSizes c) as [sizes|e]; simpl; [apply IH | reflexivity].
  - apply Forall_forall. intros i Hi. apply elem_of_seq in Hi. lia.
Qed.

(** X3. The Assignment step minimises the total squared distance: on k >= 1
    centers no other way of giving every pixel one of the k cluster indices
    has a smaller sum of squared distances from the pixels to their
    centers. *)
Theorem assignPixelsToCenters_minimal_cost (pixels centers : list rgb) :
  centers <> [] ->
  exists assignments clusterSizes,
    assignPixelsToCenters pixels centers (length centers)
      = Ok (assignments, clusterSizes) /\
    forall other, length other = length pixels ->
      Forall (fun a => (a < length centers)%nat) other ->
      assignmentCost centers pixels assignments
      <= assignmentCost centers pixels other.
Proof.
  intros Hne.
  destruct (assignPixelsToCenters_spec pixels centers Hne) as
    (assignments & sizes & Hrun & Hnear & _).
  exists assignments, sizes. split; [exact Hrun|].
  apply (isNearest_cost centers (length centers)); [lia | exact Hnear].
Qed.

(** X4. At its edges the Assignment step behaves as follows: with no pixels
    it returns no assignments and k zero sizes without looking at the
    centers; with a pixel and fewer than k centers it raises a TypeError
    (it reads [centers[i]] for every i < k); and with more than k centers
    the centers from index k on are ignored. *)
Theorem assignPixelsToCenters_edges (pixels centers : list rgb) (k : nat) :
  assignPixelsToCenters [] centers k = Ok ([], replicate k 0%nat) /\
  (pixels <> [] -> (length centers < k)%nat ->
   assignPixelsToCenters pixels centers k = Throw TypeError) /\
  assignPixelsToCenters pixels (take k centers) k
  = assignPixelsToCenters pixels centers k.
Proof.
  split; [reflexivity|]. split.
  - intros Hne Hlen. destruct pixels as [|p pixels]; [congruence|].
    unfold assignPixelsToCenters. simpl. unfold nearest.
    rewrite nearestFrom_missing by lia. reflexivity.
  - apply assignLoop_take.
Qed.

(** ** Update step: errors *)

Lemma accumulate_take (pixels : list rgb) :
  forall assignments sums,
    accumulate pixels (take (length pixels) assignments) sums
    = accumulate pixels assignments sums.
Proof.
  induction pixels as [|p pixels IH]; intros assignments sums; [reflexivity|].
  destruct assignments as [|a assignments]; [reflexivity|]. simpl.
  destruct (sums !! a) as [[[s0 s1] s2]|]; [apply IH | reflexivity].
Qed.

Lemma accumulate_error (pixels : list rgb) :
  forall assignments sums,
    ~ ((length pixels <= length assignments)%nat /\
       Forall (fun a => (a < length sums)%nat) (take (length pixels) assignments)) ->
    accumulate pixels assignments sums = Throw TypeError.
Proof.
  induction pixels as [|p pixels IH]; intros assignments sums Hbad.
  - exfalso. apply Hbad. simpl. split; [lia | constructor].
  - destruct assignments as [|a assignments]; [reflexivity|]. simpl.
    destruct (sums !! a) as [[[s0 s1] s2]|] eqn:Ha; [|reflexivity].
    apply lookup_lt_Some in Ha. apply IH. rewrite length_insert.
    intros [Hlen Hall]. apply Hbad. simpl. split; [lia|].
    constructor; assumption.
Qed.

(** X5. The Update step raises a TypeError exactly when some pixel has no
    assignment or an assignment that is not below k (it reads
    [sums[assignments[p]]]); otherwise, with k previous centers, it returns
    k centers, and assignments beyond the last pixel are ignored. *)
Theorem updateCenters_errors (pixels : list rgb) (assignments clusterSizes : list nat)
    (oldCenters : list rgb) (k : nat) :
  (~ ((length pixels <= length assignments)%nat /\
      Forall (fun a => (a < k)%nat) (take (length pixels) assignments)) ->
   updateCenters pixels assignments clusterSizes oldCenters k = Throw TypeError) /\
  ((length pixels <= length assignments)%nat ->
   Forall (fun a => (a < k)%nat) (take (length pixels) assignments) ->
   length oldCenters = k ->
   exists newCenters,
     updateCenters pixels assignments clusterSizes oldCenters k = Ok newCenters /\
     length newCenters = k /\
     updateCenters pixels (take (length pixels) assignments) clusterSizes oldCenters k
     = Ok newCenters).
Proof.
  split.
  - intros Hbad. unfold updateCenters.
    rewrite accumulate_error; [reflexivity|].
    rewrite length_replicate. exact Hbad.
  - intros Hlen Hall Hold.
    destruct (updateCenters_spec pixels (take (length pixels) assignments)
                clusterSizes oldCenters k) as (newCenters & Hrun & Hlen' & _).
    + rewrite length_take. lia.
    + exact Hall.
    + exact Hold.
    + exists newCenters. split; [|split; [exact Hlen' | exact Hrun]].
      unfold updateCenters in *. rewrite accumulate_take in Hrun. exact Hrun.
Qed.

Lemma updateCenters_errors_witness :
  updateCenters [RGB 1 2 3; RGB 4 5 6] [0; 2]%nat [1; 1]%nat
    [RGB 0 0 0; RGB 9 9 9] 2 = Throw TypeError /\
  exists newCenters,
    updateCenters [RGB 1 2 3; RGB 4 5 6] [0; 1; 7]%nat [1; 1]%nat
      [RGB 0 0 0; RGB 9 9 9] 2 = Ok newCenters /\ length newCenters = 2%nat.
Proof.
  split.
  - apply (updateCenters_errors [RGB 1 2 3; RGB 4 5 6] [0; 2]%nat [1; 1]%nat
             [RGB 0 0 0; RGB 9 9 9] 2).
    simpl. intros [_ H]. inversion H as [|? ? _ H']; subst.
    inversion H' as [|? ? Hlt _]; subst. lia.
  - destruct (updateCenters_errors [RGB 1 2 3; RGB 4 5 6] [0; 1; 7]%nat [1; 1]%nat
                [RGB 0 0 0; RGB 9 9 9] 2) as [_ H].
    destruct H as (cs & Hrun & Hlen & _).
    + simpl. lia.
    + simpl. repeat constructor.
    + reflexivity.
    + exists cs. auto.
Defined.

(** ** Seeding: weights and distinct seeds *)

Lemma fold_left_Qplus_positive (distances : list Q) :
  Forall (fun d => (0 <= d)%Q) distances ->
  forall i d a, distances !! i = Some d -> (0 < d)%Q ->
    (a < fold_left Qplus distances a)%Q.
Proof.
  induction 1 as [|d0 ds Hd0 Hds IH]; intros i d a Hi Hd; [discriminate|].
  simpl. destruct i as [|i]; simpl in Hi.
  - injection Hi as ->.
    pose proof (fold_left_Qplus_nonneg ds Hds (a + d)%Q). lra.
  - specialize (IH i d (a + d0)%Q Hi Hd). lra.
Qed.

Lemma selects_positive_weight (distances : list Q) (r : Q) (i : nat) :
  (0 < r)%Q -> selects distances r i ->
  exists d, distances !! i = Some d /\ (0 < d)%Q.
Proof.
  intros Hr Hsel. destruct (selects_interval distances r i Hsel) as (d & Hd & Hup & Hint).
  exists d. split; [exact Hd|]. destruct i as [|j].
  - rewrite Hint in Hup. lra.
  - destruct Hint as [Hlow Heq]. rewrite Heq in Hup. lra.
Qed.

Lemma isMinDistance_positive (chosen : list rgb) (p : rgb) (w : Z) :
  isMinDistance chosen p w -> (0 < w <-> p ∉ chosen).
Proof.
  intros [(c & Hc & ->) Hmin]. split.
  - intros Hpos Hin. specialize (Hmin p Hin).
    assert (H0 : colorDistanceSq p p = 0) by (unfold colorDistanceSq; cbv zeta; lia).
    lia.
  - intros Hnot. pose proof (colorDistanceSq_nonneg p c) as Hge.
    destruct (decide (colorDistanceSq p c = 0)) as [Hz|Hnz]; [|lia].
    exfalso. apply Hnot.
    unfold colorDistanceSq in Hz. cbv zeta in Hz. apply square_sum_zero in Hz.
    replace p with c; [exact Hc|]. destruct p, c; simpl in *. f_equal; lia.
Qed.

(** A seed drawn by the weighted rule with a draw above 0 is not one of the
    colours chosen before, as long as some pixel is not among them. *)
Lemma seedRule_fresh (pixels chosen : list rgb) (u : Q) (center : rgb) :
  seedRule pixels chosen u center -> (0 < u)%Q ->
  (exists q, q ∈ pixels /\ q ∉ chosen) ->
  center ∉ chosen.
Proof.
  intros (weights & Hw & Hrule) Hu (q & Hq & Hfresh). cbv zeta in Hrule.
  destruct Hrule as [_ Hpos].
  pose proof (isMinDistance_weights_nonneg _ _ _ Hw) as Hnonneg.
  set (distances := map inject_Z weights) in *.
  set (total := fold_left Qplus distances 0%Q) in *.
  assert (Htotal : (0 < total)%Q).
  { apply list_elem_of_lookup_1 in Hq. destruct Hq as [j Hj].
    destruct (Forall2_lookup_l _ _ _ _ _ Hw Hj) as (w & Hwj & Hmin).
    apply (fold_left_Qplus_positive distances Hnonneg j (inject_Z w)).
    - unfold distances. rewrite list_lookup_fmap, Hwj. reflexivity.
    - apply isMinDistance_positive in Hmin. apply Hmin in Hfresh.
      change 0%Q with (inject_Z 0). rewrite <- Zlt_Qlt. exact Hfresh. }
  destruct Hpos as (_ & i & Hi & Hsel); [lra|].
  destruct (selects_positive_weight distances (u * total)%Q i ltac:(nra) Hsel) as
    (d & Hd & Hdpos).
  destruct (Forall2_lookup_l _ _ _ _ _ Hw Hi) as (w & Hwi & Hmin).
  unfold distances in Hd. rewrite list_lookup_fmap, Hwi in Hd. injection Hd as <-.
  apply (isMinDistance_positive chosen center w Hmin).
  change 0%Q with (inject_Z 0) in Hdpos. rewrite <- Zlt_Qlt in Hdpos. exact Hdpos.
Qed.

Lemma fresh_pixel_exists (pixels chosen : list rgb) :
  NoDup chosen -> (length chosen < length (remove_dups pixels))%nat ->
  exists q, q ∈ pixels /\ q ∉ chosen.
Proof.
  intros Hnd Hlen.
  destruct (decide (Forall (fun q => q ∈ chosen) pixels)) as [Hall|Hnot].
  - exfalso.
    assert (Hsub : remove_dups pixels ⊆+ chosen).
    { apply NoDup_submseteq; [apply NoDup_remove_dups|].
      intros x Hx. rewrite elem_of_remove_dups in Hx.
      rewrite Forall_forall in Hall. auto. }
    apply submseteq_length in Hsub. lia.
  - apply not_Forall_Exists in Hnot; [|intros x; apply _].
    apply Exists_exists in Hnot. destruct Hnot as (q & Hq & Hfresh).
    exists q. auto.
Qed.

Lemma at_index_nil {A : Type} (i : Z) : at_index (@nil A) i = Throw TypeError.
Proof. unfold at_index. destruct (i <? 0); reflexivity. Qed.

Lemma pickLoop_unreached (pixels : list rgb) :
  forall distances r,
    (forall i, (i < length distances)%nat -> (weightUpTo distances i < r)%Q) ->
    pickLoop pixels distances (Some r) = None.
Proof.
  induction pixels as [|p pixels IH]; intros distances r Hlow; [reflexivity|].
  destruct distances as [|d ds]; simpl.
  - apply pickLoop_NaN.
  - assert (Hd : (d < r)%Q) by (apply (Hlow 0%nat); simpl; lia).
    destruct (Qle_bool (r - d) 0) eqn:Hle.
    + apply Qle_bool_iff in Hle. lra.
    + apply IH. intros i Hi. specialize (Hlow (S i) ltac:(simpl; lia)).
      simpl in Hlow. lra.
Qed.

Section SeedingProperties.

Variable random : nat -> Q.
Hypothesis random_range : forall n, (0 <= random n < 1)%Q.
Hypothesis random_positive : forall n, (0 < random n)%Q.

Lemma uniformPick_nil (n : nat) : uniformPick random [] n = Throw TypeError.
Proof.
  unfold uniformPick. rewrite (Rand_bind_Ok _ _ n (S n) (random n)) by reflexivity.
  rewrite at_index_nil. reflexivity.
Qed.

Lemma weightedRandomPick_nil (distances : list Q) (n : nat) :
  weightedRandomPick random [] distances n = Throw TypeError.
Proof.
  unfold weightedRandomPick.
  destruct (Qeq_bool (fold_left Qplus distances 0%Q) 0); [apply uniformPick_nil|].
  rewrite (Rand_bind_Ok _ _ n (S n) (random n)) by reflexivity. reflexivity.
Qed.

(** X6. weightedRandomPick at its edges.  On an empty pixel list it raises
    a TypeError.  With one weight per pixel, a positive total and a draw
    above 0, the pixel it returns has a weight above 0: a pixel of weight 0
    is not picked.  And when the weights do not add up to 0 but no
    accumulated weight reaches the value drawn (which takes fewer weights
    than pixels, or weights below 0), it returns the last pixel. *)
Theorem weightedRandomPick_edges (pixels : list rgb) (distances : list Q) (n : nat) :
  weightedRandomPick random [] distances n = Throw TypeError /\
  (pixels <> [] -> length distances = length pixels ->
   (0 < fold_left Qplus distances 0)%Q ->
   exists i p d,
     weightedRandomPick random pixels distances n = Ok (p, S n) /\
     pixels !! i = Some p /\ distances !! i = Some d /\ (0 < d)%Q) /\
  (~ (fold_left Qplus distances 0 == 0)%Q ->
   (forall i, (i < length distances)%nat ->
      (weightUpTo distances i < random n * fold_left Qplus distances 0)%Q) ->
   forall q, last pixels = Some q ->
     weightedRandomPick random pixels distances n = Ok (q, S n)).
Proof.
  split; [apply weightedRandomPick_nil|]. split.
  - intros Hne Hlen Hpos.
    pose proof (random_range n) as [Hu0 Hu1]. pose proof (random_positive n) as Hu.
    set (total := fold_left Qplus distances 0%Q) in *.
    destruct (pickLoop_in_range pixels distances (random n * total)%Q Hne Hlen)
      as (p & i & Hp & Hi & Hsel); [fold total; nra|].
    destruct (selects_positive_weight distances (random n * total)%Q i ltac:(nra) Hsel)
      as (d & Hd & Hdpos).
    destruct (weightedRandomPick_spec random random_range pixels distances n Hne)
      as (q & Hrun & _ & _ & Hq).
    exists i, p, d. rewrite Hrun, (Hq p Hp); [auto|].
    fold total. intros Hz. lra.
  - intros Hnz Hlow q Hq. unfold weightedRandomPick.
    destruct (Qeq_bool (fold_left Qplus distances 0%Q) 0) eqn:Hz.
    { apply Qeq_bool_iff in Hz. contradiction. }
    rewrite (Rand_bind_Ok _ _ n (S n) (random n)) by reflexivity.
    rewrite pickLoop_unreached by exact Hlow. rewrite Hq. reflexivity.
Qed.

(** X7. The seed initializer never returns an empty list: on an empty pixel
    list it raises a TypeError, and on a non-empty one it returns
    max(1, k) centers, each one of the pixels, after max(1, k) draws; so
    k = 0 still gives one center. *)
Theorem kMeansPlusPlusInit_never_empty (pixels : list rgb) (k n : nat) :
  kMeansPlusPlusInit random [] k n = Throw TypeError /\
  (pixels <> [] ->
   exists centers,
     kMeansPlusPlusInit random pixels k n = Ok (centers, (n + Nat.max 1 k)%nat) /\
     length centers = Nat.max 1 k /\
     Forall (fun c => c ∈ pixels) centers).
Proof.
  split.
  - unfold kMeansPlusPlusInit, mbind, Rand_bind. rewrite uniformPick_nil. reflexivity.
  - intros Hne.
    assert (Hk : kMeansPlusPlusInit random pixels k n
                 = kMeansPlusPlusInit random pixels (Nat.max 1 k) n).
    { unfold kMeansPlusPlusInit. replace (Nat.max 1 k - 1)%nat with (k - 1)%nat by lia.
      reflexivity. }
    destruct (kMeansPlusPlusInit_spec random random_range pixels (Nat.max 1 k) n Hne
                ltac:(lia)) as (centers & Hinit & Hlen & Hin & _).
    exists centers. rewrite Hk. auto.
Qed.

Lemma seeds_NoDup_prefix (pixels centers : list rgb) (k n : nat) :
  (k <= length (remove_dups pixels))%nat -> length centers = k ->
  (forall c, (1 <= c < k)%nat ->
     exists center, centers !! c = Some center /\
       seedRule pixels (take c centers) (random (n + c)) center) ->
  forall j, (j <= k)%nat -> NoDup (take j centers).
Proof.
  intros Hk Hlen Hrule. induction j as [|j IH]; intros Hj.
  - rewrite take_0. constructor.
  - specialize (IH ltac:(lia)).
    destruct (lookup_lt_is_Some_2 centers j) as [center Hcenter]; [lia|].
    rewrite (take_S_r _ _ _ Hcenter). apply NoDup_app.
    split; [exact IH|]. split; [|apply NoDup_singleton].
    intros x Hx Hx'. apply list_elem_of_singleton in Hx'. subst x.
    destruct j as [|j]; [rewrite take_0 in Hx; inversion Hx|].
    destruct (Hrule (S j) ltac:(lia)) as (center' & Hc' & Hseed).
    rewrite Hcenter in Hc'. injection Hc' as <-.
    revert Hx. apply (seedRule_fresh _ _ _ _ Hseed (random_positive _)).
    apply fresh_pixel_exists; [exact IH|].
    rewrite length_take. lia.
Qed.

(** X8. When every draw is above 0 and the pixel list has at least k
    distinct values, the k seeds are pairwise distinct: the weighted rule
    gives weight 0 to every pixel equal to a seed chosen before, and a
    pixel of weight 0 is not picked. *)
Theorem kMeansPlusPlusInit_distinct_seeds (pixels : list rgb) (k n : nat) :
  pixels <> [] -> (1 <= k <= length (remove_dups pixels))%nat ->
  exists centers,
    kMeansPlusPlusInit random pixels k n = Ok (centers, (n + k)%nat) /\
    length centers = k /\ NoDup centers.
Proof.
  intros Hne [Hk1 Hk].
  destruct (kMeansPlusPlusInit_spec random random_range pixels k n Hne Hk1) as
    (centers & Hinit & Hlen & _ & _ & Hrule).
  exists centers. split; [exact Hinit|]. split; [exact Hlen|].
  rewrite <- (take_ge centers k) by lia.
  apply (seeds_NoDup_prefix pixels centers k n Hk Hlen Hrule). lia.
Qed.

End SeedingProperties.

(** ** The loop: what every pass and the last pass establish *)

Lemma iteration_clusters (pixels : list rgb) (k : nat) (st st' : loopState) (b : bool) :
  (1 <= k)%nat -> length (centers_of st) = k ->
  iteration pixels k st = Ok (st', b) ->
  exists assignments,
    Forall2 (isNearest (centers_of st) k) pixels assignments /\
    length (centers_of st') = k /\
    length (clusterSizes_of st') = k /\
    sum_list (clusterSizes_of st') = length pixels /\
    iterations st' = S (iterations st) /\
    forall i, (i < k)%nat ->
      clusterSizes_of st' !! i = Some (length (members pixels assignments i)) /\
      (members pixels assignments i = [] ->
         centers_of st' !! i = centers_of st !! i) /\
      (members pixels assignments i <> [] ->
         exists c, centers_of st' !! i = Some c /\
                   isRoundedMean (members pixels assignments i) c).
Proof.
  intros Hk Hlen Hit. unfold iteration in Hit.
  assert (Hne : centers_of st <> [])
    by (destruct (centers_of st); simpl in *; [lia | congruence]).
  destruct (assignPixelsToCenters_spec pixels (centers_of st) Hne) as
    (assignments & sizes & Hassign & Hnear & Hsizes & Hcount & Hsum).
  rewrite Hlen in *. rewrite Hassign in Hit. simpl in Hit.
  destruct (Forall2_isNearest_bound _ _ _ _ Hnear) as [Hlen_a Hbound].
  destruct (updateCenters_cases pixels assignments sizes (centers_of st) k
              Hlen_a Hbound Hsizes Hlen) as (newCenters & Hupd & Hlen' & Hcases).
  rewrite Hupd in Hit. simpl in Hit.
  destruct (everyClose_spec (centers_of st) newCenters ltac:(lia)) as (b' & Hev & _).
  rewrite Hev in Hit. simpl in Hit. injection Hit as <- <-. simpl.
  exists assignments. repeat (split; [assumption || reflexivity|]).
  intros i Hi. rewrite (members_length pixels assignments i Hlen_a).
  split; [apply Hcount; exact Hi|].
  destruct (Hcases i _ (Hcount i Hi)) as [Hzero Hpos].
  pose proof (members_length pixels assignments i Hlen_a) as Hml. split.
  - intros Hnil. apply Hzero. rewrite <- Hml, Hnil. reflexivity.
  - intros Hnn.
    assert (Hc : (0 < clusterCount assignments i)%nat).
    { rewrite <- Hml. destruct (members pixels assignments i); [congruence | simpl; lia]. }
    destruct (Hpos Hc) as (c & Hc' & _ & _ & _ & Hmean). eauto.
Qed.

Lemma stateAfter_last (pixels : list rgb) (k : nat) (j : nat) :
  forall st0 st, stateAfter pixels k (S j) st0 = Ok st ->
    exists before b, stateAfter pixels k j st0 = Ok before /\
                     iteration pixels k before = Ok (st, b).
Proof.
  induction j as [|j IH]; intros st0 st H; simpl in H.
  - destruct (iteration pixels k st0) as [[st1 b]|e] eqn:Hit; [|discriminate].
    simpl in H. injection H as <-. exists st0, b. auto.
  - destruct (iteration pixels k st0) as [[st1 b]|e] eqn:Hit; [|discriminate].
    simpl in H. destruct (IH st1 st H) as (before & b' & Hbefore & Hlast).
    exists before, b'. split; [|exact Hlast]. simpl. rewrite Hit. exact Hbefore.
Qed.

Lemma stateAfter_length (pixels : list rgb) (k : nat) (j : nat) :
  (1 <= k)%nat ->
  forall st0 st, length (centers_of st0) = k -> stateAfter pixels k j st0 = Ok st ->
    length (centers_of st) = k.
Proof.
  intros Hk. induction j as [|j IH]; intros st0 st Hlen H; simpl in H.
  - injection H as <-. exact Hlen.
  - destruct (iteration_spec pixels k st0 Hk Hlen) as
      (newCenters & sizes & b & Hit & _ & Hlen' & _).
    rewrite Hit in H. simpl in H.
    apply (IH (LoopState newCenters sizes (S (iterations st0))) st Hlen' H).
Qed.

(** A property of the centers that every pass keeps holds after any number
    of passes. *)
Lemma stateAfter_invariant (P : list rgb -> Prop) (pixels : list rgb) (k : nat) :
  (1 <= k)%nat ->
  (forall st st' b, length (centers_of st) = k -> P (centers_of st) ->
     iteration pixels k st = Ok (st', b) -> P (centers_of st')) ->
  forall j st st',
    length (centers_of st) = k -> P (centers_of st) ->
    stateAfter pixels k j st = Ok st' -> P (centers_of st').
Proof.
  intros Hk Hstep. induction j as [|j IH]; intros st st' Hlen HP H; simpl in H.
  - injection H as <-. exact HP.
  - destruct (iteration_spec pixels k st Hk Hlen) as
      (newCenters & sizes & b & Hit & _ & Hlen' & _).
    pose proof (Hstep _ _ _ Hlen HP Hit) as HP'.
    rewrite Hit in H. simpl in H.
    exact (IH (LoopState newCenters sizes (S (iterations st))) st' Hlen' HP' H).
Qed.

(** A property that holds of every pixel, of every center carried over and
    of the rounded mean of pixels that have it, is kept by every pass. *)
Lemma iteration_keeps (P : rgb -> Prop) (pixels : list rgb) (k : nat) :
  (1 <= k)%nat -> Forall P pixels ->
  (forall l c, l <> [] -> Forall P l -> isRoundedMean l c -> P c) ->
  forall st st' b, length (centers_of st) = k -> Forall P (centers_of st) ->
    iteration pixels k st = Ok (st', b) -> Forall P (centers_of st').
Proof.
  intros Hk Hpix Hmean st st' b Hlen Hold Hit.
  destruct (iteration_clusters pixels k st st' b Hk Hlen Hit) as
    (assignments & _ & Hlen' & _ & _ & _ & Hcl).
  apply Forall_lookup_2. intros i c Hc.
  assert (Hi : (i < k)%nat) by (rewrite <- Hlen'; eapply lookup_lt_Some; eauto).
  destruct (Hcl i Hi) as (_ & Hnil & Hnn).
  destruct (members pixels assignments i) as [|m ms] eqn:Hm.
  - rewrite (Hnil eq_refl) in Hc. eapply Forall_lookup_1; eauto.
  - destruct (Hnn ltac:(discriminate)) as (c' & Hc' & Hrm).
    rewrite Hc in Hc'. injection Hc' as <-.
    apply (Hmean (m :: ms)); [discriminate | | exact Hrm].
    rewrite <- Hm. apply members_subset. exact Hpix.
Qed.

Lemma roundsTo_between (total : Z) (n : nat) (m lo hi : Z) :
  (0 < n)%nat -> lo * Z.of_nat n <= total <= hi * Z.of_nat n ->
  roundsTo total n m -> lo <= m <= hi.
Proof. unfold roundsTo. intros Hn Ht [H1 H2]. nia. Qed.

Lemma roundsTo_unique (total : Z) (n : nat) (m m' : Z) :
  (0 < n)%nat -> roundsTo total n m -> roundsTo total n m' -> m = m'.
Proof. unfold roundsTo. intros Hn [H1 H2] [H1' H2']. nia. Qed.

Lemma channelTotal_between (ch : rgb -> Z) (lo hi : Z) (l : list rgb) :
  Forall (fun p => lo <= ch p <= hi) l ->
  lo * Z.of_nat (length l) <= channelTotal ch l <= hi * Z.of_nat (length l).
Proof.
  induction 1 as [|p l Hp _ IH]; simpl length; simpl channelTotal; [lia|].
  rewrite Nat2Z.inj_succ. lia.
Qed.

Lemma isRoundedMean_withinBox (lo hi : rgb) (l : list rgb) (c : rgb) :
  l <> [] -> Forall (withinBox lo hi) l -> isRoundedMean l c -> withinBox lo hi c.
Proof.
  intros Hne Hall (H0 & H1 & H2).
  assert (Hlen : (0 < length l)%nat) by (destruct l; [congruence | simpl; lia]).
  split; [|split].
  - apply (roundsTo_between _ _ _ _ _ Hlen (channelTotal_between ch0 _ _ l
             ltac:(eapply Forall_impl; [exact Hall | intros p Hp; apply Hp])) H0).
  - apply (roundsTo_between _ _ _ _ _ Hlen (channelTotal_between ch1 _ _ l
             ltac:(eapply Forall_impl; [exact Hall | intros p Hp; apply Hp])) H1).
  - apply (roundsTo_between _ _ _ _ _ Hlen (channelTotal_between ch2 _ _ l
             ltac:(eapply Forall_impl; [exact Hall | intros p Hp; apply Hp])) H2).
Qed.

Lemma channelTotal_ext (f g : rgb -> Z) (l : list rgb) :
  Forall (fun p => f p = g p) l -> channelTotal f l = channelTotal g l.
Proof. induction 1 as [|p l Hp _ IH]; simpl; [reflexivity | rewrite Hp, IH; reflexivity]. Qed.

Lemma isRoundedMean_grey (l : list rgb) (c : rgb) :
  l <> [] -> Forall isGrey l -> isRoundedMean l c -> isGrey c.
Proof.
  intros Hne Hall (H0 & H1 & H2).
  assert (Hlen : (0 < length l)%nat) by (destruct l; [congruence | simpl; lia]).
  assert (E01 : channelTotal ch0 l = channelTotal ch1 l).
  { apply channelTotal_ext. eapply Forall_impl; [exact Hall | intros p Hp; apply Hp]. }
  assert (E12 : channelTotal ch1 l = channelTotal ch2 l).
  { apply channelTotal_ext. eapply Forall_impl; [exact Hall | intros p Hp; apply Hp]. }
  split.
  - rewrite E01 in H0. exact (roundsTo_unique _ _ _ _ Hlen H0 H1).
  - rewrite E12 in H1. exact (roundsTo_unique _ _ _ _ Hlen H1 H2).
Qed.

(** ** Whole runs: clusters, ranges, percentages *)

Lemma Array_sort_sorted_id (l : list ranked) :
  StronglySorted notBelow l -> Array_sort l = l.
Proof.
  induction 1 as [|x l Hl IH Hx]; [reflexivity|].
  simpl. rewrite IH. destruct l as [|y l']; [reflexivity|]. simpl.
  inversion Hx as [|? ? (px & py & Hpx & Hpy & Hle) _]; subst.
  unfold sortsAfter, comparefn. rewrite Hpx, Hpy.
  destruct (Qle_bool (py - px) 0) eqn:Hc; [reflexivity|].
  assert (Hc' : Qle_bool (py - px) 0 = true) by (apply Qle_bool_iff; lra).
  congruence.
Qed.

Lemma Array_sort_NaN (l : list ranked) :
  Forall (fun it => percentage it = None) l -> Array_sort l = l.
Proof.
  induction 1 as [|x l Hx Hl IH]; [reflexivity|].
  simpl. rewrite IH. destruct l as [|y l']; [reflexivity|]. simpl.
  unfold sortsAfter, comparefn. rewrite Hx. reflexivity.
Qed.

Lemma percentageSum_Permutation (l l' : list ranked) :
  l ≡ₚ l' -> (percentageSum l == percentageSum l')%Q.
Proof.
  induction 1 as [|x l l' _ IH|x y l|l l' l'' _ IH1 _ IH2]; simpl.
  - reflexivity.
  - rewrite IH. reflexivity.
  - lra.
  - rewrite IH1. exact IH2.
Qed.

Lemma unsorted_cons (c : rgb) (centers : list rgb) (size : nat) (sizes : list nat)
    (pixelCount : nat) :
  unsorted (c :: centers) (size :: sizes) pixelCount
  = Ranked c (percentageOf [size] pixelCount 0) :: unsorted centers sizes pixelCount.
Proof. unfold unsorted. rewrite imap_cons. reflexivity. Qed.

Lemma unsorted_nil_sizes (centers : list rgb) (pixelCount : nat) :
  unsorted centers [] pixelCount = map (fun c => Ranked c None) centers.
Proof.
  unfold unsorted. apply list_eq. intros i.
  rewrite list_lookup_imap, list_lookup_fmap. reflexivity.
Qed.

Lemma percentageSum_unsorted (pixelCount : nat) (centers : list rgb) :
  forall sizes, length sizes = length centers ->
    (percentageSum (unsorted centers sizes pixelCount)
     == inject_Z (Z.of_nat (sum_list sizes)) / inject_Z (Z.of_nat pixelCount) * 100)%Q.
Proof.
  induction centers as [|c centers IH]; intros [|size sizes] Hlen;
    simpl in Hlen; try discriminate.
  - simpl. change (inject_Z 0) with 0%Q. unfold Qdiv. rewrite !Qmult_0_l. reflexivity.
  - rewrite unsorted_cons. simpl percentageSum. rewrite (IH sizes ltac:(lia)).
    simpl sum_list. rewrite Nat2Z.inj_add, inject_Z_plus.
    unfold percentageOf. simpl. unfold Qdiv. lra.
Qed.

Section RunProperties.

Variable random : nat -> Q.
Hypothesis random_range : forall n, (0 <= random n < 1)%Q.

(** A property of colours that holds of every pixel and passes to rounded
    means holds of every colour a run returns. *)
Lemma kMeansClustering_keeps (P : rgb -> Prop) (pixels : list rgb)
    (colorCount maxIterations n : nat) :
  pixels <> [] -> (1 <= colorCount)%nat -> Forall P pixels ->
  (forall l c, l <> [] -> Forall P l -> isRoundedMean l c -> P c) ->
  exists items n',
    kMeansClustering random pixels colorCount maxIterations n = Ok (items, n') /\
    Forall (fun it => P (color it)) items.
Proof.
  intros Hne Hk Hpix Hmean.
  destruct (kMeansRun_spec random random_range pixels colorCount maxIterations n Hne Hk)
    as (centers & st & passes & Hinit & Hin & _ & Hres & _ & _ & _ & Hafter & _).
  assert (Hlen : (0 < length pixels)%nat) by (destruct pixels; [congruence | simpl; lia]).
  set (k := Nat.min colorCount (length pixels)) in *.
  assert (Hk' : (1 <= k)%nat) by (subst k; lia).
  destruct (kMeansPlusPlusInit_spec random random_range pixels k n Hne Hk') as
    (centers' & Hinit' & Hclen & _).
  rewrite Hinit in Hinit'. injection Hinit' as <-.
  assert (HP : Forall P (centers_of st)).
  { apply (stateAfter_invariant (Forall P) pixels k Hk'
             (iteration_keeps P pixels k Hk' Hpix Hmean)
             passes (LoopState centers [] 0) st Hclen); [|exact Hafter].
    simpl. eapply Forall_impl; [exact Hin|]. intros c Hc. simpl in Hc.
    rewrite Forall_forall in Hpix. auto. }
  eexists _, _. split; [exact Hres|].
  apply (proj1 (Forall_fmap color P _)).
  rewrite (rank_colors (centers_of st) (clusterSizes_of st) (length pixels)). exact HP.
Qed.

(** X9. For every run on a non-empty pixel list with colorCount >= 1, a run
    returns no colour outside the range of the image: if every pixel has
    each channel between the same channel of [lo] and of [hi], so has every
    returned colour (seeds are pixels, new centers are rounded means, and
    carried centers were in range before). *)
Theorem kMeansClustering_within_box (lo hi : rgb) (pixels : list rgb)
    (colorCount maxIterations n : nat) :
  pixels <> [] -> (1 <= colorCount)%nat -> Forall (withinBox lo hi) pixels ->
  exists items n',
    kMeansClustering random pixels colorCount maxIterations n = Ok (items, n') /\
    Forall (fun it => withinBox lo hi (color it)) items.
Proof.
  intros Hne Hk Hpix.
  apply (kMeansClustering_keeps (withinBox lo hi)); auto.
  apply isRoundedMean_withinBox.
Qed.

(** X10. A grey image gives a grey palette: for every run on a non-empty
    pixel list with colorCount >= 1, if every pixel has r = g = b then so
    has every returned colour. *)
Theorem kMeansClustering_grey (pixels : list rgb) (colorCount maxIterations n : nat) :
  pixels <> [] -> (1 <= colorCount)%nat -> Forall isGrey pixels ->
  exists items n',
    kMeansClustering random pixels colorCount maxIterations n = Ok (items, n') /\
    Forall (fun it => isGrey (color it)) items.
Proof.
  intros Hne Hk Hpix.
  apply (kMeansClustering_keeps isGrey); auto.
  apply isRoundedMean_grey.
Qed.

(** X11. What the last pass leaves, for every run on a non-empty pixel list
    with colorCount >= 1 and maxIterations >= 1: the returned sizes are
    those of the Assignment to the centers before the last Update; they add
    up to pixelCount; every cluster that got pixels has as its returned
    center the per-channel rounded mean of exactly those pixels, and a
    cluster that got none has the center it had before. *)
Theorem kMeansRun_final_clusters (pixels : list rgb) (colorCount maxIterations n : nat) :
  pixels <> [] -> (1 <= colorCount)%nat -> (1 <= maxIterations)%nat ->
  let k := Nat.min colorCount (length pixels) in
  exists seeds st before assignments,
    kMeansPlusPlusInit random pixels k n = Ok (seeds, (n + k)%nat) /\
    kMeansRun random pixels colorCount maxIterations n = Ok (st, (n + k)%nat) /\
    stateAfter pixels k (iterations st - 1) (LoopState seeds [] 0) = Ok before /\
    Forall2 (isNearest (centers_of before) k) pixels assignments /\
    sum_list (clusterSizes_of st) = length pixels /\
    forall i, (i < k)%nat ->
      clusterSizes_of st !! i = Some (length (members pixels assignments i)) /\
      (members pixels assignments i = [] ->
         centers_of st !! i = centers_of before !! i) /\
      (members pixels assignments i <> [] ->
         exists c, centers_of st !! i = Some c /\
                   isRoundedMean (members pixels assignments i) c).
Proof.
  intros Hne Hk Hmax k.
  destruct (kMeansRun_spec random random_range pixels colorCount maxIterations n Hne Hk)
    as (centers & st & passes & Hinit & _ & Hrun & _ & Hiter & _ & Hge & Hafter & _).
  fold k in Hinit, Hrun, Hafter.
  assert (Hlen : (0 < length pixels)%nat) by (destruct pixels; [congruence | simpl; lia]).
  assert (Hk' : (1 <= k)%nat) by (subst k; lia).
  destruct (kMeansPlusPlusInit_spec random random_range pixels k n Hne Hk') as
    (centers' & Hinit' & Hclen & _).
  rewrite Hinit in Hinit'. injection Hinit' as <-.
  specialize (Hge Hmax). destruct passes as [|j]; [lia|].
  destruct (stateAfter_last pixels k j _ _ Hafter) as (before & b & Hbefore & Hit).
  pose proof (stateAfter_length pixels k j Hk' (LoopState centers [] 0) before
                Hclen Hbefore) as Hblen.
  destruct (iteration_clusters pixels k before st b Hk' Hblen Hit) as
    (assignments & Hnear & _ & _ & Hsum & _ & Hcl).
  exists centers, st, before, assignments.
  rewrite Hiter. replace (S j - 1)%nat with j by lia. auto 10.
Qed.

End RunProperties.

(** ** rgbToHex read back *)

Lemma isByteHex_hexByte (s : string) (x : Z) :
  isByteHex s x ->
  exists hi lo, s = String hi (String lo EmptyString) /\ hexByte hi lo = Some x.
Proof.
  intros (hi & lo & vh & vl & -> & Hh & Hl & ->).
  exists hi, lo. split; [reflexivity|]. unfold hexByte. rewrite Hh, Hl. reflexivity.
Qed.

Lemma rgbToHex_hexToRgb (c : rgb) :
  rgb_ok c ->
  hexToRgb (rgbToHex (ch0 c) (ch1 c) (ch2 c)) = Some c /\
  String.length (rgbToHex (ch0 c) (ch1 c) (ch2 c)) = 7%nat.
Proof.
  intros Hok. destruct (rgbToHex_spec c Hok) as (hr & hg & hb & Heq & Hr & Hg & Hb).
  apply isByteHex_hexByte in Hr, Hg, Hb.
  destruct Hr as (r1 & r2 & -> & Hr), Hg as (g1 & g2 & -> & Hg), Hb as (b1 & b2 & -> & Hb).
  rewrite Heq. simpl. rewrite Hr, Hg, Hb. simpl. destruct c; auto.
Qed.

(** X12. On channels in [0,255] rgbToHex loses nothing: the string has
    exactly 7 characters, reading its three pairs of lowercase hexadecimal
    digits gives the colour back, and so two different colours never get
    the same string. *)
Theorem rgbToHex_round_trip (c c' : rgb) :
  rgb_ok c ->
  hexToRgb (rgbToHex (ch0 c) (ch1 c) (ch2 c)) = Some c /\
  String.length (rgbToHex (ch0 c) (ch1 c) (ch2 c)) = 7%nat /\
  (rgb_ok c' ->
   rgbToHex (ch0 c) (ch1 c) (ch2 c) = rgbToHex (ch0 c') (ch1 c') (ch2 c') ->
   c = c').
Proof.
  intros Hok. destruct (rgbToHex_hexToRgb c Hok) as [Hback Hlen].
  split; [exact Hback|]. split; [exact Hlen|].
  intros Hok' Heq. destruct (rgbToHex_hexToRgb c' Hok') as [Hback' _].
  rewrite Heq, Hback' in Hback. congruence.
Qed.

Lemma rgbToHex_round_trip_witness :
  hexToRgb (rgbToHex 42 59 76) = Some (RGB 42 59 76) /\
  String.length (rgbToHex 42 59 76) = 7%nat.
Proof.
  destruct (rgbToHex_round_trip (RGB 42 59 76) (RGB 0 0 0)) as (H1 & H2 & _).
  - unfold rgb_ok, channel_ok. simpl. lia.
  - split; [exact H1 | exact H2].
Defined.

(** ** Whole runs: percentages, no pass, one colour, the pipeline *)

Lemma toFixed1_Qeq (q q' : Q) :
  (q == q')%Q -> JS.toFixed1 (Some q) = JS.toFixed1 (Some q').
Proof.
  intros H. unfold JS.toFixed1.
  assert (E : Qfloor (q * 10 + (1 # 2)) = Qfloor (q' * 10 + (1 # 2)))
    by (apply Qfloor_comp; rewrite H; reflexivity).
  rewrite E. reflexivity.
Qed.

Section RunPercentages.

Variable random : nat -> Q.
Hypothesis random_range : forall n, (0 <= random n < 1)%Q.

(** The ranked items of a run with at least one pass, in terms of its final
    state. *)
Lemma kMeansClustering_ranked (pixels : list rgb) (colorCount maxIterations n : nat) :
  pixels <> [] -> (1 <= colorCount)%nat -> (1 <= maxIterations)%nat ->
  exists st n',
    kMeansClustering random pixels colorCount maxIterations n
      = Ok (rank (centers_of st) (clusterSizes_of st) (length pixels), n') /\
    length (centers_of st) = Nat.min colorCount (length pixels) /\
    (Forall rgb_ok pixels -> Forall rgb_ok (centers_of st)) /\
    let items := rank (centers_of st) (clusterSizes_of st) (length pixels) in
    Forall (fun it => exists q, percentage it = Some q /\ (0 <= q <= 100)%Q) items /\
    StronglySorted notBelow items /\
    (percentageSum items == 100)%Q.
Proof.
  intros Hne Hk Hmax.
  destruct (kMeansRun_spec random random_range pixels colorCount maxIterations n Hne Hk)
    as (centers & st & passes & _ & _ & _ & Hres & _ & _ & _ & _ & _ & _ & Hclen
          & Hsizes & Hok).
  destruct (Hsizes Hmax) as [Hslen Hsum].
  assert (Hlen : (0 < length pixels)%nat) by (destruct pixels; [congruence | simpl; lia]).
  assert (Hn : (0 < inject_Z (Z.of_nat (length pixels)))%Q)
    by (unfold Qlt; simpl; lia).
  exists st. eexists. split; [exact Hres|]. split; [exact Hclen|]. split; [exact Hok|].
  cbv zeta.
  assert (Hperm : rank (centers_of st) (clusterSizes_of st) (length pixels)
                  ≡ₚ unsorted (centers_of st) (clusterSizes_of st) (length pixels))
    by apply Array_sort_Permutation.
  split; [|split].
  - rewrite Hperm. apply Forall_lookup_2. intros i it Hit.
    rewrite unsorted_lookup in Hit.
    destruct (centers_of st !! i) as [c|] eqn:Hc; [|discriminate].
    injection Hit as <-. simpl.
    apply lookup_lt_Some in Hc.
    destruct (lookup_lt_is_Some_2 (clusterSizes_of st) i) as [size Hsize]; [lia|].
    destruct (percentageOf_value _ _ _ _ Hlen Hsize) as (q & Hq & Hv & Hq0).
    exists q. split; [exact Hq|]. split; [exact Hq0|].
    assert (Hle : (size <= length pixels)%nat).
    { rewrite <- Hsum. apply (sum_list_with_in size id).
      eapply list_elem_of_lookup_2; eauto. }
    rewrite Hv. apply Qle_shift_div_r; [exact Hn|].
    change 100%Q with (inject_Z 100).
    rewrite <- inject_Z_mult, <- Zle_Qle. lia.
  - apply Array_sort_sorted, unsorted_numeric. lia.
  - rewrite (percentageSum_Permutation _ _ Hperm).
    rewrite percentageSum_unsorted by lia. rewrite Hsum. field. lra.
Qed.

(** X13. For every run on a non-empty pixel list with colorCount >= 1 and
    maxIterations >= 1, every returned percentage is a number between 0 and
    100, the list descends by percentage, and the percentages add up to
    100 (in exact arithmetic). *)
Theorem kMeansClustering_percentages (pixels : list rgb)
    (colorCount maxIterations n : nat) :
  pixels <> [] -> (1 <= colorCount)%nat -> (1 <= maxIterations)%nat ->
  exists items n',
    kMeansClustering random pixels colorCount maxIterations n = Ok (items, n') /\
    Forall (fun it => exists q, percentage it = Some q /\ (0 <= q <= 100)%Q) items /\
    StronglySorted notBelow items /\
    (percentageSum items == 100)%Q.
Proof.
  intros Hne Hk Hmax.
  destruct (kMeansClustering_ranked pixels colorCount maxIterations n Hne Hk Hmax)
    as (st & n' & Hres & _ & _ & Hitems).
  exists (rank (centers_of st) (clusterSizes_of st) (length pixels)), n'.
  split; [exact Hres | exact Hitems].
Qed.

(** X14. With maxIterations = 0 (and colorCount >= 1, a non-empty pixel
    list) the run makes no pass: it returns the seeds in the order they
    were drawn, every percentage is NaN, and so every ColorResult shows
    "NaN" as its percentage. *)
Theorem kMeansClustering_no_pass (pixels : list rgb) (colorCount n : nat) :
  pixels <> [] -> (1 <= colorCount)%nat ->
  let k := Nat.min colorCount (length pixels) in
  exists seeds,
    kMeansPlusPlusInit random pixels k n = Ok (seeds, (n + k)%nat) /\
    kMeansClustering random pixels colorCount 0 n
      = Ok (map (fun c => Ranked c None) seeds, (n + k)%nat) /\
    Forall (fun cr => percentage_text cr = "NaN"%string)
           (formatResults (map (fun c => Ranked c None) seeds)).
Proof.
  intros Hne Hk k.
  assert (Hlen : (0 < length pixels)%nat) by (destruct pixels; [congruence | simpl; lia]).
  destruct (kMeansPlusPlusInit_spec random random_range pixels k n Hne ltac:(subst k; lia))
    as (seeds & Hinit & _).
  exists seeds. split; [exact Hinit|]. split.
  - destruct pixels as [|p pixels]; [congruence|].
    unfold kMeansClustering, kMeansRun. fold k.
    unfold mbind at 1. unfold Rand_bind. unfold mbind at 1. unfold Rand_bind.
    rewrite Hinit. simpl kMeansLoop. unfold lift, mret, Rand_ret. simpl centers_of.
    simpl clusterSizes_of. unfold rank. fold (unsorted seeds [] (length (p :: pixels))).
    rewrite unsorted_nil_sizes, Array_sort_NaN; [reflexivity|].
    apply Forall_fmap. apply Forall_true. reflexivity.
  - unfold formatResults. rewrite <- list_fmap_compose.
    apply Forall_fmap. apply Forall_true. reflexivity.
Qed.

End RunPercentages.

(** *** An image of one colour *)

Lemma isNearest_one_colour (p q : rgb) (k a : nat) :
  isNearest (replicate k q) k p a -> a = 0%nat.
Proof.
  intros (Ha & center & Hcenter & Hmin).
  destruct a as [|a]; [reflexivity|]. exfalso.
  apply lookup_replicate in Hcenter. destruct Hcenter as [-> _].
  destruct (Hmin 0%nat q ltac:(lia)) as [_ Hlt].
  - apply lookup_replicate_2. lia.
  - specialize (Hlt ltac:(lia)). lia.
Qed.

Lemma members_all_first (pixels : list rgb) (i : nat) :
  members pixels (replicate (length pixels) 0%nat) i
  = if decide (i = 0%nat) then pixels else [].
Proof.
  induction pixels as [|p pixels IH]; simpl.
  - destruct (decide (i = 0%nat)); reflexivity.
  - rewrite IH. destruct (decide (0%nat = i)) as [<-|Hne].
    + rewrite decide_True by reflexivity. reflexivity.
    + destruct (decide (i = 0%nat)); [congruence | reflexivity].
Qed.

Lemma channelTotal_replicate (ch : rgb -> Z) (n : nat) (p : rgb) :
  channelTotal ch (replicate n p) = Z.of_nat n * ch p.
Proof.
  induction n as [|n IH]; [reflexivity|].
  simpl replicate. simpl channelTotal. rewrite IH. lia.
Qed.

Lemma isRoundedMean_replicate (n : nat) (p c : rgb) :
  isRoundedMean (replicate (S n) p) c -> c = p.
Proof.
  unfold isRoundedMean. rewrite length_replicate, !channelTotal_replicate.
  unfold roundsTo. intros (H0 & H1 & H2).
  destruct c as [c0 c1 c2], p as [p0 p1 p2]. simpl in *. f_equal; nia.
Qed.

Lemma withinThreshold_refl (centers : list rgb) : withinThreshold centers centers.
Proof.
  unfold withinThreshold. induction centers as [|c centers IH]; constructor; [|exact IH].
  unfold colorDistanceSq, CONVERGE_THRESHOLD_SQ. cbv zeta. lia.
Qed.

(** One pass on an image of one colour, from centers that all have it. *)
Lemma iteration_one_colour (p : rgb) (m k : nat) (st : loopState) :
  (1 <= k)%nat -> centers_of st = replicate k p ->
  iteration (replicate (S m) p) k st
  = Ok (LoopState (replicate k p) (S m :: replicate (k - 1) 0%nat)
          (S (iterations st)), true).
Proof.
  intros Hk Hst.
  assert (Hlen : length (centers_of st) = k) by (rewrite Hst; apply length_replicate).
  destruct (iteration_spec (replicate (S m) p) k st Hk Hlen) as
    (newCenters & sizes & b & Hit & Hb & _).
  destruct (iteration_clusters _ _ _ _ _ Hk Hlen Hit) as
    (assignments & Hnear & Hlen' & Hslen & _ & _ & Hcl).
  cbn [centers_of clusterSizes_of] in Hlen', Hslen, Hcl. rewrite Hst in Hnear, Hcl, Hb.
  assert (Hassign : assignments = replicate (length (replicate (S m) p)) 0%nat).
  { symmetry. apply replicate_as_Forall. split.
    - symmetry. eapply Forall2_length; eauto.
    - eapply Forall2_Forall_r; [exact Hnear|]. apply Forall_true.
      intros q a Ha. symmetry. eapply isNearest_one_colour; eauto. }
  rewrite Hassign in Hcl.
  assert (Hnew : newCenters = replicate k p).
  { symmetry. apply replicate_as_Forall. split; [exact Hlen'|].
    apply Forall_lookup_2. intros i c Hc.
    assert (Hi : (i < k)%nat) by (rewrite <- Hlen'; eapply lookup_lt_Some; eauto).
    destruct (Hcl i Hi) as (_ & Hnil & Hnn). rewrite members_all_first in Hnil, Hnn.
    destruct (decide (i = 0%nat)) as [->|Hne].
    - destruct (Hnn ltac:(discriminate)) as (c' & Hc' & Hmean).
      rewrite Hc in Hc'. injection Hc' as <-.
      symmetry. eapply isRoundedMean_replicate; eauto.
    - rewrite (Hnil eq_refl), lookup_replicate_2 in Hc by exact Hi. congruence. }
  assert (Hsizes : sizes = S m :: replicate (k - 1) 0%nat).
  { apply list_eq. intros i. destruct (decide (i < k)%nat) as [Hi|Hi].
    - destruct (Hcl i Hi) as (Hsz & _). rewrite Hsz, members_all_first.
      destruct i as [|i]; simpl.
      + rewrite length_replicate. reflexivity.
      + rewrite lookup_replicate_2 by lia. reflexivity.
    - rewrite (lookup_ge_None_2 sizes) by lia.
      symmetry. apply lookup_ge_None_2. simpl. rewrite length_replicate. lia. }
  assert (Hbt : b = true) by (apply Hb; rewrite Hnew; apply withinThreshold_refl).
  rewrite Hit, Hnew, Hsizes, Hbt. reflexivity.
Qed.

Lemma unsorted_empty_clusters (p : rgb) (pixelCount j : nat) :
  unsorted (replicate j p) (replicate j 0%nat) pixelCount
  = replicate j (Ranked p (percentageOf [0%nat] pixelCount 0)).
Proof.
  induction j as [|j IH]; [reflexivity|].
  simpl replicate. rewrite unsorted_cons, IH. reflexivity.
Qed.

Lemma unsorted_one_colour (p : rgb) (m k : nat) :
  (1 <= k)%nat ->
  unsorted (replicate k p) (S m :: replicate (k - 1) 0%nat) (S m)
  = Ranked p (percentageOf [S m] (S m) 0)
      :: replicate (k - 1) (Ranked p (percentageOf [0%nat] (S m) 0)).
Proof.
  intros Hk. destruct k as [|k]; [lia|].
  replace (S k - 1)%nat with k by lia. simpl replicate at 1.
  rewrite unsorted_cons, unsorted_empty_clusters. reflexivity.
Qed.

Section OneColour.

Variable random : nat -> Q.
Hypothesis random_range : forall n, (0 <= random n < 1)%Q.

(** X15. An image of one colour: for S m pixels that are all [p], every
    colorCount >= 1 and maxIterations >= 1 and every random source, the run
    makes exactly one pass and converges; with k = min(colorCount, S m) it
    returns k items that all have the colour [p], the first shown at
    "100.0" and the others, whose clusters stayed empty, at "0.0". *)
Theorem kMeansClustering_one_colour (p : rgb) (m colorCount maxIterations n : nat) :
  (1 <= colorCount)%nat -> (1 <= maxIterations)%nat ->
  let pixels := replicate (S m) p in
  let k := Nat.min colorCount (S m) in
  exists st items,
    kMeansRun random pixels colorCount maxIterations n = Ok (st, (n + k)%nat) /\
    iterations st = 1%nat /\
    clusterSizes_of st = S m :: replicate (k - 1) 0%nat /\
    kMeansClustering random pixels colorCount maxIterations n = Ok (items, (n + k)%nat) /\
    map color items = replicate k p /\
    map percentage_text (formatResults items)
      = "100.0"%string :: replicate (k - 1) "0.0"%string.
Proof.
  intros Hk Hmax pixels k.
  assert (Hne : pixels <> []) by discriminate.
  assert (Hplen : length pixels = S m) by apply length_replicate.
  assert (Hk' : (1 <= k)%nat) by (subst k; lia).
  destruct (kMeansPlusPlusInit_spec random random_range pixels k n Hne Hk') as
    (seeds & Hinit & Hslen & Hin & _).
  assert (Hseeds : seeds = replicate k p).
  { symmetry. apply replicate_as_Forall. split; [exact Hslen|].
    eapply Forall_impl; [exact Hin|]. intros c Hc. simpl in Hc.
    apply elem_of_replicate in Hc. destruct Hc as [-> _]. reflexivity. }
  subst seeds.
  set (st := LoopState (replicate k p) (S m :: replicate (k - 1) 0%nat) 1).
  assert (Hrun : kMeansRun random pixels colorCount maxIterations n = Ok (st, (n + k)%nat)).
  { unfold kMeansRun. rewrite Hplen. fold k. rand_step Hinit. apply lift_Ok.
    destruct maxIterations as [|M]; [lia|]. simpl kMeansLoop.
    unfold pixels.
    rewrite (iteration_one_colour p m k (LoopState (replicate k p) [] 0) Hk' eq_refl).
    reflexivity. }
  exists st, (rank (centers_of st) (clusterSizes_of st) (S m)).
  split; [exact Hrun|]. split; [reflexivity|]. split; [reflexivity|]. split.
  { destruct (kMeansRun_spec random random_range pixels colorCount maxIterations n Hne Hk)
      as (seeds' & st' & passes & _ & _ & Hrun' & Hres & _).
    rewrite Hrun in Hrun'. injection Hrun' as <-.
    rewrite Hres, Hplen. reflexivity. }
  assert (Hfull : exists q, percentageOf [S m] (S m) 0 = Some q /\ (q == 100)%Q).
  { unfold percentageOf. simpl lookup. eexists. split; [reflexivity|].
    field. unfold Qeq. simpl. lia. }
  assert (Hnone : exists q, percentageOf [0%nat] (S m) 0 = Some q /\ (q == 0)%Q).
  { unfold percentageOf. simpl lookup. eexists. split; [reflexivity|].
    change (inject_Z (Z.of_nat 0)) with 0%Q. unfold Qdiv. rewrite !Qmult_0_l. reflexivity. }
  destruct Hfull as (q1 & Hq1 & Hq1v), Hnone as (q0 & Hq0 & Hq0v).
  assert (Hrank : rank (centers_of st) (clusterSizes_of st) (S m)
                  = Ranked p (Some q1) :: replicate (k - 1) (Ranked p (Some q0))).
  { unfold rank. simpl centers_of. simpl clusterSizes_of.
    fold (unsorted (replicate k p) (S m :: replicate (k - 1) 0%nat) (S m)).
    rewrite (unsorted_one_colour p m k Hk'), Hq1, Hq0.
    apply Array_sort_sorted_id. constructor.
    - generalize (k - 1)%nat. intros j. induction j as [|j IH]; simpl; constructor; auto.
      apply Forall_replicate. exists q0, q0. repeat split; auto. lra.
    - apply Forall_replicate. exists q1, q0. repeat split; auto. lra. }
  rewrite Hrank. split.
  - simpl. rewrite fmap_replicate. simpl.
    change (p :: replicate (k - 1) p) with (replicate (S (k - 1)) p).
    replace (S (k - 1)) with k by lia. reflexivity.
  - unfold formatResults.
    change (map percentage_text (map formatItem
              (Ranked p (Some q1) :: replicate (k - 1) (Ranked p (Some q0)))))
      with (JS.toFixed1 (Some q1)
              :: (percentage_text <$> (formatItem <$> replicate (k - 1) (Ranked p (Some q0))))).
    rewrite !fmap_replicate.
    change (percentage_text (formatItem (Ranked p (Some q0))))
      with (JS.toFixed1 (Some q0)).
    rewrite (toFixed1_Qeq q1 100 Hq1v), (toFixed1_Qeq q0 0 Hq0v). reflexivity.
Qed.

(** X16. The pipeline of extractColors from the RGBA bytes on: with
    colorCount >= 1 it returns min(colorCount, number of texels with
    alpha > 0) ColorResults (none for a fully transparent image); on bytes
    in [0,255] every result has r, g, b in [0,255] and a hex string that
    reads back as exactly these three values. *)
Theorem extractColors_pipeline (texels : list (rgb * Z)) (rest : list Z)
    (colorCount maxIterations n : nat) :
  (length rest < 4)%nat -> (1 <= colorCount)%nat ->
  exists results n',
    extractColors random (encodeTexels texels ++ rest) colorCount maxIterations n
      = Ok (results, n') /\
    length results = Nat.min colorCount (length (opaqueTexels texels)) /\
    (Forall (fun t => rgb_ok (fst t)) texels ->
     Forall (fun cr => rgb_ok (RGB (r cr) (g cr) (b cr)) /\
                       hexToRgb (hex cr) = Some (RGB (r cr) (g cr) (b cr)))
            results).
Proof.
  intros Hrest Hk. unfold extractColors. rewrite (samplePixels_encode texels rest Hrest).
  destruct (opaqueTexels texels) as [|p pixels] eqn:Hop.
  - exists [], n. split; [reflexivity|]. split; [simpl; lia | constructor].
  - destruct (kMeansRun_spec random random_range (p :: pixels) colorCount maxIterations n
                ltac:(discriminate) Hk) as
      (centers & st & passes & _ & _ & _ & Hres & _ & _ & _ & _ & _ & _ & Hclen & _ & Hok).
    eexists _, _. split; [rand_step Hres; reflexivity|].
    split; [unfold formatResults; rewrite length_map, rank_length; exact Hclen|].
    intros Htex.
    assert (Hpix : Forall rgb_ok (p :: pixels)).
    { rewrite <- Hop. unfold opaqueTexels. apply Forall_fmap.
      apply Forall_forall. intros t Ht. apply list_elem_of_In, filter_In in Ht.
      destruct Ht as [Ht _]. apply list_elem_of_In in Ht.
      rewrite Forall_forall in Htex. auto. }
    assert (Hitems : Forall (fun it => rgb_ok (color it))
                       (rank (centers_of st) (clusterSizes_of st) (length (p :: pixels)))).
    { apply (proj1 (Forall_fmap color rgb_ok _)).
      rewrite (rank_colors (centers_of st) (clusterSizes_of st) (length (p :: pixels))).
      exact (Hok Hpix). }
    unfold formatResults. apply Forall_fmap.
    eapply Forall_impl; [exact Hitems|].
    intros [[c0 c1 c2] q] Hc. unfold compose. cbn [r g b hex formatItem color] in *.
    destruct (rgbToHex_hexToRgb (RGB c0 c1 c2) Hc) as [Hback _].
    cbn [ch0 ch1 ch2] in *. split; [exact Hc | exact Hback].
Qed.

End OneColour.


(** * The result helper of the examples *)

(** ** Number.parseFloat on what toFixed(1) prints *)

Lemma decimalDigits_uint (d : Decimal.uint) (rest : string) :
  match rest with
  | String c _ => isDecimalDigit c = false
  | EmptyString => True
  end ->
  decimalDigits (DecimalString.NilEmpty.string_of_uint d +:+ rest)
  = (DecimalString.NilEmpty.string_of_uint d, rest).
Proof.
  intros Hrest. induction d as [|d IH|d IH|d IH|d IH|d IH|d IH|d IH|d IH|d IH|d IH];
    try (simpl; rewrite IH; reflexivity).
  simpl. destruct rest as [|c rest]; [reflexivity|].
  simpl. rewrite Hrest. reflexivity.
Qed.

Lemma digitsValueFrom_acc (d : Decimal.uint) (acc : positive) :
  digitsValueFrom (Z.pos acc) (DecimalString.NilEmpty.string_of_uint d)
  = Z.pos (Pos.of_uint_acc d acc).
Proof.
  revert acc.
  induction d as [|d IH|d IH|d IH|d IH|d IH|d IH|d IH|d IH|d IH|d IH]; intros acc;
    [reflexivity|..];
    cbn [DecimalString.NilEmpty.string_of_uint digitsValueFrom Pos.of_uint_acc];
    rewrite <- IH; f_equal;
    match goal with
    | |- context [Z.of_nat (nat_of_ascii ?c)] =>
        let v := eval vm_compute in (Z.of_nat (nat_of_ascii c)) in
        change (Z.of_nat (nat_of_ascii c)) with v
    end; lia.
Qed.

Lemma digitsValue_uint (d : Decimal.uint) :
  digitsValue (DecimalString.NilEmpty.string_of_uint d) = Z.of_uint d.
Proof.
  unfold digitsValue, Z.of_uint.
  induction d as [|d IH|d IH|d IH|d IH|d IH|d IH|d IH|d IH|d IH|d IH];
    [reflexivity | exact IH |..];
    cbn [DecimalString.NilEmpty.string_of_uint digitsValueFrom Pos.of_uint Z.of_N];
    apply (digitsValueFrom_acc d).
Qed.

Lemma toString10_uint (a : Z) :
  0 <= a ->
  exists d, JS.toString10 a = DecimalString.NilEmpty.string_of_uint d /\
            d <> Decimal.Nil /\ Z.of_uint d = a.
Proof.
  intros Ha. unfold JS.toString10.
  destruct a as [|p|p]; [| |lia].
  - exists (Decimal.D0 Decimal.Nil). split; [reflexivity|]. split; [discriminate | reflexivity].
  - exists (Pos.to_uint p). split.
    + simpl. unfold DecimalString.NilZero.string_of_uint.
      pose proof (DecimalPos.Unsigned.to_uint_nonnil p) as Hnn.
      destruct (Pos.to_uint p); [congruence | reflexivity..].
    + split; [apply DecimalPos.Unsigned.to_uint_nonnil|].
      unfold Z.of_uint. rewrite DecimalPos.Unsigned.of_to. reflexivity.
Qed.

Lemma string_of_uint_length (d : Decimal.uint) :
  d <> Decimal.Nil -> (0 < String.length (DecimalString.NilEmpty.string_of_uint d))%nat.
Proof. destruct d; [congruence | simpl; lia..]. Qed.

Lemma unsignedDecimalLiteral_fixed (d : Decimal.uint) (b : Z) :
  d <> Decimal.Nil -> 0 <= b < 10 -> Z.of_uint d * 10 + b < 10 ^ 15 ->
  unsignedDecimalLiteral
    (DecimalString.NilEmpty.string_of_uint d +:+ "." +:+ JS.toString10 b)
  = Ok (Some (inject_Z (Z.of_uint d * 10 ^ 1 + b) / inject_Z (10 ^ 1))%Q).
Proof.
  intros Hd Hb Hlt. unfold unsignedDecimalLiteral.
  rewrite decimalDigits_uint by reflexivity.
  change ("." +:+ JS.toString10 b)%string with (String "." (JS.toString10 b)).
  cbv iota beta.
  assert (Hfrac : decimalDigits (JS.toString10 b) = (JS.toString10 b, EmptyString) /\
                  String.length (JS.toString10 b) = 1%nat /\
                  digitsValue (JS.toString10 b) = b).
  { assert (H : b = 0 \/ b = 1 \/ b = 2 \/ b = 3 \/ b = 4 \/ b = 5 \/ b = 6
                \/ b = 7 \/ b = 8 \/ b = 9) by lia.
    repeat (destruct H as [->|H]; [repeat split; reflexivity|]).
    subst b. repeat split; reflexivity. }
  destruct Hfrac as (-> & Hlen & Hval). rewrite Hlen, Hval, digitsValue_uint.
  pose proof (string_of_uint_length d Hd) as Hpos.
  destruct (Nat.eqb_spec (String.length (DecimalString.NilEmpty.string_of_uint d) + 1) 0);
    [lia|].
  cbn [startsExponentPart].
  change (Z.of_nat 1) with 1.
  destruct (Z.ltb_spec (Z.of_uint d * 10 ^ 1 + b) (10 ^ 15)); [reflexivity | lia].
Qed.

Lemma toFixed1_floor_nonneg (q : Q) : (0 <= q)%Q -> 0 <= Qfloor (q * 10 + (1 # 2)).
Proof.
  intros Hq. change 0 with (Qfloor 0). apply Qfloor_resp_le. lra.
Qed.

(** What [parseFloat] reads from the text [toFixed(1)] prints for [q]. *)
Lemma parseFloat_toFixed1 (q : Q) :
  (0 <= q)%Q -> Qfloor (q * 10 + (1 # 2)) < 10 ^ 15 ->
  exists v, parseFloat (JS.toFixed1 (Some q)) = Ok (Some v) /\
            (v == inject_Z (Qfloor (q * 10 + (1 # 2))) / 10)%Q.
Proof.
  intros Hq Hlt. pose proof (toFixed1_floor_nonneg q Hq) as Hn.
  unfold JS.toFixed1. set (n := Qfloor (q * 10 + (1 # 2))) in *.
  assert (Ha : 0 <= n / 10) by (apply Z.div_pos; lia).
  assert (Hb : 0 <= n mod 10 < 10) by (apply Z.mod_pos_bound; lia).
  destruct (toString10_uint (n / 10) Ha) as (d & Hstr & Hd & Hval).
  pose proof (Z.div_mod n 10 ltac:(lia)) as Hdm.
  eexists. split.
  - cbv zeta. rewrite Hstr.
    assert (Hrun : unsignedDecimalLiteral
                     (DecimalString.NilEmpty.string_of_uint d +:+ "." +:+ JS.toString10 (n mod 10))
                   = Ok (Some (inject_Z (Z.of_uint d * 10 ^ 1 + n mod 10) / inject_Z (10 ^ 1))%Q))
      by (apply unsignedDecimalLiteral_fixed; [exact Hd | exact Hb | lia]).
    revert Hrun.
    destruct d; [congruence | intros Hrun; simpl parseFloat; exact Hrun..].
  - rewrite Hval. change (10 ^ 1) with 10. change (inject_Z 10) with 10%Q.
    replace (n / 10 * 10 + n mod 10) with n by lia. reflexivity.
Qed.

(** ** processColorResults *)

Lemma Qfloor_lt_Z (x : Q) (k : Z) : (x < inject_Z k)%Q -> Qfloor x < k.
Proof.
  intros H. pose proof (Qfloor_le x) as Hle.
  rewrite Zlt_Qlt. lra.
Qed.

Lemma Qfloor_ge_Z (x : Q) (k : Z) : (inject_Z k <= x)%Q -> k <= Qfloor x.
Proof.
  intros H. rewrite <- (Qfloor_Z k). apply Qfloor_resp_le. exact H.
Qed.

Lemma above10_toFixed1 (q : Q) :
  (0 <= q <= 100)%Q ->
  exists v, parseFloat (JS.toFixed1 (Some q)) = Ok (Some v) /\
            (above10 (Some v) = true <-> (201 # 20 <= q)%Q).
Proof.
  intros [Hq0 Hq1].
  assert (Hn : Qfloor (q * 10 + (1 # 2)) < 10 ^ 15).
  { apply Z.lt_trans with 1001; [|reflexivity].
    apply Qfloor_lt_Z. change (inject_Z 1001) with 1001%Q. lra. }
  destruct (parseFloat_toFixed1 q Hq0 Hn) as (v & Hrun & Hv).
  exists v. split; [exact Hrun|].
  unfold above10. rewrite negb_true_iff, <- not_true_iff_false, Qle_bool_iff.
  set (n := Qfloor (q * 10 + (1 # 2))) in *.
  assert (Hv' : (v == inject_Z n * (1 # 10))%Q) by (rewrite Hv; field).
  rewrite Hv'. clear Hv Hv'.
  split.
  - intros Habove.
    assert (H101 : 101 <= n).
    { destruct (Z_lt_le_dec n 101) as [Hlt|]; [|assumption].
      exfalso. apply Habove.
      assert (Hle : (inject_Z n <= inject_Z 100)%Q) by (rewrite <- Zle_Qle; lia).
      change (inject_Z 100) with 100%Q in Hle. lra. }
    pose proof (Qfloor_le (q * 10 + (1 # 2))) as Hfl. fold n in Hfl.
    assert (Hle : (inject_Z 101 <= inject_Z n)%Q) by (rewrite <- Zle_Qle; lia).
    change (inject_Z 101) with 101%Q in Hle. lra.
  - intros Hq Hle.
    assert (H101 : 101 <= n).
    { apply Qfloor_ge_Z. change (inject_Z 101) with 101%Q. lra. }
    assert (Hle' : (inject_Z 101 <= inject_Z n)%Q) by (rewrite <- Zle_Qle; lia).
    change (inject_Z 101) with 101%Q in Hle'. lra.
Qed.

Lemma filterSignificant_sorted (items : list ranked) :
  StronglySorted notBelow items ->
  Forall (fun it => exists q, percentage it = Some q /\ (0 <= q <= 100)%Q) items ->
  exists j,
    filterSignificant (formatResults items) = Ok (formatResults (take j items)) /\
    (j <= length items)%nat /\
    forall i it q, items !! i = Some it -> percentage it = Some q ->
      ((i < j)%nat -> (201 # 20 <= q)%Q) /\ ((j <= i)%nat -> (q < 201 # 20)%Q).
Proof.
  induction 1 as [|it items Hsorted IH Hfirst]; intros Hall.
  { exists 0%nat. split; [reflexivity|]. split; [simpl; lia|].
    intros i it q Hi. discriminate. }
  inversion Hall as [|? ? (q0 & Hq0 & Hrange) Hall']; subst.
  destruct (IH Hall') as (j & Hrun & Hlen & Hj).
  destruct (above10_toFixed1 q0 Hrange) as (v & Hv & Habove).
  assert (Hstep : filterSignificant (formatResults (it :: items))
                  = Ok (if above10 (Some v)
                        then formatItem it :: formatResults (take j items)
                        else formatResults (take j items))).
  { change (formatResults (it :: items)) with (formatItem it :: formatResults items).
    cbn [filterSignificant].
    change (percentage_text (formatItem it)) with (JS.toFixed1 (percentage it)).
    rewrite Hq0, Hv, Hrun. reflexivity. }
  destruct (above10 (Some v)) eqn:Hsig.
  - exists (S j). split; [exact Hstep|]. split; [simpl; lia|].
    intros [|i] it' q Hi Hq; simpl in Hi.
    + injection Hi as <-. rewrite Hq0 in Hq. injection Hq as <-.
      split; [intros _; apply Habove; reflexivity | lia].
    + destruct (Hj i it' q Hi Hq) as [Hin Hout]. split; intros ?; [apply Hin | apply Hout]; lia.
  - assert (Hlow : (q0 < 201 # 20)%Q).
    { destruct (Qlt_le_dec q0 (201 # 20)) as [|Hge]; [assumption|].
      apply Habove in Hge. congruence. }
    assert (Hrest : forall i it' q, items !! i = Some it' -> percentage it' = Some q ->
                      (q < 201 # 20)%Q).
    { intros i it' q Hi Hq. rewrite Forall_forall in Hfirst.
      destruct (Hfirst it' (list_elem_of_lookup_2 _ _ _ Hi)) as (pa & pb & Hpa & Hpb & Hle).
      rewrite Hq0 in Hpa. injection Hpa as <-. rewrite Hq in Hpb. injection Hpb as <-.
      lra. }
    assert (Hj0 : j = 0%nat).
    { destruct j as [|j]; [reflexivity|]. exfalso.
      destruct items as [|it' items']; [simpl in Hlen; lia|].
      inversion Hall' as [|? ? (q' & Hq' & _) _]; subst.
      destruct (Hj 0%nat it' q' eq_refl Hq') as [Hin _].
      specialize (Hin ltac:(lia)).
      specialize (Hrest 0%nat it' q' eq_refl Hq'). lra. }
    subst j. exists 0%nat. split; [rewrite Hstep; reflexivity|]. split; [simpl; lia|].
    intros [|i] it' q Hi Hq; simpl in Hi.
    + injection Hi as <-. rewrite Hq0 in Hq. injection Hq as <-. split; [lia | auto].
    + split; [lia | intros _; eapply Hrest; eauto].
Qed.

(** X17. Reading a displayed percentage back: [Number.parseFloat] of the
    text that [toFixed(1)] printed for a number q with 0 <= q <= 10^13 is
    the integer nearest to 10 * q (the larger one on a tie) divided by 10,
    which is within 0.05 of q; and the text "NaN" of a [NaN] percentage
    reads as [NaN]. *)
Theorem parseFloat_of_toFixed1 (q : Q) :
  parseFloat (JS.toFixed1 None) = Ok None /\
  ((0 <= q <= inject_Z (10 ^ 13))%Q ->
   exists v, parseFloat (JS.toFixed1 (Some q)) = Ok (Some v) /\
     (v == inject_Z (JS.Math_round (q * 10)) / 10)%Q /\
     (- (1 # 20) <= v - q <= 1 # 20)%Q).
Proof.
  split; [reflexivity|]. intros [Hq0 Hq1].
  assert (Hn : Qfloor (q * 10 + (1 # 2)) < 10 ^ 15).
  { apply Qfloor_lt_Z.
    assert (H : (inject_Z (10 ^ 13) * 10 + 1 <= inject_Z (10 ^ 15))%Q)
      by (unfold Qle; simpl; lia).
    lra. }
  destruct (parseFloat_toFixed1 q Hq0 Hn) as (v & Hrun & Hv).
  exists v. split; [exact Hrun|]. split; [exact Hv|].
  assert (Hv' : (v == inject_Z (Qfloor (q * 10 + (1 # 2))) * (1 # 10))%Q)
    by (rewrite Hv; field).
  pose proof (Qfloor_le (q * 10 + (1 # 2))) as Hlo.
  pose proof (Qlt_floor (q * 10 + (1 # 2))) as Hhi.
  rewrite inject_Z_plus in Hhi. change (inject_Z 1) with 1%Q in Hhi. lra.
Qed.

Lemma filterSignificant_sublist (colors : list ColorResult) :
  Forall (fun c => exists v, parseFloat (percentage_text c) = Ok v) colors ->
  exists significant,
    filterSignificant colors = Ok significant /\ sublist significant colors.
Proof.
  induction 1 as [|c colors (v & Hv) _ (significant & Hrun & Hsub)].
  - exists []. split; [reflexivity | constructor].
  - cbn [filterSignificant]. rewrite Hv, Hrun.
    unfold mbind, result_bind. destruct (above10 v); eexists; (split; [reflexivity|]).
    + apply sublist_skip. exact Hsub.
    + apply sublist_cons. exact Hsub.
Qed.

Lemma fold_left_channel_between (ch : ColorResult -> Z) (lo hi : Z)
    (colors : list ColorResult) :
  Forall (fun c => lo <= ch c <= hi) colors ->
  forall acc,
    acc + lo * Z.of_nat (length colors)
    <= fold_left (fun acc c => acc + ch c) colors acc
    <= acc + hi * Z.of_nat (length colors).
Proof.
  induction 1 as [|c colors Hc _ IH]; intros acc; [simpl; lia|].
  cbn [fold_left]. specialize (IH (acc + ch c)).
  change (length (c :: colors)) with (S (length colors)).
  rewrite Nat2Z.inj_succ. lia.
Qed.

Lemma roundedAverage_between (ch : ColorResult -> Z) (lo hi : Z)
    (colors : list ColorResult) :
  colors <> [] -> Forall (fun c => lo <= ch c <= hi) colors ->
  exists m, roundedAverage (fold_left (fun acc c => acc + ch c) colors 0) (length colors)
            = Some m /\ lo <= m <= hi.
Proof.
  intros Hne Hall. pose proof (fold_left_channel_between ch lo hi colors Hall 0) as Hsum.
  destruct colors as [|c colors]; [congruence|].
  change (length (c :: colors)) with (S (length colors)) in *.
  eexists. split; [reflexivity|].
  eapply (roundsTo_between _ (S (length colors)));
    [| | apply roundedQuotient_roundsTo]; lia.
Qed.

(** X18. processColorResults on a palette of the engine (items that descend
    by percentage, every percentage a number between 0 and 100): it returns
    the first ColorResult as [primaryColor], and [significantColors] is a
    prefix of the palette; an item is in the prefix only if its percentage
    is at least 10.05, and outside it only if its percentage is at most
    10.05, so a colour that covers exactly 10% of the pixels is not
    significant. *)
Theorem processColorResults_palette (items : list ranked) :
  StronglySorted notBelow items ->
  Forall (fun it => exists q, percentage it = Some q /\ (0 <= q <= 100)%Q) items ->
  exists res j,
    processColorResults (formatResults items) = Ok res /\
    primaryColor res = head (formatResults items) /\
    significantColors res = take j (formatResults items) /\
    forall i it q, items !! i = Some it -> percentage it = Some q ->
      ((i < j)%nat -> (201 # 20 <= q)%Q) /\ ((j <= i)%nat -> (q <= 201 # 20)%Q).
Proof.
  intros Hsorted Hall.
  destruct (filterSignificant_sorted items Hsorted Hall) as (j & Hrun & _ & Hj).
  eexists _, j. split; [unfold processColorResults; rewrite Hrun; reflexivity|].
  cbn [primaryColor significantColors].
  split; [destruct items; reflexivity|].
  split; [unfold formatResults; apply (fmap_take formatItem)|].
  intros i it q Hi Hq. destruct (Hj i it q Hi Hq) as [Hin Hout].
  split; [exact Hin|]. intros Hle. apply Qlt_le_weak. auto.
Qed.

(** X19. processColorResults on any list of ColorResults whose percentage
    texts [parseFloat] can read: [primaryColor] is the first element
    ([undefined] on an empty list), there is one hex string per colour, and
    [significantColors] is a sub-list of the input in its order.  On an
    empty list the three averages are [NaN]; on a non-empty list whose r, g
    and b all lie between lo and hi, so do the three averages. *)
Theorem processColorResults_summary (colors : list ColorResult) (lo hi : Z) :
  Forall (fun c => exists v, parseFloat (percentage_text c) = Ok v) colors ->
  exists res,
    processColorResults colors = Ok res /\
    primaryColor res = head colors /\
    length (hexColors res) = length colors /\
    sublist (significantColors res) colors /\
    (colors = [] -> averageRgb res = (None, None, None)) /\
    (colors <> [] ->
     Forall (fun c => lo <= r c <= hi /\ lo <= g c <= hi /\ lo <= b c <= hi) colors ->
     exists ar ag ab,
       averageRgb res = (Some ar, Some ag, Some ab) /\
       lo <= ar <= hi /\ lo <= ag <= hi /\ lo <= ab <= hi).
Proof.
  intros Hread.
  destruct (filterSignificant_sublist colors Hread) as (significant & Hrun & Hsub).
  eexists. split; [unfold processColorResults; rewrite Hrun; reflexivity|].
  cbn [primaryColor hexColors significantColors averageRgb].
  split; [destruct colors; reflexivity|].
  split; [apply length_map|]. split; [exact Hsub|]. split.
  - intros ->. reflexivity.
  - intros Hne Hbox.
    destruct (roundedAverage_between r lo hi colors Hne) as (ar & -> & Hr).
    { eapply Forall_impl; [exact Hbox|]. simpl. tauto. }
    destruct (roundedAverage_between g lo hi colors Hne) as (ag & -> & Hg).
    { eapply Forall_impl; [exact Hbox|]. simpl. tauto. }
    destruct (roundedAverage_between b lo hi colors Hne) as (ab & -> & Hb).
    { eapply Forall_impl; [exact Hbox|]. simpl. tauto. }
    exists ar, ag, ab. auto.
Qed.

(** ** The helper on what extractColors returns *)

Lemma percentageSum_first (first : ranked) (q0 : Q) (items : list ranked) :
  percentage first = Some q0 -> Forall (notBelow first) items ->
  (percentageSum items <= inject_Z (Z.of_nat (length items)) * q0)%Q.
Proof.
  intros Hq0. induction 1 as [|it items (pa & pb & Hpa & Hpb & Hle) _ IH].
  - change (0 <= 0 * q0)%Q. lra.
  - rewrite Hq0 in Hpa. injection Hpa as <-.
    change (percentageSum (it :: items))
      with (default 0%Q (percentage it) + percentageSum items)%Q.
    rewrite Hpb. simpl default.
    change (length (it :: items)) with (S (length items)).
    rewrite Nat2Z.inj_succ. unfold Z.succ. rewrite inject_Z_plus.
    change (inject_Z 1) with 1%Q. lra.
Qed.

Section Examples.

Variable random : nat -> Q.
Hypothesis random_range : forall n, (0 <= random n < 1)%Q.

(** X20. processColorResults on what extractColors returns for an image
    with at least one texel of alpha > 0, colorCount >= 1 and
    maxIterations >= 1: the helper returns, its [primaryColor] is the first
    ColorResult, and [significantColors] is a prefix of the results.  When
    colorCount <= 9 the prefix is not empty, so the primary colour is
    significant; and on bytes in [0,255] the three averages are numbers in
    [0,255]. *)
Theorem processColorResults_of_extractColors (data : list Z)
    (colorCount maxIterations n : nat) :
  samplePixels data <> [] -> (1 <= colorCount)%nat -> (1 <= maxIterations)%nat ->
  exists results n' res first j,
    extractColors random data colorCount maxIterations n = Ok (results, n') /\
    processColorResults results = Ok res /\
    head results = Some first /\ primaryColor res = Some first /\
    significantColors res = take j results /\
    ((colorCount <= 9)%nat -> (1 <= j)%nat) /\
    (Forall channel_ok data ->
     exists ar ag ab,
       averageRgb res = (Some ar, Some ag, Some ab) /\
       channel_ok ar /\ channel_ok ag /\ channel_ok ab).
Proof.
  intros Hne Hk Hmax. unfold extractColors.
  set (pixels := samplePixels data) in *.
  destruct (kMeansClustering_ranked random random_range pixels colorCount maxIterations n
              Hne Hk Hmax) as (st & n' & Hres & Hclen & Hok & Hall & Hsorted & Hsum).
  set (items := rank (centers_of st) (clusterSizes_of st) (length pixels)) in *.
  assert (Hplen : (0 < length pixels)%nat) by (destruct pixels; [congruence | simpl; lia]).
  assert (Hilen : length items = Nat.min colorCount (length pixels))
    by (unfold items; rewrite rank_length; exact Hclen).
  destruct (filterSignificant_sorted items Hsorted Hall) as (j & Hrun & _ & Hj).
  destruct items as [|it items'] eqn:Hitems; [simpl in Hilen; lia|].
  exists (formatResults (it :: items')), n'. eexists. exists (formatItem it), j.
  split; [rand_step Hres; reflexivity|].
  split; [unfold processColorResults; rewrite Hrun; reflexivity|].
  cbn [primaryColor significantColors averageRgb].
  split; [reflexivity|]. split; [reflexivity|].
  split; [unfold formatResults; apply (fmap_take formatItem)|]. split.
  - intros H9.
    inversion Hall as [|? ? (q0 & Hq0 & Hq0r) _]; subst.
    inversion Hsorted as [|? ? _ Hfirst]; subst.
    destruct (Hj 0%nat it q0 eq_refl Hq0) as [_ Hout].
    destruct j as [|j]; [|lia]. specialize (Hout ltac:(lia)).
    pose proof (percentageSum_first it q0 items' Hq0 Hfirst) as Hle.
    change (percentageSum (it :: items'))
      with (default 0%Q (percentage it) + percentageSum items')%Q in Hsum.
    rewrite Hq0 in Hsum. simpl default in Hsum.
    assert (H8 : (inject_Z (Z.of_nat (length items')) <= 8)%Q).
    { change 8%Q with (inject_Z 8). rewrite <- Zle_Qle. simpl in Hilen. lia. }
    nra.
  - intros Hbytes.
    assert (Hpix : Forall rgb_ok pixels)
      by (apply (samplePixels_bounded (length data)); [lia | exact Hbytes]).
    assert (Hcols : Forall (fun c => 0 <= r c <= 255 /\ 0 <= g c <= 255 /\ 0 <= b c <= 255)
                      (formatResults (it :: items'))).
    { unfold formatResults. apply Forall_fmap.
      apply (proj1 (Forall_fmap color rgb_ok _)).
      rewrite <- Hitems. unfold items.
      rewrite (rank_colors (centers_of st) (clusterSizes_of st) (length pixels)).
      exact (Hok Hpix). }
    assert (Hne' : formatResults (it :: items') <> []) by discriminate.
    destruct (roundedAverage_between r 0 255 _ Hne') as (ar & -> & Hr).
    { eapply Forall_impl; [exact Hcols|]. simpl. tauto. }
    destruct (roundedAverage_between g 0 255 _ Hne') as (ag & -> & Hg).
    { eapply Forall_impl; [exact Hcols|]. simpl. tauto. }
    destruct (roundedAverage_between b 0 255 _ Hne') as (ab & -> & Hb).
    { eapply Forall_impl; [exact Hcols|]. simpl. tauto. }
    exists ar, ag, ab. unfold channel_ok. auto.
Qed.

End Examples.

(** * The loaders *)

Lemma liveObjectURLs_app (h h' : list event) :
  forall live, liveObjectURLs live (h ++ h') = liveObjectURLs (liveObjectURLs live h) h'.
Proof.
  induction h as [|e h IH]; intros live; [reflexivity|].
  destruct e; simpl; apply IH.
Qed.

Lemma withoutFirst_head (url : string) (live : list string) :
  withoutFirst url (url :: live) = live.
Proof. simpl. rewrite String.eqb_refl. reflexivity. Qed.

Section LoaderProperties.

Context {image : Type}.
Variable browser : Browser image.

Lemma loadImage_spec (src : string) (h : list event) :
  exists out,
    loadImage browser src h = (out, h ++ [ImageRequested src]) /\
    (forall img, out = Fulfilled img <-> imageAt browser h src = Some img) /\
    (forall error, out = Rejected error -> error = ErrorObject "图片加载失败").
Proof.
  unfold loadImage. destruct (imageAt browser h src) as [img|]; eexists;
    (split; [reflexivity|]); split; try (intros ? [=]; congruence);
    intros ?; split; congruence.
Qed.

Lemma runExtract_spec (img : image) (options : ExtractOptions) (h : list event) :
  exists out new,
    runExtract browser img options h = (out, h ++ ClockRead :: ExtractCalled :: new) /\
    (forall live, liveObjectURLs live new = live) /\
    (forall error, out = Rejected error <->
       extractColorsOf browser (h ++ [ClockRead]) img options = Rejected error) /\
    (forall result, out = Fulfilled result ->
       extractColorsOf browser (h ++ [ClockRead]) img options = Fulfilled (colors result) /\
       analysisTimeMs result
       = JS.Math_round (performance_now browser (h ++ [ClockRead; ExtractCalled])
                        - performance_now browser h)).
Proof.
  unfold runExtract, startExtract, finishExtract. cbn [fst snd].
  destruct (extractColorsOf browser (h ++ [ClockRead]) img options) as [cs|e].
  - exists (Fulfilled {| colors := cs;
                         analysisTimeMs :=
                           JS.Math_round (performance_now browser ((h ++ [ClockRead]) ++ [ExtractCalled])
                                          - performance_now browser h) |}), [ClockRead].
    split; [rewrite <- !app_assoc; reflexivity|]. split; [reflexivity|].
    split; [intros ?; split; congruence|].
    intros result [= <-]. rewrite <- !app_assoc. split; reflexivity.
  - exists (Rejected e), []. split; [rewrite <- !app_assoc; reflexivity|].
    split; [reflexivity|]. split; [intros ?; split; congruence | congruence].
Qed.

Lemma downloadImage_spec (url : string) (h : list event) :
  exists out,
    downloadImage browser url h = (out, h ++ [Fetched url]) /\
    (forall blob, out = Fulfilled blob <->
       exists response,
         fetch browser h url = Fulfilled response /\ response_ok response = true /\
         response_blob response = Fulfilled blob /\
         String.prefix "image/" (blob_type blob) = true) /\
    (forall error, out = Rejected error ->
       exists message, error = ErrorObject ("下载图片失败: " +:+ message)) /\
    (forall response,
       fetch browser h url = Fulfilled response -> response_ok response = false ->
       out = Rejected (ErrorObject ("下载图片失败: HTTP error! status: "
                                      +:+ JS.toString10 (response_status response)))).
Proof.
  unfold downloadImage, rethrowAs.
  destruct (fetch browser h url) as [response|e] eqn:Hfetch.
  - destruct (response_ok response) eqn:Hok; cbn [negb].
    + destruct (response_blob response) as [blob|e] eqn:Hblob.
      * destruct (String.prefix "image/" (blob_type blob)) eqn:Htype; cbn [negb].
        -- exists (Fulfilled blob). split; [reflexivity|]. split; [|split].
           ++ intros blob'. split.
              ** intros [= <-]. exists response. auto.
              ** intros (response' & [= <-] & _ & Hb & _). congruence.
           ++ intros error [=].
           ++ intros response' [= <-]. congruence.
        -- eexists. split; [reflexivity|]. split; [|split].
           ++ intros blob'. split; [intros [=]|].
              intros (response' & [= <-] & _ & Hb & Ht). congruence.
           ++ intros error [= <-]. eexists. reflexivity.
           ++ intros response' [= <-]. congruence.
      * eexists. split; [reflexivity|]. split; [|split].
        -- intros blob'. split; [intros [=]|].
           intros (response' & [= <-] & _ & Hb & _). congruence.
        -- intros error [= <-]. eexists. reflexivity.
        -- intros response' [= <-]. congruence.
    + eexists. split; [reflexivity|]. split; [|split].
      * intros blob'. split; [intros [=]|].
        intros (response' & [= <-] & Hok' & _). congruence.
      * intros error [= <-]. eexists. reflexivity.
      * intros response' [= <-] _. reflexivity.
  - eexists. split; [reflexivity|]. split; [|split].
    + intros blob'. split; [intros [=]|]. intros (response' & [=] & _).
    + intros error [= <-]. eexists. reflexivity.
    + intros response' [=].
Qed.

(** X21. downloadImage makes one request and settles in one of two ways:
    it is fulfilled with a blob exactly when the request was answered, the
    response is ok, its body could be read and the type of the blob starts
    with "image/"; every rejection is an Error whose message starts with
    "下载图片失败: ", and for a response that is not ok the message goes on
    with "HTTP error! status: " and the status. *)
Theorem downloadImage_settles (url : string) (h : list event) :
  exists out,
    downloadImage browser url h = (out, h ++ [Fetched url]) /\
    (forall blob, out = Fulfilled blob <->
       exists response,
         fetch browser h url = Fulfilled response /\ response_ok response = true /\
         response_blob response = Fulfilled blob /\
         String.prefix "image/" (blob_type blob) = true) /\
    (forall error, out = Rejected error ->
       exists message, error = ErrorObject ("下载图片失败: " +:+ message)) /\
    (forall response,
       fetch browser h url = Fulfilled response -> response_ok response = false ->
       out = Rejected (ErrorObject ("下载图片失败: HTTP error! status: "
                                      +:+ JS.toString10 (response_status response)))).
Proof. exact (downloadImage_spec url h). Qed.

Lemma extractColorsFromFile_spec (file : File) (options : ExtractOptions)
    (h : list event) (live : list string) :
  let imageUrl := createObjectURL browser h in
  let h1 := h ++ [ObjectURLCreated imageUrl] in
  exists out new,
    extractColorsFromFile browser file options h = (out, h ++ new) /\
    liveObjectURLs live new = live /\
    (String.prefix "image/" (file_type file) = false ->
     out = Rejected (ErrorObject "文件处理失败: 请选择有效的图片文件") /\ new = []) /\
    (forall error, out = Rejected error ->
       exists message, error = ErrorObject ("文件处理失败: " +:+ message)) /\
    (forall img error,
       String.prefix "image/" (file_type file) = true ->
       imageAt browser h1 imageUrl = Some img ->
       extractColorsOf browser (h1 ++ [ImageRequested imageUrl; ClockRead]) img options
         = Rejected error ->
       out = Rejected (ErrorObject ("文件处理失败: " +:+ messageOf error))) /\
    (forall result, out = Fulfilled result ->
       String.prefix "image/" (file_type file) = true /\
       exists img,
         imageAt browser h1 imageUrl = Some img /\
         extractColorsOf browser (h1 ++ [ImageRequested imageUrl; ClockRead]) img options
           = Fulfilled (colors result)).
Proof.
  intros imageUrl h1. unfold extractColorsFromFile, rethrowAs, finallyRevoke.
  destruct (String.prefix "image/" (file_type file)) eqn:Htype; cbn [negb].
  2:{ exists (Rejected (ErrorObject "文件处理失败: 请选择有效的图片文件")), [].
      split; [rewrite app_nil_r; reflexivity|]. split; [reflexivity|].
      split; [auto|]. split; [intros error [= <-]; eexists; reflexivity|].
      split; [congruence | intros result [=]]. }
  fold imageUrl. fold h1.
  destruct (loadImage_spec imageUrl h1) as (loaded & Hload & Hok & Hbad).
  rewrite Hload.
  destruct loaded as [img|e].
  - destruct (runExtract_spec img options (h1 ++ [ImageRequested imageUrl]))
      as (out & new & Hrun & Hlive & Hrej & Hful).
    rewrite Hrun.
    assert (Himg : imageAt browser h1 imageUrl = Some img) by (apply Hok; reflexivity).
    rewrite <- app_assoc in Hrej, Hful. cbn [app] in Hrej, Hful.
    destruct out as [result|e].
    + exists (Fulfilled result),
        (ObjectURLCreated imageUrl :: ImageRequested imageUrl :: ClockRead
           :: ExtractCalled :: new ++ [ObjectURLRevoked imageUrl]).
      split; [unfold h1; rewrite <- !app_assoc; reflexivity|].
      split.
      { cbn [liveObjectURLs]. rewrite liveObjectURLs_app, Hlive. cbn [liveObjectURLs].
        apply withoutFirst_head. }
      split; [congruence|]. split; [intros error [=]|].
      split.
      { intros img' error _ Himg' Hext. rewrite Himg in Himg'. injection Himg' as <-.
        apply Hrej in Hext. discriminate. }
      intros result' [= <-]. split; [reflexivity|]. exists img.
      split; [exact Himg | apply Hful; reflexivity].
    + exists (Rejected (ErrorObject ("文件处理失败: " +:+ messageOf e))),
        (ObjectURLCreated imageUrl :: ImageRequested imageUrl :: ClockRead
           :: ExtractCalled :: new ++ [ObjectURLRevoked imageUrl]).
      split; [unfold h1; rewrite <- !app_assoc; reflexivity|].
      split.
      { cbn [liveObjectURLs]. rewrite liveObjectURLs_app, Hlive. cbn [liveObjectURLs].
        apply withoutFirst_head. }
      split; [congruence|]. split; [intros error [= <-]; eexists; reflexivity|].
      split; [|intros result [=]].
      intros img' error _ Himg' Hext. rewrite Himg in Himg'. injection Himg' as <-.
      apply Hrej in Hext. injection Hext as <-. reflexivity.
  - exists (Rejected (ErrorObject ("文件处理失败: " +:+ messageOf e))),
      [ObjectURLCreated imageUrl; ImageRequested imageUrl; ObjectURLRevoked imageUrl].
    split; [unfold h1; rewrite <- !app_assoc; reflexivity|].
    split; [cbn [liveObjectURLs]; apply withoutFirst_head|].
    split; [congruence|]. split; [intros error [= <-]; eexists; reflexivity|].
    split; [|intros result [=]].
    intros img error _ Himg _. apply Hok in Himg. discriminate.
Qed.

(** X22. extractColorsFromFile settles as follows.  A file whose type does
    not start with "image/" is rejected with "文件处理失败: 请选择有效的图片文件"
    before anything is done.  Otherwise one object URL is created, and it
    is revoked again however the call ends: the object URLs alive after the
    call are those alive before.  Every rejection is an Error whose message
    starts with "文件处理失败: "; in particular a rejection of the analysis
    is caught and passed on with its message behind that prefix.  The call
    is fulfilled only if the image loaded and the analysis was fulfilled,
    and then with the colours of the analysis. *)
Theorem extractColorsFromFile_settles (file : File) (options : ExtractOptions)
    (h : list event) (live : list string) :
  let imageUrl := createObjectURL browser h in
  let h1 := h ++ [ObjectURLCreated imageUrl] in
  exists out new,
    extractColorsFromFile browser file options h = (out, h ++ new) /\
    liveObjectURLs live new = live /\
    (String.prefix "image/" (file_type file) = false ->
     out = Rejected (ErrorObject "文件处理失败: 请选择有效的图片文件") /\ new = []) /\
    (forall error, out = Rejected error ->
       exists message, error = ErrorObject ("文件处理失败: " +:+ message)) /\
    (forall img error,
       String.prefix "image/" (file_type file) = true ->
       imageAt browser h1 imageUrl = Some img ->
       extractColorsOf browser (h1 ++ [ImageRequested imageUrl; ClockRead]) img options
         = Rejected error ->
       out = Rejected (ErrorObject ("文件处理失败: " +:+ messageOf error))) /\
    (forall result, out = Fulfilled result ->
       String.prefix "image/" (file_type file) = true /\
       exists img,
         imageAt browser h1 imageUrl = Some img /\
         extractColorsOf browser (h1 ++ [ImageRequested imageUrl; ClockRead]) img options
           = Fulfilled (colors result)).
Proof. exact (extractColorsFromFile_spec file options h live). Qed.

Lemma runExtract_events (img : image) (options : ExtractOptions) (h : list event) :
  exists out new,
    runExtract browser img options h = (out, h ++ ClockRead :: ExtractCalled :: new) /\
    (new = [] \/ new = [ClockRead]) /\
    (forall error, out = Rejected error <->
       extractColorsOf browser (h ++ [ClockRead]) img options = Rejected error) /\
    (forall result, out = Fulfilled result ->
       extractColorsOf browser (h ++ [ClockRead]) img options = Fulfilled (colors result)).
Proof.
  destruct (runExtract_spec img options h) as (out & new & Hrun & _ & Hrej & Hful).
  exists out, new. split; [exact Hrun|]. split; [|split; [exact Hrej|]].
  - revert Hrun. unfold runExtract, startExtract, finishExtract. cbn [fst snd].
    destruct (extractColorsOf browser (h ++ [ClockRead]) img options);
      rewrite <- !app_assoc; cbn [app]; intros [= _ Hnew];
      apply app_inv_head in Hnew; injection Hnew as <-; auto.
  - intros result Hout. apply Hful. exact Hout.
Qed.

(** X23. extractColorsFromUrl settles as follows.  An address that
    [new URL] refuses is rejected with "URL处理失败: 请提供有效的URL地址" before
    anything is done.  The download is tried exactly when the address is
    valid and loading it directly failed.  The object URLs alive after the
    call are those alive before.  A rejection that comes before the
    analysis was started is an Error whose message starts with
    "URL处理失败: "; but when the analysis was started, a rejection is the
    rejection of the analysis itself, passed on as it is, without the
    prefix.  The call is fulfilled only with the colours of a fulfilled
    analysis. *)
Theorem extractColorsFromUrl_settles (url : string) (options : ExtractOptions)
    (h : list event) (live : list string) :
  exists out new,
    extractColorsFromUrl browser url options h = (out, h ++ new) /\
    liveObjectURLs live new = live /\
    (isURL browser url = false ->
     out = Rejected (ErrorObject "URL处理失败: 请提供有效的URL地址") /\ new = []) /\
    (Fetched url ∈ new <-> isURL browser url = true /\ imageAt browser h url = None) /\
    (forall img error,
       isURL browser url = true -> imageAt browser h url = Some img ->
       extractColorsOf browser (h ++ [ImageRequested url; ClockRead]) img options
         = Rejected error ->
       out = Rejected error) /\
    (forall error, out = Rejected error ->
       (ExtractCalled ∉ new ->
        exists message, error = ErrorObject ("URL处理失败: " +:+ message)) /\
       (ExtractCalled ∈ new ->
        exists h' img, extractColorsOf browser h' img options = Rejected error)) /\
    (forall result, out = Fulfilled result ->
       exists h' img, extractColorsOf browser h' img options = Fulfilled (colors result)).
Proof.
  unfold extractColorsFromUrl.
  destruct (isURL browser url) eqn:Hurl; cbn [negb].
  2:{ exists (Rejected (ErrorObject "URL处理失败: 请提供有效的URL地址")), [].
      split; [rewrite app_nil_r; reflexivity|]. split; [reflexivity|].
      split; [auto|]. split.
      { split; [intros Hin; inversion Hin | intros [? _]; congruence]. }
      split; [congruence|]. split; [|intros result [=]].
      intros error [= <-]. split; [intros _; eexists; reflexivity|].
      intros Hin. inversion Hin. }
  destruct (loadImage_spec url h) as (loaded & Hload & Hok & Hbad). rewrite Hload.
  destruct loaded as [img|corsError].
  - assert (Himg : imageAt browser h url = Some img) by (apply Hok; reflexivity).
    destruct (runExtract_events img options (h ++ [ImageRequested url]))
      as (out & new & Hrun & Hnew & Hrej & Hful).
    rewrite Hrun. rewrite <- app_assoc in Hrej, Hful. cbn [app] in Hrej, Hful.
    exists out, (ImageRequested url :: ClockRead :: ExtractCalled :: new).
    split; [rewrite <- !app_assoc; reflexivity|].
    split; [destruct Hnew as [-> | ->]; reflexivity|].
    split; [congruence|]. split.
    { split; [|intros [_ ?]; congruence].
      intros Hin. exfalso. destruct Hnew as [-> | ->];
        rewrite !elem_of_cons, elem_of_nil in Hin;
        repeat (destruct Hin as [Hin|Hin]; [discriminate|]); exact Hin. }
    split.
    { intros img' error _ Himg' Hext. rewrite Himg in Himg'. injection Himg' as <-.
      apply Hrej. exact Hext. }
    split.
    + intros error ->. split.
      * intros Hnot. exfalso. apply Hnot. rewrite !elem_of_cons. auto.
      * intros _. eexists _, img. apply Hrej. reflexivity.
    + intros result ->. eexists _, img. apply Hful. reflexivity.
  - assert (Himg : imageAt browser h url = None).
    { destruct (imageAt browser h url) as [img|] eqn:E; [|reflexivity].
      assert (Hc : Rejected corsError = Fulfilled img) by (apply Hok; reflexivity).
      discriminate. }
    set (h2 := (h ++ [ImageRequested url]) ++ [Warned (messageOf corsError)]).
    destruct (downloadImage_spec url h2) as (got & Hget & _ & Hgot & _).
    rewrite Hget. destruct got as [blob|e].
    + set (localUrl := createObjectURL browser (h2 ++ [Fetched url])).
      destruct (loadImage_spec localUrl ((h2 ++ [Fetched url]) ++ [ObjectURLCreated localUrl]))
        as (loaded & Hload2 & Hok2 & Hbad2).
      rewrite Hload2. destruct loaded as [img|e].
      * unfold startExtract, finishExtract. cbn [fst snd].
        match goal with
        | |- context [extractColorsOf browser ?hh img options] =>
            destruct (extractColorsOf browser hh img options) as [cs|e] eqn:Hext
        end.
        -- eexists _, _. split; [unfold h2; rewrite <- !app_assoc; cbn [app]; reflexivity|].
           split; [cbn [liveObjectURLs]; apply withoutFirst_head|].
           split; [congruence|]. split.
           { split; [auto | intros _; rewrite !elem_of_cons; auto]. }
           split; [congruence|]. split; [intros error [=]|].
           intros result [= <-]. eexists _, img. exact Hext.
        -- eexists _, _. split; [unfold h2; rewrite <- !app_assoc; cbn [app]; reflexivity|].
           split; [cbn [liveObjectURLs]; apply withoutFirst_head|].
           split; [congruence|]. split.
           { split; [auto | intros _; rewrite !elem_of_cons; auto]. }
           split; [congruence|]. split; [|intros result [=]].
           intros error [= <-]. split.
           ++ intros Hnot. exfalso. apply Hnot. rewrite !elem_of_cons. auto 10.
           ++ intros _. eexists _, img. exact Hext.
      * eexists _, _. split; [unfold h2; rewrite <- !app_assoc; cbn [app]; reflexivity|].
        split; [cbn [liveObjectURLs]; apply withoutFirst_head|].
        split; [congruence|]. split.
        { split; [auto | intros _; rewrite !elem_of_cons; auto]. }
        split; [congruence|]. split; [|intros result [=]].
        intros error [= <-]. split; [intros _; eexists; reflexivity|].
        intros Hin. exfalso. rewrite !elem_of_cons, elem_of_nil in Hin.
        repeat (destruct Hin as [Hin|Hin]; [discriminate|]). exact Hin.
    + eexists _, _. split; [unfold h2; rewrite <- !app_assoc; cbn [app]; reflexivity|].
      split; [reflexivity|]. split; [congruence|]. split.
      { split; [auto | intros _; rewrite !elem_of_cons; auto]. }
      split; [congruence|]. split; [|intros result [=]].
      intros error [= <-]. split; [intros _; eexists; reflexivity|].
      intros Hin. exfalso. rewrite !elem_of_cons, elem_of_nil in Hin.
      repeat (destruct Hin as [Hin|Hin]; [discriminate|]). exact Hin.
Qed.

(** X24. A failed download seen from extractColorsFromUrl: when the address
    is valid, loading it directly fails and the download is answered with a
    response that is not ok, the call is rejected with the message
    "URL处理失败: 下载图片失败: HTTP error! status: " followed by the status;
    both prefixes are there. *)
Theorem extractColorsFromUrl_download_failure (url : string) (options : ExtractOptions)
    (h : list event) (response : Response) :
  isURL browser url = true -> imageAt browser h url = None ->
  fetch browser (h ++ [ImageRequested url; Warned "图片加载失败"]) url = Fulfilled response ->
  response_ok response = false ->
  extractColorsFromUrl browser url options h
  = (Rejected (ErrorObject ("URL处理失败: 下载图片失败: HTTP error! status: "
                              +:+ JS.toString10 (response_status response))),
     h ++ [ImageRequested url; Warned "图片加载失败"; Fetched url]).
Proof.
  intros Hurl Himg Hfetch Hok. unfold extractColorsFromUrl, loadImage.
  rewrite Hurl, Himg. cbn [negb messageOf].
  rewrite <- app_assoc. cbn [app].
  destruct (downloadImage_spec url (h ++ [ImageRequested url; Warned "图片加载失败"]))
    as (got & Hget & _ & _ & Hstatus).
  rewrite Hget, (Hstatus response Hfetch Hok). cbn [messageOf].
  rewrite <- app_assoc. reflexivity.
Qed.

(** X25. When the clock never goes back, the [analysisTimeMs] of a
    fulfilled extractColorsFromFile or extractColorsFromUrl is not
    negative. *)
Theorem analysisTimeMs_not_negative (file : File) (url : string)
    (options : ExtractOptions) (h h' : list event) (result : ExtractResult) :
  monotoneClock browser ->
  extractColorsFromFile browser file options h = (Fulfilled result, h') \/
  extractColorsFromUrl browser url options h = (Fulfilled result, h') ->
  0 <= analysisTimeMs result.
Proof.
  intros Hclock.
  assert (Hfinish : forall outcome hs hc hf,
            (exists he, hc = hs ++ he) ->
            finishExtract browser (performance_now browser hs, outcome) hc
              = (Fulfilled result, hf) ->
            0 <= analysisTimeMs result).
  { intros outcome hs hc hf [he ->]. unfold finishExtract. cbn [fst snd].
    destruct outcome as [cs|e]; [|discriminate]. intros [= <- _]. cbn [analysisTimeMs].
    unfold JS.Math_round. change 0 with (Qfloor 0). apply Qfloor_resp_le.
    pose proof (Hclock hs he). lra. }
  intros [Hrun | Hrun]; revert Hrun.
  - unfold extractColorsFromFile, rethrowAs, finallyRevoke, loadImage, runExtract,
      startExtract.
    destruct (String.prefix "image/" (file_type file)); cbn [negb]; [|discriminate].
    match goal with |- context [imageAt browser ?hh ?u] =>
      destruct (imageAt browser hh u) as [img|] end; [|discriminate].
    match goal with |- context [finishExtract browser ?p ?hh] =>
      destruct (finishExtract browser p hh) as [[res|e] hf] eqn:Hfin end; [|discriminate].
    intros [= <- _].
    eapply Hfinish; [|exact Hfin]. eexists. rewrite <- !app_assoc. reflexivity.
  - unfold extractColorsFromUrl, loadImage, runExtract, startExtract.
    destruct (isURL browser url); cbn [negb]; [|discriminate].
    destruct (imageAt browser h url) as [img|].
    + intros Hfin.
      eapply Hfinish; [|exact Hfin]. eexists. rewrite <- !app_assoc. reflexivity.
    + match goal with |- context [downloadImage browser url ?hh] =>
        destruct (downloadImage browser url hh) as [[blob|e] hd] end; [|discriminate].
      match goal with |- context [imageAt browser ?hh ?u] =>
        destruct (imageAt browser hh u) as [img|] end; [|discriminate].
      intros Hfin.
      eapply Hfinish; [|exact Hfin]. eexists. rewrite <- !app_assoc. reflexivity.
Qed.

Lemma batchProcessFiles_spec (files : list File) :
  forall results h live,
  exists added new,
    batchProcessFiles browser files results h = (Fulfilled (results ++ added), h ++ new) /\
    length added = length files /\
    liveObjectURLs live new = live /\
    forall i file, files !! i = Some file ->
      String.prefix "image/" (file_type file) = false -> added !! i = Some [].
Proof.
  induction files as [|file files IH]; intros results h live.
  { exists [], []. rewrite !app_nil_r. split; [reflexivity|]. split; [reflexivity|].
    split; [reflexivity|]. intros i file Hi. discriminate. }
  cbn [batchProcessFiles].
  destruct (extractColorsFromFile_spec file
              {| colorCount := Some 3%nat; maxSize := Some 100%nat; maxIterations := None |}
              h live) as (out & new & Hrun & Hlive & Htype & _ & _ & Hful).
  rewrite Hrun.
  assert (Hstep : exists entry,
            (match out with
             | Fulfilled result => batchProcessFiles browser files (results ++ [colors result]) (h ++ new)
             | Rejected _ => batchProcessFiles browser files (results ++ [[]]) (h ++ new)
             end = batchProcessFiles browser files (results ++ [entry]) (h ++ new)) /\
            (String.prefix "image/" (file_type file) = false -> entry = [])).
  { destruct out as [result|e].
    - exists (colors result). split; [reflexivity|]. intros Hbad.
      destruct (Hful result eq_refl) as [Hgood _]. congruence.
    - exists []. auto. }
  destruct Hstep as (entry & -> & Hentry).
  destruct (IH (results ++ [entry]) (h ++ new) live) as (added & new' & Hrest & Hlen & Hlive' & Hbad).
  exists (entry :: added), (new ++ new').
  split; [rewrite Hrest, <- !app_assoc; reflexivity|].
  split; [simpl; lia|].
  split; [rewrite liveObjectURLs_app, Hlive; exact Hlive'|].
  intros [|i] file' Hi Htype'; simpl in Hi.
  - injection Hi as <-. simpl. f_equal. auto.
  - simpl. eapply Hbad; eauto.
Qed.

(** X26. exampleBatchProcessFiles is never rejected: whatever happens to
    the single files it is fulfilled with exactly one entry per file, in
    the order of the files; the entry of a file whose type does not start
    with "image/" is the empty list; and the object URLs alive afterwards
    are those alive before. *)
Theorem exampleBatchProcessFiles_settles (files : list File) (h : list event)
    (live : list string) :
  exists results new,
    exampleBatchProcessFiles browser files h = (Fulfilled results, h ++ new) /\
    length results = length files /\
    liveObjectURLs live new = live /\
    forall i file, files !! i = Some file ->
      String.prefix "image/" (file_type file) = false -> results !! i = Some [].
Proof.
  destruct (batchProcessFiles_spec files [] h live) as (added & new & Hrun & Hrest).
  exists added, new. split; [exact Hrun | exact Hrest].
Qed.

End LoaderProperties.

(** ** The further properties at concrete inputs *)

Lemma halves_range : forall n, (0 <= halves n < 1)%Q.
Proof. intros n. unfold halves, Qle, Qlt. simpl. lia. Defined.

Lemma halves_positive : forall n, (0 < halves n)%Q.
Proof. intros n. unfold halves, Qlt. simpl. lia. Defined.

Lemma colorDistanceSq_facts_witness :
  colorDistanceSq black white = 195075 /\
  -5 <= ch0 (RGB 10 20 30) - ch0 (RGB 13 24 30) <= 5.
Proof.
  split; [reflexivity|].
  destruct (colorDistanceSq_facts (RGB 10 20 30) (RGB 13 24 30)) as (_ & _ & _ & _ & H).
  apply H. vm_compute. discriminate.
Defined.

Lemma samplePixels_opaque_texels_witness :
  samplePixels [10; 20; 30; 255; 1; 2; 3; 0; 200; 100; 0; 7; 9; 9]
  = [RGB 10 20 30; RGB 200 100 0].
Proof.
  destruct (samplePixels_opaque_texels
              [(RGB 10 20 30, 255); (RGB 1 2 3, 0); (RGB 200 100 0, 7)] [9; 9] [])
    as [H _].
  apply H. simpl. lia.
Defined.

Lemma assignPixelsToCenters_minimal_cost_witness :
  exists assignments clusterSizes,
    assignPixelsToCenters threeValues [black; white] 2 = Ok (assignments, clusterSizes) /\
    assignmentCost [black; white] threeValues assignments
    <= assignmentCost [black; white] threeValues [1; 1; 1; 1]%nat.
Proof.
  destruct (assignPixelsToCenters_minimal_cost threeValues [black; white])
    as (assignments & sizes & Hrun & Hmin).
  - discriminate.
  - exists assignments, sizes. split; [exact Hrun|].
    apply Hmin; [reflexivity|]. repeat constructor.
Defined.

Lemma assignPixelsToCenters_edges_witness :
  assignPixelsToCenters threeValues [black] 2 = Throw TypeError.
Proof.
  destruct (assignPixelsToCenters_edges threeValues [black] 2) as (_ & H & _).
  apply H; [discriminate | simpl; lia].
Defined.

Lemma weightedRandomPick_edges_witness :
  exists i p d,
    weightedRandomPick halves threeValues [0; 0; 5; 3]%Q 0%nat = Ok (p, 1%nat) /\
    threeValues !! i = Some p /\ [0; 0; 5; 3]%Q !! i = Some d /\ (0 < d)%Q.
Proof.
  destruct (weightedRandomPick_edges halves halves_range halves_positive
              threeValues [0; 0; 5; 3]%Q 0) as (_ & H & _).
  apply H; [discriminate | reflexivity | vm_compute; reflexivity].
Defined.

Lemma kMeansPlusPlusInit_never_empty_witness :
  exists centers,
    kMeansPlusPlusInit halves threeValues 0 0%nat = Ok (centers, 1%nat) /\
    length centers = 1%nat.
Proof.
  destruct (kMeansPlusPlusInit_never_empty halves halves_range threeValues 0 0)
    as (_ & H).
  destruct H as (centers & Hinit & Hlen & _); [discriminate|].
  exists centers. split; [exact Hinit | exact Hlen].
Defined.

Lemma kMeansPlusPlusInit_distinct_seeds_witness :
  exists centers,
    kMeansPlusPlusInit halves threeValues 3 0%nat = Ok (centers, 3%nat) /\
    length centers = 3%nat /\ NoDup centers.
Proof.
  apply (kMeansPlusPlusInit_distinct_seeds halves halves_range halves_positive
           threeValues 3 0).
  - discriminate.
  - vm_compute. lia.
Defined.

Lemma kMeansClustering_within_box_witness :
  exists items n',
    kMeansClustering halves threeValues 3 20 0%nat = Ok (items, n') /\
    Forall (fun it => withinBox (RGB 0 0 0) (RGB 200 100 255) (color it)) items.
Proof.
  apply (kMeansClustering_within_box halves halves_range (RGB 0 0 0) (RGB 200 100 255)
           threeValues 3 20 0).
  - discriminate.
  - lia.
  - unfold threeValues, withinBox.
    repeat (apply Forall_cons_2; [simpl; lia|]). apply Forall_nil_2.
Defined.

Lemma kMeansClustering_grey_witness :
  exists items n',
    kMeansClustering halves scenarioPixels 2 20 0%nat = Ok (items, n') /\
    Forall (fun it => isGrey (color it)) items.
Proof.
  apply (kMeansClustering_grey halves halves_range scenarioPixels 2 20 0).
  - discriminate.
  - lia.
  - unfold scenarioPixels, isGrey.
    repeat (apply Forall_cons_2; [split; reflexivity|]). apply Forall_nil_2.
Defined.

Lemma kMeansRun_final_clusters_witness :
  exists st,
    kMeansRun halves threeValues 2 20 0%nat = Ok (st, 2%nat) /\
    sum_list (clusterSizes_of st) = 4%nat.
Proof.
  destruct (kMeansRun_final_clusters halves halves_range threeValues 2 20 0)
    as (seeds & st & before & assignments & _ & Hrun & _ & _ & Hsum & _).
  - discriminate.
  - lia.
  - lia.
  - exists st. split; [exact Hrun | exact Hsum].
Defined.

Lemma kMeansClustering_percentages_witness :
  exists items n',
    kMeansClustering halves threeValues 3 20 0%nat = Ok (items, n') /\
    StronglySorted notBelow items /\ (percentageSum items == 100)%Q.
Proof.
  destruct (kMeansClustering_percentages halves halves_range threeValues 3 20 0)
    as (items & n' & Hrun & _ & Hsorted & Hsum).
  - discriminate.
  - lia.
  - lia.
  - exists items, n'. auto.
Defined.

Lemma kMeansClustering_no_pass_witness :
  exists seeds,
    kMeansClustering halves threeValues 2 0 0%nat
      = Ok (map (fun c => Ranked c None) seeds, 2%nat) /\
    Forall (fun cr => percentage_text cr = "NaN"%string)
           (formatResults (map (fun c => Ranked c None) seeds)).
Proof.
  destruct (kMeansClustering_no_pass halves halves_range threeValues 2 0)
    as (seeds & _ & Hrun & Htext).
  - discriminate.
  - lia.
  - exists seeds. split; [exact Hrun | exact Htext].
Defined.

Lemma kMeansClustering_one_colour_witness :
  exists items,
    kMeansClustering halves [white; white; white] 6 20 0%nat = Ok (items, 3%nat) /\
    map percentage_text (formatResults items) = ["100.0"; "0.0"; "0.0"]%string.
Proof.
  destruct (kMeansClustering_one_colour halves halves_range white 2 6 20 0)
    as (st & items & _ & _ & _ & Hrun & _ & Htext).
  - lia.
  - lia.
  - exists items. split; [exact Hrun | exact Htext].
Defined.

Lemma extractColors_pipeline_witness :
  exists results n',
    extractColors halves [0; 0; 0; 255; 255; 255; 255; 0; 255; 255; 255; 128] 6 20 0%nat
      = Ok (results, n') /\
    length results = 2%nat.
Proof.
  destruct (extractColors_pipeline halves halves_range
              [(black, 255); (white, 0); (white, 128)] [] 6 20 0)
    as (results & n' & Hrun & Hlen & _).
  - simpl. lia.
  - lia.
  - exists results, n'. split; [exact Hrun | exact Hlen].
Defined.


Lemma parseFloat_of_toFixed1_witness :
  exists v, parseFloat (JS.toFixed1 (Some (1234 # 100))) = Ok (Some v) /\
    (v == inject_Z (JS.Math_round ((1234 # 100) * 10)) / 10)%Q /\
    (- (1 # 20) <= v - (1234 # 100) <= 1 # 20)%Q.
Proof.
  destruct (parseFloat_of_toFixed1 (1234 # 100)) as [_ H].
  apply H. unfold Qle. simpl. lia.
Defined.

Lemma processColorResults_palette_witness :
  exists res j,
    processColorResults
      (formatResults [Ranked black (Some 60%Q); Ranked white (Some 30%Q);
                      Ranked (RGB 42 59 76) (Some 10%Q)]) = Ok res /\
    significantColors res
    = take j (formatResults [Ranked black (Some 60%Q); Ranked white (Some 30%Q);
                             Ranked (RGB 42 59 76) (Some 10%Q)]).
Proof.
  destruct (processColorResults_palette
              [Ranked black (Some 60%Q); Ranked white (Some 30%Q);
               Ranked (RGB 42 59 76) (Some 10%Q)])
    as (res & j & Hrun & _ & Hsig & _).
  - repeat (apply SSorted_cons;
            [|repeat (apply Forall_cons_2;
                      [eexists _, _; split; [reflexivity|]; split; [reflexivity|];
                       unfold Qle; simpl; lia|]);
              apply Forall_nil_2]).
    apply SSorted_nil.
  - repeat (apply Forall_cons_2;
            [eexists; split; [reflexivity|]; unfold Qle; simpl; lia|]).
    apply Forall_nil_2.
  - exists res, j. split; [exact Hrun | exact Hsig].
Defined.

Lemma processColorResults_summary_witness :
  exists res,
    processColorResults
      (formatResults [Ranked (RGB 10 20 30) (Some 75%Q); Ranked (RGB 13 24 30) None]) = Ok res /\
    exists ar ag ab,
      averageRgb res = (Some ar, Some ag, Some ab) /\
      10 <= ar <= 30 /\ 10 <= ag <= 30 /\ 10 <= ab <= 30.
Proof.
  destruct (processColorResults_summary
              (formatResults [Ranked (RGB 10 20 30) (Some 75%Q); Ranked (RGB 13 24 30) None])
              10 30) as (res & Hrun & _ & _ & _ & _ & Havg).
  - repeat (apply Forall_cons_2; [eexists; reflexivity|]). apply Forall_nil_2.
  - exists res. split; [exact Hrun|]. apply Havg; [discriminate|].
    repeat (apply Forall_cons_2; [simpl; lia|]). apply Forall_nil_2.
Defined.

Lemma processColorResults_of_extractColors_witness :
  exists results n' res first j,
    extractColors halves [0; 0; 0; 255; 255; 255; 255; 0; 255; 255; 255; 128] 6 20 0%nat
      = Ok (results, n') /\
    processColorResults results = Ok res /\
    primaryColor res = Some first /\
    significantColors res = take j results /\ (1 <= j)%nat.
Proof.
  destruct (processColorResults_of_extractColors halves halves_range
              [0; 0; 0; 255; 255; 255; 255; 0; 255; 255; 255; 128] 6 20 0)
    as (results & n' & res & first & j & Hrun & Hres & _ & Hfirst & Hsig & Hj & _).
  - discriminate.
  - lia.
  - lia.
  - exists results, n', res, first, j. repeat (split; [assumption|]). apply Hj. lia.
Defined.


Lemma downloadImage_settles_witness :
  exists out,
    downloadImage sampleBrowser "https://example.com/b.png" []
      = (out, [Fetched "https://example.com/b.png"]) /\
    out = Fulfilled (MkBlob "image/png").
Proof.
  destruct (downloadImage_settles sampleBrowser "https://example.com/b.png" [])
    as (out & Hrun & Hful & _).
  exists out. split; [exact Hrun|]. apply Hful.
  eexists. split; [reflexivity|]. split; [reflexivity|]. split; reflexivity.
Defined.

Lemma extractColorsFromFile_settles_witness :
  exists out new,
    extractColorsFromFile sampleBrowser (MkFile "image/png")
      (MkExtractOptions None None None) [] = (out, new) /\
    out = Rejected (ErrorObject "文件处理失败: IndexSizeError") /\
    liveObjectURLs [] new = [].
Proof.
  destruct (extractColorsFromFile_settles sampleBrowser (MkFile "image/png")
              (MkExtractOptions None None None) [] [])
    as (out & new & Hrun & Hlive & _ & _ & Hwrap & _).
  exists out, new. split; [exact Hrun|]. split; [|exact Hlive].
  apply (Hwrap 1%nat (ErrorObject "IndexSizeError")); reflexivity.
Defined.

Lemma extractColorsFromUrl_settles_witness :
  exists out new,
    extractColorsFromUrl sampleBrowser "https://example.com/a.png"
      (MkExtractOptions None None None) [] = (out, new) /\
    out = Rejected (ErrorObject "IndexSizeError").
Proof.
  destruct (extractColorsFromUrl_settles sampleBrowser "https://example.com/a.png"
              (MkExtractOptions None None None) [] [])
    as (out & new & Hrun & _ & _ & _ & Hraw & _).
  exists out, new. split; [exact Hrun|].
  apply (Hraw 1%nat (ErrorObject "IndexSizeError")); reflexivity.
Defined.

Lemma extractColorsFromUrl_download_failure_witness :
  fst (extractColorsFromUrl notFoundBrowser "https://example.com/a.png"
         (MkExtractOptions None None None) [])
  = Rejected (ErrorObject "URL处理失败: 下载图片失败: HTTP error! status: 404").
Proof.
  rewrite (extractColorsFromUrl_download_failure notFoundBrowser
             "https://example.com/a.png" (MkExtractOptions None None None) []
             {| response_ok := false; response_status := 404;
                response_blob := Rejected (OtherValue "") |});
    reflexivity.
Defined.

Lemma calmBrowser_clock : monotoneClock calmBrowser.
Proof.
  intros h h'. cbn [performance_now calmBrowser sampleBrowser].
  rewrite <- Zle_Qle, length_app. lia.
Defined.

Lemma analysisTimeMs_not_negative_witness :
  exists result h',
    extractColorsFromFile calmBrowser (MkFile "image/png")
      (MkExtractOptions None None None) [] = (Fulfilled result, h') /\
    0 <= analysisTimeMs result.
Proof.
  eexists _, _. split; [reflexivity|].
  eapply (analysisTimeMs_not_negative calmBrowser (MkFile "image/png") ""
            (MkExtractOptions None None None) []);
    [exact calmBrowser_clock | left; reflexivity].
Defined.

Lemma exampleBatchProcessFiles_settles_witness :
  exists results new,
    exampleBatchProcessFiles calmBrowser [MkFile "text/plain"; MkFile "image/png"] []
      = (Fulfilled results, new) /\
    length results = 2%nat /\ results !! 0%nat = Some [].
Proof.
  destruct (exampleBatchProcessFiles_settles calmBrowser
              [MkFile "text/plain"; MkFile "image/png"] [] [])
    as (results & new & Hrun & Hlen & _ & Hbad).
  exists results, new. split; [exact Hrun|]. split; [exact Hlen|].
  apply (Hbad 0%nat (MkFile "text/plain")); reflexivity.
Defined.
